(** * Per-cycle statistical validation engine (NASA PCoE ARC 29-32, FAIR-ready)

    A shallow embedding of [scripts/validation/generate_section_iv_artifacts.py]
    and of the checks of [scripts/validation/sanity_check_parquet_physical_v1.py].

    - A pandas DataFrame is a list of records, in stored row order.  The
      per-cycle statistics table is only ever built by [pd.DataFrame(rows)]
      from a list of row dictionaries, so its empty value is the frame
      without columns, on which a grouping by "cell_id" is a [KeyError].
    - Integer columns ([cycle_index], [t_index]) are int64 columns, held as
      values of [Z]; the one arithmetic operation on them, [np.diff] of the
      time indices, wraps around as int64 subtraction does ([int64_wrap]).
      Entity identifiers are strings; Python [int] counts that cannot be
      negative are [nat].
    - [sort_values] is pandas' default quicksort: it returns the rows in
      ascending key order, and the relative order of rows with equal keys
      is not fixed.  The engine is written over any such order
      ([SortOrder]); the stable one ([stable_order]) runs the examples.
    - float64 columns are values of a type [F] with the operations NumPy
      applies to them, collected in the class [Float64].  The engine is
      written once over that class and read at two instances:
      [binary64] (the kernel's IEEE 754 binary64 numbers, executable, which is
      what the program runs on) and [exact_arith] (real numbers without
      rounding plus the NaN sentinel, in which the universally quantified
      arithmetic facts are proved).
    - A Python exception is a [Raise] in the [result] type, or a [Failed]
      outcome where a [KeyError] can occur as well. *)

From Stdlib Require Import String.
From Stdlib Require Import List ZArith Reals Lra Lia Bool.
From Stdlib Require Import Permutation Sorted PeanoNat.
From Stdlib Require Floats Uint63 OrderedTypeEx DecimalString.
Import ListNotations.

(** ** Exceptions *)

Inductive exn : Type :=
| ValueError (msg : string).

Inductive result (A : Type) : Type :=
| Ok (a : A)
| Raise (e : exn).
Arguments Ok {A} a.
Arguments Raise {A} e.

Definition bind {A B : Type} (m : result A) (k : A -> result B) : result B :=
  match m with
  | Ok a => k a
  | Raise e => Raise e
  end.

Notation "x <- m ;; k" := (bind m (fun x => k))
  (at level 61, m at next level, right associativity).

Fixpoint mapM {A B : Type} (f : A -> result B) (l : list A) : result (list B) :=
  match l with
  | [] => Ok []
  | a :: l' => b <- f a ;; bs <- mapM f l' ;; Ok (b :: bs)
  end.

(** What a computation on the per-cycle statistics table can end with
    besides its result: an exception raised by a reduction or by the
    selector, or the [KeyError] of a grouping by a column the frame does not
    have. *)
Inductive failure : Type :=
| EngineError (e : exn)
| KeyError (key : string).

Inductive outcome (A : Type) : Type :=
| Done (a : A)
| Failed (f : failure).
Arguments Done {A} a.
Arguments Failed {A} f.

Definition engine {A : Type} (m : result A) : outcome A :=
  match m with
  | Ok a => Done a
  | Raise e => Failed (EngineError e)
  end.

Definition and_then {A B : Type} (m : outcome A) (k : A -> outcome B) : outcome B :=
  match m with
  | Done a => k a
  | Failed f => Failed f
  end.

(** ** float64 *)

Class Float64 (F : Type) : Type := {
  nan : F;                      (* float("nan") *)
  of_Z : Z -> F;                (* int -> float64 *)
  fadd : F -> F -> F;
  fsub : F -> F -> F;
  fmul : F -> F -> F;
  fdiv : F -> F -> F;
  fsqrt : F -> F;
  flt : F -> F -> bool;         (* a < b,  False when either is NaN *)
  fle : F -> F -> bool;         (* a <= b, False when either is NaN *)
  feq : F -> F -> bool;         (* a == b, False when either is NaN *)
  isnan : F -> bool             (* np.isnan *)
}.

(** *** Instance 1: IEEE 754 binary64 *)

Definition f64_of_Z (z : Z) : PrimFloat.float :=
  match z with
  | Z0 => PrimFloat.zero
  | Zpos _ => PrimFloat.of_uint63 (Uint63.of_Z z)
  | Zneg p => PrimFloat.opp (PrimFloat.of_uint63 (Uint63.of_Z (Zpos p)))
  end.

#[global] Instance binary64 : Float64 PrimFloat.float := {|
  nan := PrimFloat.nan;
  of_Z := f64_of_Z;
  fadd := PrimFloat.add;
  fsub := PrimFloat.sub;
  fmul := PrimFloat.mul;
  fdiv := PrimFloat.div;
  fsqrt := PrimFloat.sqrt;
  flt := PrimFloat.ltb;
  fle := PrimFloat.leb;
  feq := PrimFloat.eqb;
  isnan := PrimFloat.is_nan
|}.

(** *** Instance 2: exact arithmetic with the NaN sentinel

    Finite values are real numbers and no operation rounds.  There are no
    infinities: the only division by zero the engine performs is the 0/0 of
    the mean of an empty array, which is NaN here as in binary64. *)

Inductive xreal : Type :=
| NaN
| Fin (r : R).

Definition xlift2 (op : R -> R -> R) (a b : xreal) : xreal :=
  match a, b with
  | Fin x, Fin y => Fin (op x y)
  | _, _ => NaN
  end.

Definition xdiv (a b : xreal) : xreal :=
  match a, b with
  | Fin x, Fin y => if Req_dec_T y 0 then NaN else Fin (x / y)
  | _, _ => NaN
  end.

Definition xsqrt (a : xreal) : xreal :=
  match a with
  | Fin x => if Rlt_dec x 0 then NaN else Fin (R_sqrt.sqrt x)
  | NaN => NaN
  end.

Definition xltb (a b : xreal) : bool :=
  match a, b with
  | Fin x, Fin y => if Rlt_dec x y then true else false
  | _, _ => false
  end.

Definition xleb (a b : xreal) : bool :=
  match a, b with
  | Fin x, Fin y => if Rle_dec x y then true else false
  | _, _ => false
  end.

Definition xeqb (a b : xreal) : bool :=
  match a, b with
  | Fin x, Fin y => if Req_dec_T x y then true else false
  | _, _ => false
  end.

Definition xisnan (a : xreal) : bool :=
  match a with
  | NaN => true
  | Fin _ => false
  end.

#[global] Instance exact_arith : Float64 xreal := {|
  nan := NaN;
  of_Z := fun z => Fin (IZR z);
  fadd := xlift2 Rplus;
  fsub := xlift2 Rminus;
  fmul := xlift2 Rmult;
  fdiv := xdiv;
  fsqrt := xsqrt;
  flt := xltb;
  fle := xleb;
  feq := xeqb;
  isnan := xisnan
|}.

(** ** The NumPy and pandas reductions the engine calls *)

Section NumPy.

Context {F : Type} `{Float64 F}.

Definition zero : F := of_Z 0.
Definition of_nat (n : nat) : F := of_Z (Z.of_nat n).
Definition of_bool (b : bool) : F := of_Z (if b then 1 else 0).
Definition notnan (a : F) : bool := negb (isnan a).

(** The float64 nearest to the decimal literal [m / 10^e] (how a literal
    such as 0.05 = [decimal 5 2] is read). *)
Definition decimal (m : Z) (e : nat) : F := fdiv (of_Z m) (of_Z (10 ^ Z.of_nat e)).

(** [np.sum]: the reduction starts from the identity 0 and accumulates from
    left to right.  That is the order NumPy uses below 8 elements; from 8
    on it adds in blocks and pairs, which regroups the same additions: the
    sum is the same in exact arithmetic and may differ in the last bits in
    binary64.  The binary64 evaluations below are of fewer than 8 values. *)
Definition np_sum (a : list F) : F := fold_left fadd a zero.

(** [np.mean] of an ndarray: sum over count; 0/0 = NaN on an empty array. *)
Definition np_mean (a : list F) : F := fdiv (np_sum a) (of_nat (length a)).

(** [np.std(a, ddof=ddof)]: the mean, the squared deviations, their sum over
    [max(n - ddof, 0)], the square root. *)
Definition np_std (ddof : nat) (a : list F) : F :=
  let arrmean := np_mean a in
  let x := map (fun v => fsub v arrmean) a in
  let x := map (fun v => fmul v v) x in
  fsqrt (fdiv (np_sum x) (of_nat (Nat.max (length a - ddof) 0))).

(** [np.diff] *)
Fixpoint np_diff (a : list F) : list F :=
  match a with
  | u :: (v :: _) as tl => fsub v u :: np_diff tl
  | _ => []
  end.

(** [np.minimum], [np.maximum] (a NaN operand wins) and [np.fmax] (a NaN
    operand loses). *)
Definition minimum (a b : F) : F := if isnan a || fle a b then a else b.
Definition maximum (a b : F) : F := if isnan a || fle b a then a else b.
Definition fmax (a b : F) : F := if isnan b || fle b a then a else b.

Definition zero_size (op : string) : exn :=
  ValueError ("zero-size array to reduction operation " ++ op
              ++ " which has no identity")%string.

Definition reduce (op : F -> F -> F) (name : string) (a : list F) : result F :=
  match a with
  | [] => Raise (zero_size name)
  | v :: a' => Ok (fold_left op a' v)
  end.

Definition np_min : list F -> result F := reduce minimum "minimum".
Definition np_max : list F -> result F := reduce maximum "maximum".
(** [np.nanmax]: [np.fmax.reduce]; an all-NaN array gives NaN (with a
    RuntimeWarning, which is not an exception). *)
Definition np_nanmax : list F -> result F := reduce fmax "fmax".

(** Ascending sort of float values (NaN-free inputs only are sorted here). *)
Fixpoint insert_sorted (v : F) (a : list F) : list F :=
  match a with
  | [] => [v]
  | w :: a' => if fle v w then v :: a else w :: insert_sorted v a'
  end.

Definition np_sort (a : list F) : list F := fold_right insert_sorted [] a.

(** [np.median]: NaN if a NaN is present or the array is empty; the middle
    element of the sorted array, or the mean of the two middle ones. *)
Definition np_median (a : list F) : F :=
  let n := length a in
  let s := np_sort a in
  if existsb isnan a then nan
  else if (n =? 0)%nat then nan
  else if Nat.odd n then nth (n / 2) s nan
  else np_mean [nth (n / 2 - 1) s nan; nth (n / 2) s nan].

(** [np.nanmedian]: the NaNs are removed first; NaN when nothing is left. *)
Definition np_nanmedian (a : list F) : F :=
  let kept := filter notnan a in
  if (length kept =? 0)%nat then nan else np_median kept.

(** [np.mean] of a pandas Series.  [np.mean(a)] calls [a.mean(axis=None,
    dtype=None, out=None)] whenever [a] is not an ndarray, so the columns of
    [sub] are reduced by [Series.mean], whose default [skipna=True] masks
    the NaNs, sums the rest (NaN positions filled with 0) and divides by the
    number of unmasked values; NaN when none. *)
Definition series_mean (s : list F) : F :=
  let values := map (fun v => if isnan v then zero else v) s in
  let count := length (filter notnan s) in
  if (0 <? count)%nat then fdiv (np_sum values) (of_nat count) else nan.

(** [Series.rank(method="average")]: a NaN keeps rank NaN; a value [v] with
    [lt] smaller values and [dups] values equal to it (itself included)
    occupies the positions [lt+1 .. lt+dups] and receives their sum divided
    by [dups]. *)
Definition count_lt (v : F) (a : list F) : nat :=
  length (filter (fun w => flt w v) a).
Definition count_eq (v : F) (a : list F) : nat :=
  length (filter (fun w => feq w v) a).

Definition rank_of (a : list F) (v : F) : F :=
  if isnan v then nan
  else
    let lt := Z.of_nat (count_lt v a) in
    let dups := Z.of_nat (count_eq v a) in
    let sum_ranks := (dups * lt + dups * (dups + 1) / 2)%Z in
    fdiv (of_Z sum_ranks) (of_Z dups).

Definition rank_average (a : list F) : list F := map (rank_of a) a.

(** Elementwise product of two arrays with NumPy broadcasting of a
    length-1 operand; any other length mismatch is a ValueError that names
    the two shapes. *)
Definition shape (n : nat) : string :=
  ("(" ++ DecimalString.NilEmpty.string_of_uint (Nat.to_uint n) ++ ",)")%string.

Definition multiply (x y : list F) : result (list F) :=
  if (length x =? length y)%nat then Ok (map (fun p => fmul (fst p) (snd p)) (combine x y))
  else match x, y with
       | [u], _ => Ok (map (fun v => fmul u v) y)
       | _, [v] => Ok (map (fun u => fmul u v) x)
       | _, _ =>
           Raise (ValueError ("operands could not be broadcast together with shapes "
                              ++ shape (length x) ++ " " ++ shape (length y) ++ " ")%string)
       end.

End NumPy.

(** ** DataFrame operations *)

Section Frames.

Context {A K : Type} (key_eqb key_ltb : K -> K -> bool) (key : A -> K).

(** The distinct keys in ascending order ([groupby(..., sort=True)]). *)
Fixpoint insert_key (k : K) (ks : list K) : list K :=
  match ks with
  | [] => [k]
  | k' :: ks' =>
      if key_eqb k k' then ks
      else if key_ltb k k' then k :: ks
      else k' :: insert_key k ks'
  end.

Definition group_keys (df : list A) : list K :=
  fold_right insert_key [] (map key df).

(** [df.groupby(key, sort=True)]: one group per distinct key, keys ascending,
    each group holding its rows in stored order. *)
Definition groupby (df : list A) : list (K * list A) :=
  map (fun k => (k, filter (fun r => key_eqb (key r) k) df)) (group_keys df).

End Frames.

(** [df.sort_values(col)] on an integer column: pandas computes the indexer
    [argsort] of the key column and takes the rows in that order.  The
    default kind is quicksort, which puts the keys in ascending order and
    promises nothing about the relative order of equal keys; which of the
    admissible indexers is returned depends on the key column only. *)
Class SortOrder : Type := {
  argsort : list Z -> list nat;
  argsort_perm : forall keys, Permutation (argsort keys) (seq 0 (length keys));
  argsort_sorted :
    forall keys, StronglySorted Z.le (map (fun i => nth i keys 0%Z) (argsort keys))
}.

Definition take {A : Type} (df : list A) (indexer : list nat) : list A :=
  flat_map (fun i => match nth_error df i with Some r => [r] | None => [] end) indexer.

Definition sort_values {SO : SortOrder} {A : Type} (col : A -> Z) (df : list A)
  : list A :=
  take df (argsort (map col df)).

(** One admissible indexer: insertion of the positions from the right, which
    leaves equal keys in stored order (what quicksort does on short
    columns).  It is the order the examples are run with. *)
Fixpoint insert_index (keys : list Z) (i : nat) (indexer : list nat) : list nat :=
  match indexer with
  | [] => [i]
  | j :: indexer' =>
      if (nth i keys 0 <=? nth j keys 0)%Z then i :: indexer
      else j :: insert_index keys i indexer'
  end.

Definition stable_argsort (keys : list Z) : list nat :=
  fold_right (insert_index keys) [] (seq 0 (length keys)).

(** The order [sort_values] establishes. *)
Definition ordered_by {A : Type} (col : A -> Z) (a b : A) : Prop :=
  (col a <= col b)%Z.

(** int64 arithmetic: the representative in [-2^63, 2^63) of an integer
    modulo 2^64. *)
Definition int64_wrap (z : Z) : Z := ((z + 2 ^ 63) mod 2 ^ 64 - 2 ^ 63)%Z.

(** [np.diff] of an int64 array: the differences are int64 too. *)
Fixpoint diffZ (t : list Z) : list Z :=
  match t with
  | u :: (v :: _) as tl => int64_wrap (v - u) :: diffZ tl
  | _ => []
  end.

(** [Series.min()] of a non-empty integer column. *)
Definition min_of (z : Z) (zs : list Z) : Z := fold_left Z.min zs z.

(** ** Data model *)

Record Sample (F : Type) : Type := mkSample {
  cell_id : string;
  cycle_index : Z;
  t_index : Z;
  operation_type : string;
  Current_measured : F;
  Voltage_measured : F;
  Temperature_measured : F;
  Capacity : F
}.
Arguments mkSample {F}.
Arguments cell_id {F}.
Arguments cycle_index {F}.
Arguments t_index {F}.
Arguments operation_type {F}.
Arguments Current_measured {F}.
Arguments Voltage_measured {F}.
Arguments Temperature_measured {F}.
Arguments Capacity {F}.

Record CycleStats (F : Type) : Type := mkCycleStats {
  cs_cell_id : string;
  cs_cycle_index : Z;
  n_samples : nat;
  i_mean_A : F;
  i_std_A : F;
  v_mono_frac : F;
  t_min_C : F;
  t_max_C : F;
  cap_max_Ah : F
}.
Arguments mkCycleStats {F}.
Arguments cs_cell_id {F}.
Arguments cs_cycle_index {F}.
Arguments n_samples {F}.
Arguments i_mean_A {F}.
Arguments i_std_A {F}.
Arguments v_mono_frac {F}.
Arguments t_min_C {F}.
Arguments t_max_C {F}.
Arguments cap_max_Ah {F}.

Record ImpedanceRow (F : Type) : Type := mkImpedanceRow {
  imp_cell_id : string;
  Re : F;
  Rct : F
}.
Arguments mkImpedanceRow {F}.
Arguments imp_cell_id {F}.
Arguments Re {F}.
Arguments Rct {F}.

Record ImpedanceCounts : Type := mkImpedanceCounts {
  impedance_rows : nat;
  re_nonpos_count : nat;
  rct_nonpos_count : nat
}.

Record CellSummary (F : Type) : Type := mkCellSummary {
  Cell : string;
  N_discharge_cycles : nat;
  I_mean_A : F;
  I_std_median_A : F;
  V_monotonic_frac_mean : F;
  Tmin_mean_C : F;
  Tmax_mean_C : F;
  capacity_cycle_monotonicity_indicator : F;
  TimeMonotonicityViolations_allCells : nat;
  Re_nonpos_allRows : nat;
  Rct_nonpos_allRows : nat;
  Impedance_rows : nat
}.
Arguments mkCellSummary {F}.
Arguments Cell {F}.
Arguments N_discharge_cycles {F}.
Arguments I_mean_A {F}.
Arguments I_std_median_A {F}.
Arguments V_monotonic_frac_mean {F}.
Arguments Tmin_mean_C {F}.
Arguments Tmax_mean_C {F}.
Arguments capacity_cycle_monotonicity_indicator {F}.
Arguments TimeMonotonicityViolations_allCells {F}.
Arguments Re_nonpos_allRows {F}.
Arguments Rct_nonpos_allRows {F}.
Arguments Impedance_rows {F}.

(** Keys of the two groupings. *)
Definition cycle_key : Type := (string * Z)%type.

Definition cycle_key_eqb (a b : cycle_key) : bool :=
  String.eqb (fst a) (fst b) && (snd a =? snd b)%Z.

Definition cycle_key_ltb (a b : cycle_key) : bool :=
  String.ltb (fst a) (fst b)
  || (String.eqb (fst a) (fst b) && (snd a <? snd b)%Z).

(** ** The engine *)

Section Engine.

Context {F : Type} `{Float64 F} {SO : SortOrder}.

Definition sample_key (s : Sample F) : cycle_key := (cell_id s, cycle_index s).

(** [meas_dis.groupby(["cell_id", "cycle_index"], sort=True)] *)
Definition partitions (meas_dis : list (Sample F)) : list (cycle_key * list (Sample F)) :=
  groupby cycle_key_eqb cycle_key_ltb sample_key meas_dis.

(** [meas[meas["operation_type"] == "discharge"]] (in [main]) *)
Definition select_discharge (meas : list (Sample F)) : list (Sample F) :=
  filter (fun s => String.eqb (operation_type s) "discharge") meas.

Definition spearman_corr (x y : list F) : result F :=
  let x := rank_average x in
  let y := rank_average y in
  if (length x <? 3)%nat then Ok nan
  else
    let x := map (fun v => fsub v (np_mean x)) x in
    let y := map (fun v => fsub v (np_mean y)) y in
    let denom :=
      fsqrt (fmul (np_sum (map (fun v => fmul v v) x))
                  (np_sum (map (fun v => fmul v v) y))) in
    if feq denom zero then Ok nan
    else xy <- multiply x y ;; Ok (fdiv (np_sum xy) denom).

Definition voltage_monotonic_fraction (v : list F) : F :=
  let dv := np_diff v in
  if (length dv =? 0)%nat then nan
  else np_mean (map (fun d => of_bool (flt d zero)) dv).

Definition pick_representative_discharge_cycle
    (meas_dis : list (Sample F)) (cell : string) : result (Z * list (Sample F)) :=
  let sub := filter (fun s => String.eqb (cell_id s) cell) meas_dis in
  match sub with
  | [] => Raise (ValueError ("No discharge samples for cell " ++ cell)%string)
  | s :: rest =>
      let cycle_idx := min_of (cycle_index s) (map cycle_index rest) in
      let cyc :=
        sort_values t_index (filter (fun r => (cycle_index r =? cycle_idx)%Z) sub) in
      Ok (cycle_idx, cyc)
  end.

(** The test of one partition: [np.any(np.diff(t) <= 0)] on the sorted
    time indices. *)
Definition sorted_t_index (df : list (Sample F)) : list Z :=
  map t_index (sort_values t_index df).

Definition has_time_violation (df : list (Sample F)) : bool :=
  existsb (fun d => (d <=? 0)%Z) (diffZ (sorted_t_index df)).

Definition time_monotonicity_violations (meas_dis : list (Sample F)) : nat :=
  fold_left
    (fun violations g => if has_time_violation (snd g) then S violations else violations)
    (partitions meas_dis) 0%nat.

Definition cycle_stats_row (g : cycle_key * list (Sample F)) : result (CycleStats F) :=
  let df := sort_values t_index (snd g) in
  let i := map Current_measured df in
  let v := map Voltage_measured df in
  let temp := map Temperature_measured df in
  let cap := map Capacity df in
  tmin <- np_min temp ;;
  tmax <- np_max temp ;;
  capmax <- np_nanmax cap ;;
  Ok {| cs_cell_id := fst (fst g);
        cs_cycle_index := snd (fst g);
        n_samples := length df;
        i_mean_A := np_mean i;
        i_std_A := if (1 <? length i)%nat then np_std 1 i else nan;
        v_mono_frac := voltage_monotonic_fraction v;
        t_min_C := tmin;
        t_max_C := tmax;
        cap_max_Ah := capmax |}.

Definition discharge_cycle_level_stats (meas_dis : list (Sample F))
  : result (list (CycleStats F)) :=
  mapM cycle_stats_row (partitions meas_dis).

(** The two counts are also what CHECK 6 of
    [sanity_check_parquet_physical_v1.py] prints, by the same expressions. *)
Definition impedance_positivity (imp : list (ImpedanceRow F)) : ImpedanceCounts :=
  let re_nonpos := length (filter (fun r => fle (Re r) zero) imp) in
  let rct_nonpos := length (filter (fun r => fle (Rct r) zero) imp) in
  {| impedance_rows := length imp;
     re_nonpos_count := re_nonpos;
     rct_nonpos_count := rct_nonpos |}.


Definition summary_row (time_viol : nat) (imp_pos : ImpedanceCounts)
    (g : string * list (CycleStats F)) : result (CellSummary F) :=
  let sub := sort_values cs_cycle_index (snd g) in
  let i_mean := series_mean (map i_mean_A sub) in
  let i_std_median := np_nanmedian (map i_std_A sub) in
  let v_mono_mean := series_mean (map v_mono_frac sub) in
  let tmin_mean := series_mean (map t_min_C sub) in
  let tmax_mean := series_mean (map t_max_C sub) in
  let n_cycles := length (nodup Z.eq_dec (map cs_cycle_index sub)) in
  corr <- spearman_corr (map (fun r => of_Z (cs_cycle_index r)) sub)
                        (map cap_max_Ah sub) ;;
  Ok {| Cell := fst g;
        N_discharge_cycles := n_cycles;
        I_mean_A := i_mean;
        I_std_median_A := i_std_median;
        V_monotonic_frac_mean := v_mono_mean;
        Tmin_mean_C := tmin_mean;
        Tmax_mean_C := tmax_mean;
        capacity_cycle_monotonicity_indicator := corr;
        TimeMonotonicityViolations_allCells := time_viol;
        Re_nonpos_allRows := re_nonpos_count imp_pos;
        Rct_nonpos_allRows := rct_nonpos_count imp_pos;
        Impedance_rows := impedance_rows imp_pos |}.

(** [cycle_stats] is the frame [discharge_cycle_level_stats] returns: with
    no row it has no column, and [groupby("cell_id")] raises the KeyError
    (after the two dataset-wide counters have been computed, which cannot
    fail). *)
Definition build_cell_summary_table (cycle_stats : list (CycleStats F))
    (meas_dis : list (Sample F)) (imp : list (ImpedanceRow F))
  : outcome (list (CellSummary F)) :=
  let time_viol := time_monotonicity_violations meas_dis in
  let imp_pos := impedance_positivity imp in
  match cycle_stats with
  | [] => Failed (KeyError "cell_id")
  | _ =>
      engine (mapM (summary_row time_viol imp_pos)
                   (groupby String.eqb String.ltb cs_cell_id cycle_stats))
  end.

End Engine.

(** ** Specification-side notions used in the statements *)

(** Steps of a sequence of time indices whose difference, computed in
    int64, is not positive; and steps that do not increase. *)
Fixpoint nonpositive_steps (t : list Z) : nat :=
  match t with
  | a :: (b :: _) as tl =>
      ((if (int64_wrap (b - a) <=? 0)%Z then 1 else 0) + nonpositive_steps tl)%nat
  | _ => 0%nat
  end.

Fixpoint nonincreasing_steps (t : list Z) : nat :=
  match t with
  | a :: (b :: _) as tl => ((if (b <=? a)%Z then 1 else 0) + nonincreasing_steps tl)%nat
  | _ => 0%nat
  end.

(** Sum of a list of reals. *)
Definition Rsum (l : list R) : R := fold_right Rplus 0%R l.

(** The finite members of a list of [xreal], in order. *)
Fixpoint finite_values (a : list xreal) : list R :=
  match a with
  | [] => []
  | NaN :: a' => finite_values a'
  | Fin r :: a' => r :: finite_values a'
  end.

(** Number of consecutive differences of an array that are strictly
    negative, and number of consecutive pairs whose second value is smaller
    than the first. *)
Definition negative_steps {F : Type} `{Float64 F} (v : list F) : nat :=
  length (filter (fun d => flt d zero) (np_diff v)).

Fixpoint drops {F : Type} `{Float64 F} (v : list F) : nat :=
  match v with
  | a :: (b :: _) as tl => ((if flt b a then 1 else 0) + drops tl)%nat
  | _ => 0%nat
  end.

(** The intermediate values of [spearman_corr]: the centred ranks of an
    array, and the denominator. *)
Definition centred_ranks {F : Type} `{Float64 F} (a : list F) : list F :=
  map (fun v => fsub v (np_mean (rank_average a))) (rank_average a).

Definition sum_squares {F : Type} `{Float64 F} (a : list F) : F :=
  np_sum (map (fun v => fmul v v) a).

Definition denominator {F : Type} `{Float64 F} (x y : list F) : F :=
  fsqrt (fmul (sum_squares (centred_ranks x)) (sum_squares (centred_ranks y))).

(** Ranks, centring and sums over the reals. *)
Definition count_ltR (v : R) (xs : list R) : nat :=
  length (filter (fun w => if Rlt_dec w v then true else false) xs).

Definition count_eqR (v : R) (xs : list R) : nat :=
  length (filter (fun w => if Req_dec_T w v then true else false) xs).

Definition rankR (xs : list R) (v : R) : R :=
  (INR (count_ltR v xs) + (INR (count_eqR v xs) + 1) / 2)%R.

Definition centreR (rs : list R) : list R :=
  map (fun r => r - Rsum rs / INR (length rs))%R rs.

Definition dotR (a b : list R) : R :=
  Rsum (map (fun p => fst p * snd p)%R (combine a b)).

(** Centred ranks of a NaN-free array, and the sum of their squares (n times
    the variance of the rank sequence). *)
Definition cranksR (xs : list R) : list R := centreR (map (rankR xs) xs).
Definition rank_ss (xs : list R) : R := dotR (cranksR xs) (cranksR xs).


(** ** The remaining computations of the two scripts *)

(** [df.drop_duplicates()] on a key column: the first occurrence of every
    key, in stored order. *)
Fixpoint drop_duplicates {K : Type} (key_eqb : K -> K -> bool) (ks : list K) : list K :=
  match ks with
  | [] => []
  | k :: ks' => k :: filter (fun k' => negb (key_eqb k' k)) (drop_duplicates key_eqb ks')
  end.

(** The compact record [main] exports as JSON (the three artifact paths,
    which only repeat the output directory, are left out). *)
Record GlobalEvidence : Type := mkGlobalEvidence {
  discharge_samples : nat;
  unique_discharge_cycles : nat;
  time_monotonicity_violations_allCells : nat;
  impedance : ImpedanceCounts;
  rep_cell : string;
  rep_cycle_index : Z;
  rep_cycle_samples : nat
}.

Section Scripts.

Context {F : Type} `{Float64 F} {SO : SortOrder}.

(** [meas_dis[['cell_id','cycle_index']].drop_duplicates().shape[0]] *)
Definition count_unique_cycles (meas_dis : list (Sample F)) : nat :=
  length (drop_duplicates cycle_key_eqb (map sample_key meas_dis)).

(** The curves [plot_capacity_fade_all_cells] draws: per entity, in
    ascending entity order, the (cycle index, maximum capacity) points in
    ascending cycle order.  Grouping the empty statistics table by
    "cell_id" is a KeyError, as in [build_cell_summary_table]. *)
Definition capacity_fade_curves (cycle_stats : list (CycleStats F))
  : outcome (list (string * list (Z * F))) :=
  match cycle_stats with
  | [] => Failed (KeyError "cell_id")
  | _ =>
      Done (map (fun g =>
                   (fst g,
                    map (fun r => (cs_cycle_index r, cap_max_Ah r))
                        (sort_values cs_cycle_index (snd g))))
                (groupby String.eqb String.ltb cs_cell_id cycle_stats))
  end.

(** [main] of [generate_section_iv_artifacts.py] on loaded tables: the
    summary table written as CSV and the record written as JSON.  The two
    figures are drawn between the steps shown; drawing the first one fails
    as [capacity_fade_curves] does. *)
Definition evidence_export (meas : list (Sample F)) (imp : list (ImpedanceRow F))
    (rep : string) : outcome (list (CellSummary F) * GlobalEvidence) :=
  let meas_dis := select_discharge meas in
  and_then (engine (discharge_cycle_level_stats meas_dis)) (fun cycle_stats =>
  and_then (capacity_fade_curves cycle_stats) (fun _ =>
  and_then (engine (pick_representative_discharge_cycle meas_dis rep)) (fun picked =>
  and_then (build_cell_summary_table cycle_stats meas_dis imp) (fun cell_summary =>
  Done (cell_summary,
        {| discharge_samples := length meas_dis;
           unique_discharge_cycles := count_unique_cycles meas_dis;
           time_monotonicity_violations_allCells := time_monotonicity_violations meas_dis;
           impedance := impedance_positivity imp;
           rep_cell := rep;
           rep_cycle_index := fst picked;
           rep_cycle_samples := length (snd picked) |}))))).

(** *** [sanity_check_parquet_physical_v1.py]

    Each check walks [dis.groupby(["cell_id", "cycle_index"])] (keys sorted
    by default) and collects one entry per partition that passes its size
    test. *)

(** CHECK 2: the partitions with a positive fraction of non-increasing
    steps, with that fraction. *)
Definition check_time_monotonicity (dis : list (Sample F)) : list (string * Z * F) :=
  flat_map
    (fun g =>
       let idx := sorted_t_index (snd g) in
       if (1 <? length idx)%nat then
         let frac_non_inc :=
           np_mean (map (fun d => of_bool (d <=? 0)%Z) (diffZ idx)) in
         if flt zero frac_non_inc
         then [(fst (fst g), snd (fst g), frac_non_inc)]
         else []
       else [])
    (partitions dis).

(** CHECK 3: mean and population standard deviation ([np.std], ddof = 0) of
    the current, in stored row order, for partitions of 20 samples or more. *)
Definition check_current_stability (dis : list (Sample F)) : list (string * Z * F * F) :=
  flat_map
    (fun g =>
       let cur := map Current_measured (snd g) in
       if (20 <=? length cur)%nat
       then [(fst (fst g), snd (fst g), np_mean cur, np_std 0 cur)]
       else [])
    (partitions dis).

(** CHECK 4: the fraction of negative voltage steps, for partitions of more
    than 2 samples. *)
Definition check_voltage_monotonicity (dis : list (Sample F)) : list (string * Z * F) :=
  flat_map
    (fun g =>
       let v := map Voltage_measured (sort_values t_index (snd g)) in
       if (2 <? length v)%nat
       then [(fst (fst g), snd (fst g),
              np_mean (map (fun d => of_bool (flt d zero)) (np_diff v)))]
       else [])
    (partitions dis).

(** CHECK 5: temperature range, in stored row order. *)
Definition check_temperature_range (dis : list (Sample F))
  : result (list (string * Z * F * F)) :=
  rows <- mapM
    (fun g =>
       let T := map Temperature_measured (snd g) in
       if (0 <? length T)%nat
       then tmin <- np_min T ;; tmax <- np_max T ;;
            Ok [(fst (fst g), snd (fst g), tmin, tmax)]
       else Ok [])
    (partitions dis) ;;
  Ok (concat rows).

End Scripts.

(** ** Notions used in the further properties *)

(** The key of a row of the per-cycle statistics table. *)
Definition stats_key {F : Type} (r : CycleStats F) : cycle_key :=
  (cs_cell_id r, cs_cycle_index r).

(** The samples of one (entity, cycle) pair, in stored order. *)
Definition partition_of {F : Type} (meas_dis : list (Sample F)) (k : cycle_key)
  : list (Sample F) :=
  filter (fun s => cycle_key_eqb (sample_key s) k) meas_dis.

(** Negation in exact arithmetic, and the number of members of a list
    above a value. *)
Definition xopp (a : xreal) : xreal :=
  match a with
  | NaN => NaN
  | Fin r => Fin (- r)
  end.

Definition count_gtR (v : R) (xs : list R) : nat :=
  length (filter (fun w => if Rlt_dec v w then true else false) xs).

(** Sum of squared deviations from the mean. *)
Definition sum_sq_dev (rs : list R) : R :=
  Rsum (map (fun r => (r - Rsum rs / INR (length rs))
                      * (r - Rsum rs / INR (length rs)))%R rs).

(** Numbers of members of a list that are at most, and at least, a value. *)
Definition count_leR (v : R) (xs : list R) : nat :=
  length (filter (fun w => if Rle_dec w v then true else false) xs).

Definition count_geR (v : R) (xs : list R) : nat :=
  length (filter (fun w => if Rle_dec v w then true else false) xs).

(** The middle value of an ascending sequence: its middle member, or the
    mean of its two middle members. *)
Definition middle_value (s : list R) : R :=
  if Nat.odd (length s) then nth (length s / 2) s 0%R
  else ((nth (length s / 2 - 1) s 0 + nth (length s / 2) s 0) / 2)%R.

(** The discharge cycle of the specification's worked example (entity
    B0029, time indices 0..3, voltages 4.2, 4.1, 4.05, 4.0), in binary64. *)
Definition b0029_cycle : list (Sample PrimFloat.float) :=
  [mkSample "B0029" 1 0 "discharge" (of_Z (-2)) (decimal 42 1) (of_Z 24) nan;
   mkSample "B0029" 1 1 "discharge" (of_Z (-2)) (decimal 41 1) (of_Z 24) nan;
   mkSample "B0029" 1 2 "discharge" (of_Z (-2)) (decimal 405 2) (of_Z 25) nan;
   mkSample "B0029" 1 3 "discharge" (of_Z (-2)) (decimal 40 1) (of_Z 25) (decimal 18 1)].

(** The B0029 cycle followed by a cycle of another entity whose three time
    indices increase by 2^63 or so at each step. *)
Definition int64_wide : list (Sample PrimFloat.float) :=
  b0029_cycle
  ++ [mkSample "B0030" 7 (- 2 ^ 63) "discharge" (of_Z (-2)) (decimal 42 1) (of_Z 24) nan;
      mkSample "B0030" 7 0 "discharge" (of_Z (-2)) (decimal 41 1) (of_Z 24) nan;
      mkSample "B0030" 7 (2 ^ 63 - 1) "discharge" (of_Z (-2)) (decimal 40 1) (of_Z 24) nan].

(** A partition of two samples whose time indices are the ends of the
    int64 range. *)
Definition int64_extremes : list (Sample PrimFloat.float) :=
  [mkSample "B0029" 1 (- 2 ^ 63) "discharge" (of_Z (-2)) (decimal 42 1) (of_Z 24) nan;
   mkSample "B0029" 1 (2 ^ 63 - 1) "discharge" (of_Z (-2)) (decimal 41 1) (of_Z 24) nan].

(** * Properties

    Everything below, up to the statements at concrete inputs, holds for
    every admissible order of [sort_values]. *)

Section AnyOrder.

Context {SO : SortOrder}.

(** ** Lists, sorting, grouping *)

Lemma mapM_In {A B : Type} (f : A -> result B) (l : list A) (bs : list B) (b : B) :
  mapM f l = Ok bs -> In b bs -> exists a, In a l /\ f a = Ok b.
Proof.
  revert bs. induction l as [|a l IH]; simpl; intros bs Hm Hin.
  - inversion Hm; subst. contradiction.
  - destruct (f a) as [b0|e] eqn:Ef; simpl in Hm; [|discriminate].
    destruct (mapM f l) as [bs0|e] eqn:Em; simpl in Hm; [|discriminate].
    inversion Hm; subst. destruct Hin as [->|Hin].
    + exists a. auto.
    + destruct (IH bs0 eq_refl Hin) as [a' [Ha' Hf]]. exists a'. auto.
Qed.

Lemma mapM_total {A B : Type} (f : A -> result B) (l : list A) :
  (forall a, In a l -> exists b, f a = Ok b) -> exists bs, mapM f l = Ok bs.
Proof.
  induction l as [|a l IH]; simpl; intros Hf.
  - eexists; reflexivity.
  - destruct (Hf a (or_introl eq_refl)) as [b Hb]. rewrite Hb. simpl.
    destruct IH as [bs Hbs]; [intros; apply Hf; auto|].
    rewrite Hbs. simpl. eexists; reflexivity.
Qed.

Lemma mapM_length {A B : Type} (f : A -> result B) (l : list A) (bs : list B) :
  mapM f l = Ok bs -> length bs = length l.
Proof.
  revert bs. induction l as [|a l IH]; simpl; intros bs Hm.
  - inversion Hm; reflexivity.
  - destruct (f a); simpl in Hm; [|discriminate].
    destruct (mapM f l); simpl in Hm; [|discriminate].
    inversion Hm; subst. simpl. f_equal. apply IH. reflexivity.
Qed.

Section SortFacts.

Context {A : Type} (col : A -> Z).

Local Abbreviation by_col := (ordered_by col).

Lemma take_seq (pre df : list A) :
  take (pre ++ df) (seq (length pre) (length df)) = df.
Proof.
  revert pre. induction df as [|r df IH]; intros pre; [reflexivity|].
  simpl seq. unfold take. simpl flat_map. fold (take (pre ++ r :: df)).
  rewrite nth_error_app2, Nat.sub_diag by lia. simpl. f_equal.
  specialize (IH (pre ++ [r])). rewrite <- app_assoc, length_app in IH. simpl in IH.
  rewrite Nat.add_1_r in IH. exact IH.
Qed.

Lemma take_map_nth (df : list A) (indexer : list nat) :
  Forall (fun i => (i < length df)%nat) indexer ->
  map col (take df indexer) = map (fun i => nth i (map col df) 0%Z) indexer.
Proof.
  induction 1 as [|i indexer Hi _ IH]; [reflexivity|].
  unfold take. simpl flat_map. fold (take df indexer).
  destruct (nth_error df i) as [r|] eqn:E.
  - simpl. rewrite IH. f_equal.
    rewrite (nth_error_nth _ _ _ (map_nth_error col _ _ E)). reflexivity.
  - apply nth_error_None in E. lia.
Qed.

Lemma argsort_in_range (keys : list Z) :
  Forall (fun i => (i < length keys)%nat) (argsort keys).
Proof.
  rewrite Forall_forall. intros i Hi.
  apply (Permutation_in _ (argsort_perm keys)) in Hi. apply in_seq in Hi. lia.
Qed.

Lemma sort_values_perm (df : list A) : Permutation df (sort_values col df).
Proof.
  unfold sort_values.
  rewrite <- (take_seq [] df) at 1. simpl app. simpl length.
  unfold take. apply Permutation_flat_map.
  rewrite <- (length_map col df). symmetry. apply argsort_perm.
Qed.

Lemma sort_values_length (df : list A) : length (sort_values col df) = length df.
Proof. symmetry. apply Permutation_length, sort_values_perm. Qed.

Lemma sorted_map_col (df : list A) :
  StronglySorted by_col df -> StronglySorted Z.le (map col df).
Proof.
  induction 1 as [|r df Hs IH Hall]; simpl; constructor; auto.
  rewrite Forall_map. exact Hall.
Qed.

Lemma sorted_of_map_col (df : list A) :
  StronglySorted Z.le (map col df) -> StronglySorted by_col df.
Proof.
  induction df as [|r df IH]; simpl; intros Hs; [constructor|].
  inversion Hs as [|? ? Hs' Hall]; subst. constructor; [apply IH; exact Hs'|].
  rewrite Forall_map in Hall. exact Hall.
Qed.

Lemma sort_values_sorted (df : list A) : StronglySorted by_col (sort_values col df).
Proof.
  apply sorted_of_map_col. unfold sort_values.
  rewrite take_map_nth.
  - apply argsort_sorted.
  - rewrite <- (length_map col df). apply argsort_in_range.
Qed.

End SortFacts.

Section GroupFacts.

Context {A K : Type} (key_eqb key_ltb : K -> K -> bool) (key : A -> K).
Hypothesis key_eqb_eq : forall a b, key_eqb a b = true <-> a = b.

Lemma insert_key_In (k k' : K) (ks : list K) :
  In k' (insert_key key_eqb key_ltb k ks) <-> k' = k \/ In k' ks.
Proof.
  induction ks as [|k0 ks IH]; simpl.
  - intuition.
  - destruct (key_eqb k k0) eqn:E.
    + apply key_eqb_eq in E. subst. simpl. intuition.
    + destruct (key_ltb k k0); simpl; [intuition|].
      rewrite IH. intuition.
Qed.

Lemma group_keys_In (df : list A) (k : K) :
  In k (group_keys key_eqb key_ltb key df) <-> In k (map key df).
Proof.
  unfold group_keys. induction df as [|r df IH]; simpl; [tauto|].
  rewrite insert_key_In, IH. intuition.
Qed.

Lemma groupby_In (df : list A) (k : K) (g : list A) :
  In (k, g) (groupby key_eqb key_ltb key df) ->
  g = filter (fun r => key_eqb (key r) k) df /\ In k (map key df).
Proof.
  unfold groupby. rewrite in_map_iff. intros [k0 [Heq Hin]].
  inversion Heq; subst. split; [reflexivity|].
  apply group_keys_In. exact Hin.
Qed.

Lemma groupby_nonempty (df : list A) (k : K) (g : list A) :
  In (k, g) (groupby key_eqb key_ltb key df) -> g <> [].
Proof.
  intros Hin. destruct (groupby_In _ _ _ Hin) as [-> Hk].
  apply in_map_iff in Hk. destruct Hk as [r [Hr Hin']].
  intros Hnil.
  assert (In r (filter (fun r => key_eqb (key r) k) df)) as Hf.
  { apply filter_In. split; [exact Hin'|]. apply key_eqb_eq. exact Hr. }
  rewrite Hnil in Hf. contradiction.
Qed.

Hypothesis key_ltb_irrefl : forall a, key_ltb a a = false.
Hypothesis key_ltb_trans :
  forall a b c, key_ltb a b = true -> key_ltb b c = true -> key_ltb a c = true.
Hypothesis key_ltb_total :
  forall a b, key_eqb a b = false -> key_ltb a b = false -> key_ltb b a = true.

Lemma insert_key_ascending (k : K) (ks : list K) :
  StronglySorted (fun a b => key_ltb a b = true) ks ->
  StronglySorted (fun a b => key_ltb a b = true) (insert_key key_eqb key_ltb k ks).
Proof.
  induction 1 as [|k0 ks Hs IH Hall]; simpl.
  - repeat constructor.
  - destruct (key_eqb k k0) eqn:E; [constructor; assumption|].
    destruct (key_ltb k k0) eqn:L.
    + constructor; [constructor; assumption|].
      constructor; [exact L|].
      eapply Forall_impl; [|exact Hall]. intros a Ha. simpl in Ha.
      eapply key_ltb_trans; eassumption.
    + constructor; [exact IH|].
      rewrite Forall_forall in *. intros a Ha. apply insert_key_In in Ha.
      destruct Ha as [->|Ha]; [apply key_ltb_total; assumption | apply Hall; exact Ha].
Qed.

Lemma group_keys_ascending (df : list A) :
  StronglySorted (fun a b => key_ltb a b = true) (group_keys key_eqb key_ltb key df).
Proof.
  unfold group_keys. induction (map key df) as [|k ks IH]; simpl.
  - constructor.
  - apply insert_key_ascending. exact IH.
Qed.

Lemma group_keys_NoDup (df : list A) : NoDup (group_keys key_eqb key_ltb key df).
Proof.
  pose proof (group_keys_ascending df) as Hs.
  induction Hs as [|k ks Hs IH Hall]; constructor; [|exact IH].
  intros Hin. rewrite Forall_forall in Hall. specialize (Hall k Hin).
  rewrite key_ltb_irrefl in Hall. discriminate.
Qed.

Lemma groupby_keys (df : list A) :
  map fst (groupby key_eqb key_ltb key df) = group_keys key_eqb key_ltb key df.
Proof. unfold groupby. rewrite map_map. simpl. apply map_id. Qed.

End GroupFacts.

Lemma cycle_key_eqb_eq (a b : cycle_key) : cycle_key_eqb a b = true <-> a = b.
Proof.
  destruct a as [c1 k1], b as [c2 k2]. unfold cycle_key_eqb. simpl.
  rewrite andb_true_iff, String.eqb_eq, Z.eqb_eq.
  split; [intros [-> ->]; reflexivity | intros Heq; inversion Heq; auto].
Qed.

Lemma string_ltb_lt (a b : string) :
  String.ltb a b = true <-> OrderedTypeEx.String_as_OT.lt a b.
Proof.
  unfold String.ltb. rewrite <- OrderedTypeEx.String_as_OT.cmp_lt.
  unfold OrderedTypeEx.String_as_OT.cmp.
  destruct (String.compare a b); split; congruence.
Qed.

Lemma string_ltb_irrefl (a : string) : String.ltb a a = false.
Proof.
  destruct (String.ltb a a) eqn:E; [|reflexivity].
  apply string_ltb_lt in E.
  exfalso. apply (OrderedTypeEx.String_as_OT.lt_not_eq _ _ E). reflexivity.
Qed.

Lemma string_ltb_trans (a b c : string) :
  String.ltb a b = true -> String.ltb b c = true -> String.ltb a c = true.
Proof.
  rewrite !string_ltb_lt. apply OrderedTypeEx.String_as_OT.lt_trans.
Qed.

Lemma string_ltb_total (a b : string) :
  String.eqb a b = false -> String.ltb a b = false -> String.ltb b a = true.
Proof.
  unfold String.ltb. intros He Hl.
  rewrite String.compare_antisym.
  destruct (String.compare a b) eqn:E; simpl; try reflexivity; try discriminate.
  apply String.compare_eq_iff in E. subst. rewrite String.eqb_refl in He. discriminate.
Qed.

Lemma cycle_key_ltb_irrefl (a : cycle_key) : cycle_key_ltb a a = false.
Proof.
  unfold cycle_key_ltb. rewrite string_ltb_irrefl, Z.ltb_irrefl, andb_false_r.
  reflexivity.
Qed.

Lemma cycle_key_ltb_trans (a b c : cycle_key) :
  cycle_key_ltb a b = true -> cycle_key_ltb b c = true -> cycle_key_ltb a c = true.
Proof.
  destruct a as [c1 k1], b as [c2 k2], c as [c3 k3]. unfold cycle_key_ltb. simpl.
  rewrite !orb_true_iff, !andb_true_iff, !String.eqb_eq, !Z.ltb_lt.
  intros [H1|[-> H1]] [H2|[-> H2]].
  - left. eapply string_ltb_trans; eassumption.
  - left. exact H1.
  - left. exact H2.
  - right. split; [reflexivity | lia].
Qed.

Lemma cycle_key_ltb_total (a b : cycle_key) :
  cycle_key_eqb a b = false -> cycle_key_ltb a b = false -> cycle_key_ltb b a = true.
Proof.
  destruct a as [c1 k1], b as [c2 k2]. unfold cycle_key_eqb, cycle_key_ltb. simpl.
  intros He Hl. apply orb_false_iff in Hl. destruct Hl as [Hl1 Hl2].
  destruct (String.eqb c1 c2) eqn:Ec.
  - apply String.eqb_eq in Ec. subst. rewrite String.eqb_refl, string_ltb_irrefl.
    simpl in *. apply Z.eqb_neq in He. apply Z.ltb_ge in Hl2. apply Z.ltb_lt. lia.
  - rewrite (string_ltb_total _ _ Ec Hl1). reflexivity.
Qed.

(** The partitions are keyed by the distinct (entity, cycle) pairs of the
    dataset, in ascending order, and each holds the samples of its key. *)
Lemma partitions_spec {F : Type} (meas_dis : list (Sample F)) :
  NoDup (map fst (partitions meas_dis))
  /\ StronglySorted (fun a b => cycle_key_ltb a b = true) (map fst (partitions meas_dis))
  /\ (forall k, In k (map fst (partitions meas_dis)) <->
                exists s, In s meas_dis /\ sample_key s = k)
  /\ (forall k g, In (k, g) (partitions meas_dis) ->
        g <> [] /\ forall s, In s g <-> In s meas_dis /\ sample_key s = k).
Proof.
  unfold partitions. rewrite groupby_keys.
  split; [|split; [|split]].
  - apply group_keys_NoDup;
      [apply cycle_key_eqb_eq | apply cycle_key_ltb_irrefl
       | apply cycle_key_ltb_trans | apply cycle_key_ltb_total].
  - apply group_keys_ascending;
      [apply cycle_key_eqb_eq | apply cycle_key_ltb_trans | apply cycle_key_ltb_total].
  - intros k. rewrite group_keys_In by apply cycle_key_eqb_eq.
    rewrite in_map_iff. split; intros [s [H1 H2]]; exists s; tauto.
  - intros k g Hin. split.
    + eapply groupby_nonempty; [apply cycle_key_eqb_eq | exact Hin].
    + apply groupby_In in Hin; [|apply cycle_key_eqb_eq]. destruct Hin as [-> _].
      intros s. rewrite filter_In, cycle_key_eqb_eq. tauto.
Qed.

(** Every partition produced by the grouping is non-empty. *)
Lemma partitions_nonempty {F : Type} (meas_dis : list (Sample F)) k g :
  In (k, g) (partitions meas_dis) -> g <> [].
Proof. apply groupby_nonempty, cycle_key_eqb_eq. Qed.

(** ** Time monotonicity (C3, C9) *)

Lemma violations_fold {F : Type} (gs : list (cycle_key * list (Sample F))) (n : nat) :
  fold_left
    (fun violations g => if has_time_violation (snd g) then S violations else violations)
    gs n
  = (n + length (filter (fun g => has_time_violation (snd g)) gs))%nat.
Proof.
  revert n. induction gs as [|g gs IH]; simpl; intros n; [lia|].
  rewrite IH. destruct (has_time_violation (snd g)); simpl; lia.
Qed.

Lemma filter_length_sum {A : Type} (f : A -> bool) (l : list A) :
  length (filter f l) = list_sum (map (fun a => if f a then 1%nat else 0%nat) l).
Proof.
  induction l as [|a l IH]; simpl; [reflexivity|].
  destruct (f a); simpl; rewrite IH; reflexivity.
Qed.

(** The count, key by key. *)
Lemma violations_by_key {F : Type} (meas : list (Sample F)) :
  time_monotonicity_violations meas
  = list_sum (map (fun k => if has_time_violation (partition_of meas k) then 1 else 0)
                  (map fst (partitions meas))).
Proof.
  unfold time_monotonicity_violations. rewrite violations_fold. simpl.
  rewrite filter_length_sum, map_map. f_equal.
  unfold partitions, groupby. rewrite !map_map. reflexivity.
Qed.

(** [np.any(np.diff(t) <= 0)] holds when a step of [t] is not positive in
    int64. *)
Lemma existsb_diffZ_steps (ts : list Z) :
  existsb (fun d => (d <=? 0)%Z) (diffZ ts) = (0 <? nonpositive_steps ts)%nat.
Proof.
  destruct ts as [|a ts]; [reflexivity|].
  revert a. induction ts as [|b ts IH]; intros a; [reflexivity|].
  change (diffZ (a :: b :: ts)) with (int64_wrap (b - a) :: diffZ (b :: ts)).
  change (nonpositive_steps (a :: b :: ts))
    with ((if (int64_wrap (b - a) <=? 0)%Z then 1 else 0) + nonpositive_steps (b :: ts))%nat.
  cbn [existsb]. rewrite IH.
  destruct (int64_wrap (b - a) <=? 0)%Z; reflexivity.
Qed.

Lemma has_time_violation_steps {F : Type} (df : list (Sample F)) :
  has_time_violation df = (0 <? nonpositive_steps (sorted_t_index df))%nat.
Proof. apply existsb_diffZ_steps. Qed.

Lemma int64_wrap_small (z : Z) : (- 2 ^ 63 <= z < 2 ^ 63)%Z -> int64_wrap z = z.
Proof.
  unfold int64_wrap. change (2 ^ 64)%Z with (2 * 2 ^ 63)%Z.
  generalize (2 ^ 63)%Z. intros m Hz. rewrite Z.mod_small by lia. lia.
Qed.

(** The ascending arrangement of a bag of integers is unique. *)
Lemma sorted_Z_unique (l1 l2 : list Z) :
  StronglySorted Z.le l1 -> StronglySorted Z.le l2 -> Permutation l1 l2 -> l1 = l2.
Proof.
  intros Hs1. revert l2. induction Hs1 as [|a l1 Hs1 IH Ha]; intros l2 Hs2 Hp.
  - apply Permutation_nil in Hp. subst. reflexivity.
  - destruct Hs2 as [|b l2 Hs2 Hb].
    + apply Permutation_sym, Permutation_nil in Hp. discriminate.
    + rewrite Forall_forall in Ha, Hb.
      assert (a = b) as ->.
      { assert (In a (b :: l2)) as H1
          by (eapply Permutation_in; [exact Hp | left; reflexivity]).
        assert (In b (a :: l1)) as H2
          by (eapply Permutation_in; [symmetry; exact Hp | left; reflexivity]).
        destruct H1 as [E|H1]; [congruence|]. destruct H2 as [E|H2]; [congruence|].
        specialize (Ha _ H2). specialize (Hb _ H1). lia. }
      f_equal. apply IH; [exact Hs2|]. eapply Permutation_cons_inv. exact Hp.
Qed.

Lemma sorted_t_index_spec {F : Type} (df : list (Sample F)) :
  Permutation (sorted_t_index df) (map t_index df)
  /\ StronglySorted Z.le (sorted_t_index df).
Proof.
  unfold sorted_t_index. split.
  - apply Permutation_map. symmetry. apply sort_values_perm.
  - apply sorted_map_col, sort_values_sorted.
Qed.

Lemma sorted_t_index_unique {F : Type} (df : list (Sample F)) (ts : list Z) :
  Permutation ts (map t_index df) -> StronglySorted Z.le ts -> sorted_t_index df = ts.
Proof.
  intros Hp Hs. destruct (sorted_t_index_spec df) as [Hp' Hs'].
  apply sorted_Z_unique; [exact Hs' | exact Hs|].
  etransitivity; [exact Hp' | symmetry; exact Hp].
Qed.

Lemma sorted_t_index_perm {F : Type} (df df' : list (Sample F)) :
  Permutation df df' -> sorted_t_index df' = sorted_t_index df.
Proof.
  intros Hp. destruct (sorted_t_index_spec df) as [Hp' Hs'].
  apply sorted_t_index_unique; [|exact Hs'].
  etransitivity; [exact Hp' | apply Permutation_map; exact Hp].
Qed.

Lemma has_time_violation_perm {F : Type} (df df' : list (Sample F)) :
  Permutation df df' -> has_time_violation df' = has_time_violation df.
Proof.
  intros Hp. unfold has_time_violation. rewrite (sorted_t_index_perm df df' Hp).
  reflexivity.
Qed.

(** On an ascending sequence a step that does not increase is a repeated
    value, and it is a non-positive step in int64 as well; when the values
    span less than 2^63 the int64 differences are the true ones. *)
Lemma steps_le (ts : list Z) :
  StronglySorted Z.le ts -> (nonincreasing_steps ts <= nonpositive_steps ts)%nat.
Proof.
  induction 1 as [|a ts Hs IH Hall]; [simpl; lia|].
  destruct ts as [|b ts]; [simpl; lia|].
  change (nonincreasing_steps (a :: b :: ts))
    with ((if (b <=? a)%Z then 1 else 0) + nonincreasing_steps (b :: ts))%nat.
  change (nonpositive_steps (a :: b :: ts))
    with ((if (int64_wrap (b - a) <=? 0)%Z then 1 else 0) + nonpositive_steps (b :: ts))%nat.
  pose proof (Forall_inv Hall) as Hab.
  destruct (b <=? a)%Z eqn:E;
    [|destruct (int64_wrap (b - a) <=? 0)%Z; cbv iota; lia].
  apply Z.leb_le in E. assert (a = b) as -> by lia.
  rewrite Z.sub_diag. change (int64_wrap 0 <=? 0)%Z with true. cbv iota. lia.
Qed.

Lemma steps_in_range (ts : list Z) :
  StronglySorted Z.le ts ->
  (forall a b, In a ts -> In b ts -> (b - a < 2 ^ 63)%Z) ->
  nonpositive_steps ts = nonincreasing_steps ts.
Proof.
  induction 1 as [|a ts Hs IH Hall]; intros Hspan; [reflexivity|].
  destruct ts as [|b ts]; [reflexivity|].
  change (nonincreasing_steps (a :: b :: ts))
    with ((if (b <=? a)%Z then 1 else 0) + nonincreasing_steps (b :: ts))%nat.
  change (nonpositive_steps (a :: b :: ts))
    with ((if (int64_wrap (b - a) <=? 0)%Z then 1 else 0) + nonpositive_steps (b :: ts))%nat.
  pose proof (Forall_inv Hall) as Hab.
  pose proof (Hspan a b (or_introl eq_refl) (or_intror (or_introl eq_refl))) as Hba.
  assert (0 < 2 ^ 63)%Z as Hpos by reflexivity.
  rewrite int64_wrap_small by lia.
  rewrite IH by (intros x y Hx Hy; apply Hspan; right; assumption).
  f_equal. destruct (b - a <=? 0)%Z eqn:E1, (b <=? a)%Z eqn:E2; try reflexivity;
    rewrite ?Z.leb_le, ?Z.leb_gt in *; lia.
Qed.

Lemma sorted_nonincreasing_iff_dup (ts : list Z) :
  StronglySorted Z.le ts -> (0 < nonincreasing_steps ts)%nat <-> ~ NoDup ts.
Proof.
  induction 1 as [|a ts Hs IH Hall].
  - simpl. split; [lia | intros Hn; exfalso; apply Hn; constructor].
  - destruct ts as [|b ts].
    + simpl. split; [lia|].
      intros Hn; exfalso; apply Hn; repeat constructor. intros [].
    + change (nonincreasing_steps (a :: b :: ts))
        with ((if (b <=? a)%Z then 1 else 0) + nonincreasing_steps (b :: ts))%nat.
      pose proof (Forall_inv Hall) as Hab.
      split.
      * intros Hpos Hnodup. destruct (b <=? a)%Z eqn:E.
        -- apply Z.leb_le in E. assert (a = b) by lia. subst. inversion Hnodup; subst.
           match goal with Hn : ~ In _ _ |- _ => apply Hn; left; reflexivity end.
        -- cbv iota in Hpos. apply (proj1 IH); [lia|]. inversion Hnodup; assumption.
      * intros Hn. destruct (b <=? a)%Z eqn:E; [cbv iota; lia|]. apply Z.leb_gt in E.
        cbv iota. rewrite Nat.add_0_l. apply (proj2 IH). intros Hnd. apply Hn. constructor; [|exact Hnd].
        intros Hin. inversion Hs; subst.
        assert (b <= a)%Z.
        { destruct Hin as [->|Hin]; [lia|].
          match goal with Hf : Forall (Z.le b) ts |- _ =>
            rewrite Forall_forall in Hf; apply Hf; exact Hin end. }
        lia.
Qed.

(** A partition that is not counted has pairwise distinct time indices. *)
Lemma has_time_violation_NoDup {F : Type} (df : list (Sample F)) :
  has_time_violation df = false -> NoDup (map t_index df).
Proof.
  intros Hf. destruct (sorted_t_index_spec df) as [Hp Hs].
  destruct (ListDec.NoDup_dec Z.eq_dec (map t_index df)) as [Hd|Hd]; [exact Hd|].
  exfalso. rewrite has_time_violation_steps in Hf. apply Nat.ltb_ge in Hf.
  pose proof (steps_le _ Hs) as Hle.
  assert (0 < nonincreasing_steps (sorted_t_index df))%nat; [|lia].
  apply sorted_nonincreasing_iff_dup; [exact Hs|].
  intros Hnd. apply Hd. eapply Permutation_NoDup; [exact Hp | exact Hnd].
Qed.

(** With time indices spanning less than 2^63 the converse holds. *)
Lemma has_time_violation_iff_dup {F : Type} (df : list (Sample F)) :
  (forall s s', In s df -> In s' df -> (t_index s' - t_index s < 2 ^ 63)%Z) ->
  has_time_violation df = true <-> ~ NoDup (map t_index df).
Proof.
  intros Hspan. destruct (sorted_t_index_spec df) as [Hp Hs].
  rewrite has_time_violation_steps, Nat.ltb_lt, steps_in_range,
    sorted_nonincreasing_iff_dup; try exact Hs.
  - split; intros Hn Hnd; apply Hn.
    + eapply Permutation_NoDup; [symmetry; exact Hp | exact Hnd].
    + eapply Permutation_NoDup; [exact Hp | exact Hnd].
  - intros a b Ha Hb.
    apply (Permutation_in _ Hp) in Ha. apply (Permutation_in _ Hp) in Hb.
    apply in_map_iff in Ha. destruct Ha as [s [<- Ha]].
    apply in_map_iff in Hb. destruct Hb as [s' [<- Hb]].
    apply Hspan; assumption.
Qed.

(** C3 (amended). The reported count is a count of partitions.  The
    partitions are keyed by the distinct (entity, cycle) pairs that occur
    among the samples; the count is the sum over these keys of a
    contribution that is 1 when the time indices of the key's samples, put
    in ascending order, have one or more steps whose difference as int64
    subtraction computes it is not positive, and 0 when they have none: one
    violating step or many count the same, and the count never exceeds the
    number of partitions.  When the indices of a partition span less than
    2^63 the int64 differences are the true ones, and the violating steps
    are the steps that do not increase. *)
Theorem C3_time_violations_partition_level :
  forall (F : Type) (meas_dis : list (Sample F)),
  exists (keys : list cycle_key) (counted : cycle_key -> nat),
    NoDup keys
    /\ (forall k, In k keys <-> exists s, In s meas_dis /\ sample_key s = k)
    /\ time_monotonicity_violations meas_dis = list_sum (map counted keys)
    /\ (time_monotonicity_violations meas_dis <= length keys)%nat
    /\ forall k, In k keys ->
         exists ts,
           Permutation ts (map t_index (partition_of meas_dis k))
           /\ StronglySorted Z.le ts
           /\ ((1 <= nonpositive_steps ts)%nat /\ counted k = 1%nat
               \/ nonpositive_steps ts = 0%nat /\ counted k = 0%nat)
           /\ ((forall a b, In a ts -> In b ts -> (b - a < 2 ^ 63)%Z) ->
               nonpositive_steps ts = nonincreasing_steps ts).
Proof.
  intros F meas_dis.
  destruct (partitions_spec meas_dis) as [Hnd [_ [Hkeys _]]].
  exists (map fst (partitions meas_dis)),
         (fun k => if has_time_violation (partition_of meas_dis k) then 1%nat else 0%nat).
  split; [exact Hnd|]. split; [exact Hkeys|]. split; [apply violations_by_key|].
  split.
  - unfold time_monotonicity_violations. rewrite violations_fold, length_map. simpl.
    apply filter_length_le.
  - intros k _. exists (sorted_t_index (partition_of meas_dis k)).
    destruct (sorted_t_index_spec (partition_of meas_dis k)) as [Hp Hs].
    split; [exact Hp|]. split; [exact Hs|]. split.
    + rewrite has_time_violation_steps.
      destruct (0 <? nonpositive_steps (sorted_t_index (partition_of meas_dis k)))%nat eqn:E.
      * apply Nat.ltb_lt in E. left. split; [lia | reflexivity].
      * apply Nat.ltb_ge in E. right. split; [lia | reflexivity].
    + apply steps_in_range. exact Hs.
Qed.

Lemma not_NoDup_positions (ts : list Z) :
  ~ NoDup ts <->
  exists i j, (i < j < length ts)%nat /\ nth i ts 0%Z = nth j ts 0%Z.
Proof.
  split.
  - induction ts as [|a ts IH]; intros Hn.
    + exfalso; apply Hn; constructor.
    + destruct (in_dec Z.eq_dec a ts) as [Hin|Hnin].
      * destruct (In_nth _ _ 0%Z Hin) as [j [Hj Hnth]].
        exists 0%nat, (S j). simpl. split; [lia | symmetry; exact Hnth].
      * destruct IH as [i [j [Hij Heq]]].
        { intros Hnd. apply Hn. constructor; assumption. }
        exists (S i), (S j). simpl. split; [lia | exact Heq].
  - intros [i [j [Hij Heq]]] Hnd.
    rewrite (NoDup_nth ts 0%Z) in Hnd.
    assert (i = j) by (apply Hnd; [lia | lia | exact Heq]). lia.
Qed.

(** A dataset whose samples share one key is one partition. *)
Lemma single_partition {F : Type} (s : Sample F) (df : list (Sample F)) :
  (forall s', In s' df -> sample_key s' = sample_key s) ->
  partitions (s :: df) = [(sample_key s, s :: df)].
Proof.
  intros Hkey. unfold partitions, groupby.
  pose proof (proj2 (cycle_key_eqb_eq (sample_key s) (sample_key s)) eq_refl) as Hrefl.
  assert (group_keys cycle_key_eqb cycle_key_ltb sample_key (s :: df) = [sample_key s])
    as ->.
  { unfold group_keys. cbn [map fold_right].
    induction df as [|s' df IH]; [reflexivity|].
    cbn [map fold_right]. rewrite (Hkey s' (or_introl eq_refl)).
    rewrite IH by (intros; apply Hkey; right; assumption).
    cbn [insert_key]. rewrite Hrefl. reflexivity. }
  cbn [map filter]. rewrite Hrefl. do 3 f_equal.
  induction df as [|s' df IH]; [reflexivity|].
  cbn [filter]. rewrite (Hkey s' (or_introl eq_refl)), Hrefl. f_equal.
  apply IH. intros; apply Hkey; right; assumption.
Qed.

(** C9. A partition in which two samples (at distinct rows) carry the same
    time index is counted, and the stored order of the rows plays no role.
    When the time indices of the partition span less than 2^63 (so that the
    int64 differences of the sorted indices cannot wrap around) the converse
    holds: the partition is counted exactly when two of its samples carry
    the same time index, so a partition stored in any order, strictly
    decreasing included, whose time indices are pairwise distinct is not
    counted; the count of a dataset that consists of this one partition is
    accordingly 1 or 0. *)
Theorem C9_violation_iff_duplicate_time_index :
  forall (F : Type) (df : list (Sample F)),
    (~ NoDup (map t_index df) -> has_time_violation df = true)
    /\ (forall df', Permutation df df' ->
          has_time_violation df' = has_time_violation df)
    /\ ((forall s s', In s df -> In s' df -> (t_index s' - t_index s < 2 ^ 63)%Z) ->
        (has_time_violation df = true <->
         exists i j, (i < j < length df)%nat /\
                     nth i (map t_index df) 0%Z = nth j (map t_index df) 0%Z)
        /\ (has_time_violation df = false <-> NoDup (map t_index df))
        /\ (df <> [] ->
            (forall s s', In s df -> In s' df -> sample_key s' = sample_key s) ->
            (time_monotonicity_violations df = 1%nat <-> ~ NoDup (map t_index df))
            /\ (time_monotonicity_violations df = 0%nat <-> NoDup (map t_index df)))).
Proof.
  intros F df.
  split; [|split].
  - intros Hd. apply Bool.not_false_is_true. intros E.
    apply Hd. apply has_time_violation_NoDup. exact E.
  - intros df' Hp. apply has_time_violation_perm. exact Hp.
  - intros Hspan.
    pose proof (has_time_violation_iff_dup df Hspan) as Hiff.
    assert (has_time_violation df = false <-> NoDup (map t_index df)) as Hno.
    { split; [apply has_time_violation_NoDup|].
      intros Hd. apply Bool.not_true_is_false. intros E. apply Hiff in E. contradiction. }
    split; [|split; [exact Hno|]].
    + rewrite Hiff, not_NoDup_positions. rewrite length_map. reflexivity.
    + intros Hne Hkey. destruct df as [|s df]; [congruence|].
      unfold time_monotonicity_violations.
      rewrite single_partition
        by (intros s' Hs'; apply Hkey; [left; reflexivity | right; exact Hs']).
      simpl. destruct (has_time_violation (s :: df)) eqn:E.
      * split; [split; [intros _; apply Hiff; reflexivity | reflexivity]|].
        split; [discriminate|]. intros Hd. apply Hno in Hd. discriminate.
      * split; [split; [discriminate|]
                |split; [intros _; apply Hno; reflexivity | reflexivity]].
        intros Hd. apply Hiff in Hd. discriminate.
Qed.

(** ** Impedance positivity (C6) *)

Ltac xcmp :=
  repeat match goal with
         | |- context [Rle_dec ?a ?b] => destruct (Rle_dec a b); try lra
         | |- context [Rlt_dec ?a ?b] => destruct (Rlt_dec a b); try lra
         | |- context [Req_dec_T ?a ?b] => destruct (Req_dec_T a b); try lra
         end.

(** Evaluation of a closed expression of the exact instance. *)
Ltac xeval :=
  repeat (progress (simpl; unfold xleb, xltb, xeqb, xdiv, xsqrt, xlift2, xisnan; xcmp)).

(** C6. The two counters are computed over the whole impedance table and
    independently of one another: the empty table gives 0 and 0, and a row
    placed anywhere in the table adds 1 to the Re counter exactly when its
    Re <= 0 and 1 to the Rct counter exactly when its Rct <= 0 (so a row
    failing both adds to both).  Re = [0.05, -0.01, 0.03] gives an Re count
    of 1, in exact arithmetic and in binary64. *)
Theorem C6_impedance_counters :
  (forall (F : Type) (FL : Float64 F) (imp1 imp2 : list (ImpedanceRow F))
          (r : ImpedanceRow F),
      re_nonpos_count (impedance_positivity (imp1 ++ r :: imp2))
      = (re_nonpos_count (impedance_positivity (imp1 ++ imp2))
         + (if fle (Re r) zero then 1 else 0))%nat
      /\ rct_nonpos_count (impedance_positivity (imp1 ++ r :: imp2))
         = (rct_nonpos_count (impedance_positivity (imp1 ++ imp2))
            + (if fle (Rct r) zero then 1 else 0))%nat
      /\ impedance_rows (impedance_positivity (imp1 ++ r :: imp2))
         = S (impedance_rows (impedance_positivity (imp1 ++ imp2))))
  /\ (forall (F : Type) (FL : Float64 F),
         impedance_positivity (@nil (ImpedanceRow F)) = mkImpedanceCounts 0 0 0)
  /\ (forall (c1 c2 c3 : string) (x1 x2 x3 : xreal),
         re_nonpos_count
           (impedance_positivity
              [mkImpedanceRow c1 (decimal 5 2) x1;
               mkImpedanceRow c2 (decimal (-1) 2) x2;
               mkImpedanceRow c3 (decimal 3 2) x3]) = 1%nat)
  /\ (forall (c1 c2 c3 : string) (x1 x2 x3 : PrimFloat.float),
         re_nonpos_count
           (impedance_positivity
              [mkImpedanceRow c1 (decimal 5 2) x1;
               mkImpedanceRow c2 (decimal (-1) 2) x2;
               mkImpedanceRow c3 (decimal 3 2) x3]) = 1%nat).
Proof.
  split; [|split; [|split]].
  - intros F FL imp1 imp2 r. unfold impedance_positivity. simpl.
    rewrite !filter_app, !length_app. simpl.
    destruct (fle (Re r) zero), (fle (Rct r) zero); simpl; lia.
  - reflexivity.
  - intros. unfold impedance_positivity, zero, decimal. xeval. reflexivity.
  - intros. vm_compute. reflexivity.
Qed.

(** ** The rank correlation never raises on arrays of equal length *)

Lemma rank_average_length {F : Type} `{Float64 F} (a : list F) :
  length (rank_average a) = length a.
Proof. apply length_map. Qed.

Lemma multiply_same_length {F : Type} `{Float64 F} (x y : list F) :
  length x = length y ->
  multiply x y = Ok (map (fun p => fmul (fst p) (snd p)) (combine x y)).
Proof. intros Hl. unfold multiply. rewrite Hl, Nat.eqb_refl. reflexivity. Qed.

Lemma spearman_corr_total {F : Type} `{Float64 F} (x y : list F) :
  length x = length y -> exists v, spearman_corr x y = Ok v.
Proof.
  intros Hl. unfold spearman_corr.
  destruct (length (rank_average x) <? 3)%nat; [eexists; reflexivity|].
  match goal with |- context [if ?c then _ else _] => destruct c end;
    [eexists; reflexivity|].
  rewrite multiply_same_length
    by (unfold rank_average; rewrite !length_map; exact Hl).
  simpl. eexists; reflexivity.
Qed.

Lemma summary_row_total {F : Type} `{Float64 F} tv ip (g : string * list (CycleStats F)) :
  exists row, summary_row tv ip g = Ok row.
Proof.
  unfold summary_row.
  destruct (spearman_corr_total
              (map (fun r => of_Z (cs_cycle_index r)) (sort_values cs_cycle_index (snd g)))
              (map cap_max_Ah (sort_values cs_cycle_index (snd g)))) as [v Hv].
  { rewrite !length_map. reflexivity. }
  rewrite Hv. simpl. eexists; reflexivity.
Qed.

(** The summary table on a per-cycle table that has a record. *)
Lemma build_cell_summary_table_rows {F : Type} `{Float64 F}
    (cycle_stats : list (CycleStats F)) meas_dis imp :
  cycle_stats <> [] ->
  build_cell_summary_table cycle_stats meas_dis imp
  = engine (mapM (summary_row (time_monotonicity_violations meas_dis)
                              (impedance_positivity imp))
                 (groupby String.eqb String.ltb cs_cell_id cycle_stats)).
Proof. destruct cycle_stats; [congruence | reflexivity]. Qed.

Lemma build_cell_summary_table_Done {F : Type} `{Float64 F}
    (cycle_stats : list (CycleStats F)) meas_dis imp rows :
  build_cell_summary_table cycle_stats meas_dis imp = Done rows ->
  cycle_stats <> []
  /\ mapM (summary_row (time_monotonicity_violations meas_dis)
                       (impedance_positivity imp))
          (groupby String.eqb String.ltb cs_cell_id cycle_stats) = Ok rows.
Proof.
  destruct cycle_stats as [|r cycle_stats]; [discriminate|].
  rewrite build_cell_summary_table_rows by discriminate.
  destruct (mapM _ _) as [rows'|e]; simpl; [|discriminate].
  intros E. inversion E. split; [discriminate | reflexivity].
Qed.

Lemma build_cell_summary_table_total {F : Type} `{Float64 F}
    (cycle_stats : list (CycleStats F)) meas_dis imp :
  cycle_stats <> [] ->
  exists rows, build_cell_summary_table cycle_stats meas_dis imp = Done rows.
Proof.
  intros Hne. rewrite build_cell_summary_table_rows by exact Hne.
  destruct (mapM_total (summary_row (time_monotonicity_violations meas_dis)
                                    (impedance_positivity imp))
              (groupby String.eqb String.ltb cs_cell_id cycle_stats)) as [rows Hrows].
  { intros g _. apply summary_row_total. }
  rewrite Hrows. eexists; reflexivity.
Qed.

Lemma summary_row_inv {F : Type} `{Float64 F} tv ip (g : string * list (CycleStats F)) row :
  summary_row tv ip g = Ok row ->
  let sub := sort_values cs_cycle_index (snd g) in
  Cell row = fst g
  /\ I_mean_A row = series_mean (map i_mean_A sub)
  /\ I_std_median_A row = np_nanmedian (map i_std_A sub)
  /\ V_monotonic_frac_mean row = series_mean (map v_mono_frac sub)
  /\ Tmin_mean_C row = series_mean (map t_min_C sub)
  /\ Tmax_mean_C row = series_mean (map t_max_C sub)
  /\ spearman_corr (map (fun r => of_Z (cs_cycle_index r)) sub) (map cap_max_Ah sub)
     = Ok (capacity_cycle_monotonicity_indicator row)
  /\ TimeMonotonicityViolations_allCells row = tv
  /\ Re_nonpos_allRows row = re_nonpos_count ip
  /\ Rct_nonpos_allRows row = rct_nonpos_count ip
  /\ Impedance_rows row = impedance_rows ip.
Proof.
  unfold summary_row. intros Hrow.
  destruct (spearman_corr _ _) as [v|e] eqn:Ev; simpl in Hrow; [|discriminate].
  inversion Hrow; subst; simpl. repeat split. 
Qed.

(** ** Dataset-wide counters in the per-entity table (C7) *)

(** C7. Given the empty per-cycle table the summary raises the KeyError of
    the grouping; given any other it produces a table with at least one row,
    and every entity row carries the time-violation count of the whole
    discharge dataset and the two non-positivity counts (and the row count)
    of the whole impedance table, so any two rows of one run agree on these
    columns. *)
Theorem C7_global_counters_broadcast :
  forall (F : Type) (FL : Float64 F) (cycle_stats : list (CycleStats F))
         (meas_dis : list (Sample F)) (imp : list (ImpedanceRow F)),
    (cycle_stats = []
     /\ build_cell_summary_table cycle_stats meas_dis imp = Failed (KeyError "cell_id"))
    \/ (cycle_stats <> []
        /\ exists rows,
             build_cell_summary_table cycle_stats meas_dis imp = Done rows
             /\ rows <> []
             /\ length rows = length (groupby String.eqb String.ltb cs_cell_id cycle_stats)
             /\ (forall r, In r rows ->
                   TimeMonotonicityViolations_allCells r
                   = time_monotonicity_violations meas_dis
                   /\ Re_nonpos_allRows r = re_nonpos_count (impedance_positivity imp)
                   /\ Rct_nonpos_allRows r = rct_nonpos_count (impedance_positivity imp)
                   /\ Impedance_rows r = impedance_rows (impedance_positivity imp))
             /\ (forall r1 r2, In r1 rows -> In r2 rows ->
                   TimeMonotonicityViolations_allCells r1
                   = TimeMonotonicityViolations_allCells r2
                   /\ Re_nonpos_allRows r1 = Re_nonpos_allRows r2
                   /\ Rct_nonpos_allRows r1 = Rct_nonpos_allRows r2
                   /\ Impedance_rows r1 = Impedance_rows r2)).
Proof.
  intros F FL cycle_stats meas_dis imp.
  destruct cycle_stats as [|c0 rest]; [left; split; reflexivity|].
  right. split; [discriminate|].
  destruct (build_cell_summary_table_total (c0 :: rest) meas_dis imp) as [rows Hrows];
    [discriminate|].
  exists rows. split; [exact Hrows|].
  apply build_cell_summary_table_Done in Hrows. destruct Hrows as [_ Hrows].
  pose proof (mapM_length _ _ _ Hrows) as Hlen.
  assert (forall r, In r rows ->
            TimeMonotonicityViolations_allCells r = time_monotonicity_violations meas_dis
            /\ Re_nonpos_allRows r = re_nonpos_count (impedance_positivity imp)
            /\ Rct_nonpos_allRows r = rct_nonpos_count (impedance_positivity imp)
            /\ Impedance_rows r = impedance_rows (impedance_positivity imp)) as Hall.
  { intros r Hin.
    destruct (mapM_In _ _ _ _ Hrows Hin) as [g [_ Hg]].
    apply summary_row_inv in Hg. simpl in Hg. tauto. }
  split; [|split; [exact Hlen|split; [exact Hall|]]].
  - intros Hnil. rewrite Hnil in Hlen. simpl in Hlen. symmetry in Hlen.
    apply length_zero_iff_nil in Hlen.
    assert (In (cs_cell_id c0)
               (map fst (groupby String.eqb String.ltb cs_cell_id (c0 :: rest)))) as Hin.
    { rewrite groupby_keys. apply group_keys_In; [apply String.eqb_eq|].
      left. reflexivity. }
    rewrite Hlen in Hin. contradiction.
  - intros r1 r2 H1 H2.
    destruct (Hall r1 H1) as [A1 [B1 [C1 D1]]], (Hall r2 H2) as [A2 [B2 [C2 D2]]].
    repeat split; congruence.
Qed.

(** ** Representative cycle selection (C8) *)

Lemma min_of_le (z : Z) (zs : list Z) :
  (min_of z zs <= z)%Z /\ Forall (fun v => (min_of z zs <= v)%Z) zs.
Proof.
  unfold min_of. revert z. induction zs as [|v zs IH]; simpl; intros z.
  - split; [lia | constructor].
  - destruct (IH (Z.min z v)) as [H1 H2]. split; [lia|].
    constructor; [lia | exact H2].
Qed.

Lemma min_of_In (z : Z) (zs : list Z) : In (min_of z zs) (z :: zs).
Proof.
  unfold min_of. revert z. induction zs as [|v zs IH]; simpl; intros z.
  - left; reflexivity.
  - destruct (IH (Z.min z v)) as [Heq|Hin].
    + rewrite <- Heq. destruct (Z.min_spec z v) as [[_ ->]|[_ ->]]; auto.
    + right; right; exact Hin.
Qed.

Lemma filter_filter_andb {A : Type} (f g : A -> bool) (l : list A) :
  filter g (filter f l) = filter (fun a => f a && g a) l.
Proof.
  induction l as [|a l IH]; simpl; [reflexivity|].
  destruct (f a); simpl; [destruct (g a); rewrite IH; reflexivity | exact IH].
Qed.

(** C8. On the discharge samples of the measurements, the selector either
    finds no sample of the entity and raises the error that names the
    entity, or returns the smallest cycle index among the entity's discharge
    samples together with all the entity's discharge samples of that cycle,
    ordered by time index.  The two cases exclude one another, so the error
    is raised exactly when the entity has no discharge sample. *)
Theorem C8_representative_cycle :
  forall (F : Type) (meas : list (Sample F)) (cell : string),
    ((forall s, In s meas -> operation_type s = "discharge"%string -> cell_id s <> cell)
     /\ pick_representative_discharge_cycle (select_discharge meas) cell
        = Raise (ValueError ("No discharge samples for cell " ++ cell)%string))
    \/ (exists idx cyc,
          pick_representative_discharge_cycle (select_discharge meas) cell = Ok (idx, cyc)
          /\ (exists s, In s meas /\ operation_type s = "discharge"%string
                        /\ cell_id s = cell /\ cycle_index s = idx)
          /\ (forall s, In s meas -> operation_type s = "discharge"%string ->
                        cell_id s = cell -> (idx <= cycle_index s)%Z)
          /\ Permutation cyc
               (filter (fun s => String.eqb (cell_id s) cell && (cycle_index s =? idx)%Z)
                       (select_discharge meas))
          /\ StronglySorted (fun a b => (t_index a <= t_index b)%Z) cyc).
Proof.
  intros F meas cell.
  assert (forall s, In s (select_discharge meas) <->
                    In s meas /\ operation_type s = "discharge"%string) as Hsel.
  { intros s. unfold select_discharge. rewrite filter_In, String.eqb_eq. tauto. }
  unfold pick_representative_discharge_cycle.
  destruct (filter (fun s => String.eqb (cell_id s) cell) (select_discharge meas))
    as [|s0 rest] eqn:Esub.
  - left. split; [|reflexivity].
    intros s Hin Hop Hcell.
    assert (In s (filter (fun s => String.eqb (cell_id s) cell) (select_discharge meas))) as Hf.
    { apply filter_In. split; [apply Hsel; auto | apply String.eqb_eq; exact Hcell]. }
    rewrite Esub in Hf. contradiction.
  - right.
    set (idx := min_of (cycle_index s0) (map cycle_index rest)).
    exists idx. eexists. split; [reflexivity|].
    assert (forall s, In s (s0 :: rest) <->
                      In s (select_discharge meas) /\ cell_id s = cell) as Hsub.
    { intros s. rewrite <- Esub, filter_In, String.eqb_eq. tauto. }
    split; [|split; [|split]].
    + pose proof (min_of_In (cycle_index s0) (map cycle_index rest)) as Hin.
      fold idx in Hin. change (cycle_index s0 :: map cycle_index rest)
        with (map cycle_index (s0 :: rest)) in Hin.
      apply in_map_iff in Hin. destruct Hin as [s [Hs Hin]].
      apply Hsub in Hin. destruct Hin as [Hin Hc]. apply Hsel in Hin.
      exists s. tauto.
    + intros s Hin Hop Hcell.
      assert (In s (s0 :: rest)) as Hin' by (apply Hsub; split; [apply Hsel|]; auto).
      destruct (min_of_le (cycle_index s0) (map cycle_index rest)) as [H0 Hall].
      fold idx in H0, Hall. destruct Hin' as [->|Hin']; [exact H0|].
      rewrite Forall_forall in Hall. apply Hall. apply in_map. exact Hin'.
    + rewrite <- sort_values_perm. rewrite <- Esub, filter_filter_andb. reflexivity.
    + apply sort_values_sorted.
Qed.

(** ** Exact arithmetic: the reductions on lists of [xreal] *)

Lemma of_nat_exact (n : nat) : of_nat (F := xreal) n = Fin (INR n).
Proof. unfold of_nat. simpl. rewrite <- INR_IZR_INZ. reflexivity. Qed.

Lemma filter_notnan_exact (a : list xreal) :
  filter notnan a = map Fin (finite_values a).
Proof.
  induction a as [|[|r] a IH]; simpl; [reflexivity | exact IH | congruence].
Qed.

Lemma fold_add_Fin (rs : list R) (acc : R) :
  fold_left (xlift2 Rplus) (map Fin rs) (Fin acc) = Fin (acc + Rsum rs).
Proof.
  revert acc. induction rs as [|r rs IH]; simpl; intros acc.
  - f_equal. lra.
  - rewrite IH. f_equal. lra.
Qed.

Lemma fold_add_NaN (a : list xreal) : fold_left (xlift2 Rplus) a NaN = NaN.
Proof. induction a as [|v a IH]; simpl; [reflexivity | exact IH]. Qed.

Lemma np_sum_Fin (rs : list R) : np_sum (map Fin rs) = Fin (Rsum rs).
Proof.
  unfold np_sum, zero. simpl. rewrite fold_add_Fin. f_equal. lra.
Qed.

Lemma np_sum_NaN (a : list xreal) : In NaN a -> np_sum a = NaN.
Proof.
  unfold np_sum, zero. simpl. generalize (Fin 0) as acc.
  induction a as [|v a IH]; simpl; intros acc Hin; [contradiction|].
  destruct Hin as [->|Hin].
  - destruct acc; simpl; apply fold_add_NaN.
  - apply IH. exact Hin.
Qed.

Lemma np_mean_Fin (rs : list R) :
  rs <> [] -> np_mean (map Fin rs) = Fin (Rsum rs / INR (length rs)).
Proof.
  intros Hne. unfold np_mean. rewrite np_sum_Fin, length_map, of_nat_exact.
  simpl. destruct (Req_dec_T (INR (length rs)) 0) as [E|E]; [|reflexivity].
  destruct rs; [congruence|]. simpl length in E. rewrite S_INR in E.
  pose proof (pos_INR (length rs)). lra.
Qed.


Lemma np_mean_NaN (a : list xreal) : In NaN a -> np_mean a = NaN.
Proof. intros Hin. unfold np_mean. rewrite (np_sum_NaN a Hin). reflexivity. Qed.



Lemma np_nanmedian_spec {F : Type} `{Float64 F} (a : list F) :
  np_nanmedian a = np_median (filter notnan a).
Proof.
  unfold np_nanmedian.
  destruct (length (filter notnan a) =? 0)%nat eqn:E; [|reflexivity].
  apply Nat.eqb_eq in E. apply length_zero_iff_nil in E. rewrite E. reflexivity.
Qed.

Lemma insert_sorted_perm {F : Type} `{Float64 F} (v : F) (a : list F) :
  Permutation (v :: a) (insert_sorted v a).
Proof.
  induction a as [|w a IH]; simpl; [reflexivity|].
  destruct (fle v w); [reflexivity|].
  rewrite perm_swap. apply perm_skip. exact IH.
Qed.

Lemma np_sort_perm {F : Type} `{Float64 F} (a : list F) : Permutation a (np_sort a).
Proof.
  induction a as [|v a IH]; simpl; [constructor|].
  rewrite <- insert_sorted_perm. apply perm_skip. exact IH.
Qed.



(** ** The per-cycle record is always produced *)

Lemma reduce_nonempty {F : Type} (op : F -> F -> F) (name : string) (a : list F) :
  a <> [] -> exists v, reduce op name a = Ok v.
Proof. destruct a; [congruence|]. intros _. simpl. eexists; reflexivity. Qed.

Lemma cycle_stats_row_total {F : Type} `{Float64 F} (g : cycle_key * list (Sample F)) :
  snd g <> [] -> exists row, cycle_stats_row g = Ok row.
Proof.
  intros Hne. unfold cycle_stats_row.
  assert (forall (col : Sample F -> F),
             map col (sort_values t_index (snd g)) <> []) as Hcol.
  { intros col Hnil. apply (f_equal (@length F)) in Hnil.
    rewrite length_map, sort_values_length in Hnil. simpl in Hnil.
    apply length_zero_iff_nil in Hnil. contradiction. }
  unfold np_min, np_max, np_nanmax.
  destruct (reduce_nonempty minimum "minimum" _ (Hcol Temperature_measured)) as [a ->].
  destruct (reduce_nonempty maximum "maximum" _ (Hcol Temperature_measured)) as [b ->].
  destruct (reduce_nonempty fmax "fmax" _ (Hcol Capacity)) as [c ->].
  simpl. eexists; reflexivity.
Qed.

Lemma discharge_cycle_level_stats_total {F : Type} `{Float64 F} (meas_dis : list (Sample F)) :
  exists stats, discharge_cycle_level_stats meas_dis = Ok stats.
Proof.
  unfold discharge_cycle_level_stats. apply mapM_total.
  intros [k g] Hin. apply cycle_stats_row_total. simpl.
  eapply partitions_nonempty. exact Hin.
Qed.

Lemma cycle_stats_row_inv {F : Type} `{Float64 F} (g : cycle_key * list (Sample F)) row :
  cycle_stats_row g = Ok row ->
  cs_cell_id row = fst (fst g)
  /\ cs_cycle_index row = snd (fst g)
  /\ n_samples row = length (snd g)
  /\ i_mean_A row = np_mean (map Current_measured (sort_values t_index (snd g)))
  /\ i_std_A row
     = (if (length (snd g) <? 2)%nat then nan
        else np_std 1 (map Current_measured (sort_values t_index (snd g))))
  /\ v_mono_frac row
     = voltage_monotonic_fraction (map Voltage_measured (sort_values t_index (snd g)))
  /\ np_nanmax (map Capacity (sort_values t_index (snd g))) = Ok (cap_max_Ah row).
Proof.
  unfold cycle_stats_row. intros Hrow.
  destruct (np_min _) as [a|e]; simpl in Hrow; [|discriminate].
  destruct (np_max _) as [b|e]; simpl in Hrow; [|discriminate].
  destruct (np_nanmax _) as [c|e]; simpl in Hrow; [|discriminate].
  inversion Hrow; subst; simpl.
  rewrite length_map, sort_values_length.
  repeat split.
  destruct (length (snd g)) as [|[|n]]; reflexivity.
Qed.

(** ** Voltage monotonic fraction of an array *)

Lemma np_diff_length {F : Type} `{Float64 F} (v : list F) :
  length (np_diff v) = (length v - 1)%nat.
Proof.
  induction v as [|a [|b v] IH]; try reflexivity.
  change (np_diff (a :: b :: v)) with (fsub b a :: np_diff (b :: v)).
  simpl length in *. rewrite IH. lia.
Qed.

Lemma negative_steps_drops (v : list xreal) : negative_steps v = drops v.
Proof.
  unfold negative_steps.
  induction v as [|a [|b v] IH]; try reflexivity.
  change (np_diff (a :: b :: v)) with (fsub b a :: np_diff (b :: v)).
  change (drops (a :: b :: v))
    with ((if flt b a then 1 else 0) + drops (b :: v))%nat.
  rewrite <- IH.
  assert (flt (fsub b a) zero = flt b a) as Hflt.
  { destruct a as [|x], b as [|y]; try reflexivity.
    unfold zero. simpl. xcmp; reflexivity. }
  cbn [filter]. rewrite Hflt.
  destruct (flt b a); reflexivity.
Qed.

Lemma indicator_mean (bs : list bool) :
  bs <> [] ->
  np_mean (map (fun b : bool => of_bool (F := xreal) b) bs)
  = Fin (INR (length (filter (fun b => b) bs)) / INR (length bs)).
Proof.
  intros Hne.
  assert (map (fun b : bool => of_bool (F := xreal) b) bs
          = map Fin (map (fun b : bool => if b then 1%R else 0%R) bs)) as ->.
  { rewrite map_map. apply map_ext. intros []; reflexivity. }
  rewrite np_mean_Fin by (destruct bs; [congruence | discriminate]).
  rewrite length_map. f_equal. f_equal.
  clear Hne. induction bs as [|[] bs IH]; simpl length; simpl Rsum; simpl filter.
  - reflexivity.
  - simpl length. rewrite S_INR, IH. lra.
  - rewrite IH. lra.
Qed.

Lemma voltage_monotonic_fraction_exact (v : list xreal) :
  (2 <= length v)%nat ->
  voltage_monotonic_fraction v
  = Fin (INR (negative_steps v) / INR (length v - 1)).
Proof.
  intros Hlen. unfold voltage_monotonic_fraction, negative_steps.
  pose proof (np_diff_length v) as Hd.
  destruct (length (np_diff v) =? 0)%nat eqn:E; [apply Nat.eqb_eq in E; lia|].
  rewrite <- (map_map (fun d => flt d zero) (fun b : bool => of_bool b)).
  rewrite indicator_mean
    by (intros Hnil; apply (f_equal (@length bool)) in Hnil;
        rewrite length_map in Hnil; simpl in Hnil; lia).
  rewrite length_map, Hd. f_equal. f_equal. f_equal.
  clear. induction (np_diff v) as [|d ds IH]; [reflexivity|].
  cbn [map filter]. destruct (flt d zero); cbn [length]; rewrite IH; reflexivity.
Qed.

(** ** Per-cycle current standard deviation (C4) *)

Lemma Rsum_sq_nonneg (f : R -> R) (rs : list R) :
  (0 <= Rsum (map (fun r => f r * f r)%R rs))%R.
Proof.
  induction rs as [|r rs IH]; simpl; [lra|].
  pose proof (Rle_0_sqr (f r)) as Hsq. unfold Rsqr in Hsq. lra.
Qed.

Lemma np_std_exact (rs : list R) :
  (2 <= length rs)%nat ->
  np_std 1 (map Fin rs)
  = Fin (R_sqrt.sqrt
           (Rsum (map (fun r => (r - Rsum rs / INR (length rs))
                                * (r - Rsum rs / INR (length rs)))%R rs)
            / INR (length rs - 1))).
Proof.
  intros Hlen. unfold np_std.
  rewrite np_mean_Fin by (destruct rs; [simpl in Hlen; lia | discriminate]).
  rewrite !map_map. cbn [fsub fmul exact_arith xlift2].
  rewrite <- (map_map (fun r => (r - Rsum rs / INR (length rs))
                                * (r - Rsum rs / INR (length rs)))%R Fin).
  rewrite np_sum_Fin, length_map, Nat.max_0_r, of_nat_exact.
  assert (0 < INR (length rs - 1))%R as Hpos by (apply lt_0_INR; lia).
  pose proof (Rsum_sq_nonneg (fun r => r - Rsum rs / INR (length rs))%R rs) as Hsum.
  cbn [fdiv fsqrt exact_arith]. unfold xdiv.
  destruct (Req_dec_T (INR (length rs - 1)) 0) as [E|_]; [lra|].
  unfold xsqrt. destruct (Rlt_dec _ 0) as [Hneg|_]; [|reflexivity].
  exfalso. apply (Rlt_not_le _ _ Hneg).
  apply Rmult_le_pos; [exact Hsum | left; apply Rinv_0_lt_compat; exact Hpos].
Qed.

Lemma Rsum_repeat (v : R) (n : nat) : Rsum (repeat v n) = (INR n * v)%R.
Proof.
  induction n as [|n IH]; [simpl; lra|].
  cbn [repeat Rsum fold_right]. fold (Rsum (repeat v n)). rewrite IH, S_INR. lra.
Qed.

Lemma np_std_identical (v : R) (n : nat) :
  (2 <= n)%nat -> np_std 1 (repeat (Fin v) n) = Fin 0.
Proof.
  intros Hn. rewrite <- map_repeat.
  rewrite np_std_exact by (rewrite repeat_length; exact Hn).
  rewrite repeat_length, Rsum_repeat.
  assert (0 < INR n)%R as Hpos by (apply lt_0_INR; lia).
  assert (INR n * v / INR n = v)%R as -> by (field; lra).
  rewrite map_repeat, Rsum_repeat.
  assert (INR n * ((v - v) * (v - v)) / INR (n - 1) = 0)%R as ->.
  { unfold Rdiv. rewrite Rminus_diag. lra. }
  rewrite sqrt_0. reflexivity.
Qed.

(** C4 (amended). The record of a non-empty partition is always produced;
    its current standard deviation is NaN when the partition has fewer than
    2 samples and [np.std(i, ddof=1)] otherwise.  In exact arithmetic that
    is the square root of the sum of squared deviations from the mean over
    n - 1, which is 0 for 2 or more identical values.  In binary64 two
    samples of 2.5 A give exactly 0.0, but identical values whose mean is
    rounded leave a residue (three samples of 0.1 A: about 1.7e-17). *)
Theorem C4_current_std_sample :
  (forall (F : Type) (FL : Float64 F) (g : cycle_key * list (Sample F)),
      snd g <> [] ->
      exists row,
        cycle_stats_row g = Ok row
        /\ i_std_A row
           = (if (length (snd g) <? 2)%nat then nan
              else np_std 1 (map Current_measured (sort_values t_index (snd g)))))
  /\ (forall rs : list R,
        (2 <= length rs)%nat ->
        np_std 1 (map Fin rs)
        = Fin (R_sqrt.sqrt
                 (Rsum (map (fun r => (r - Rsum rs / INR (length rs))
                                      * (r - Rsum rs / INR (length rs)))%R rs)
                  / (INR (length rs) - 1))))
  /\ (forall (v : R) (n : nat), (2 <= n)%nat -> np_std 1 (repeat (Fin v) n) = Fin 0)
  /\ np_std (F := PrimFloat.float) 1 [decimal 25 1; decimal 25 1] = of_Z 0.
Proof.
  split; [|split; [|split]].
  - intros F FL g Hne. destruct (cycle_stats_row_total g Hne) as [row Hrow].
    exists row. split; [exact Hrow|].
    apply cycle_stats_row_inv in Hrow. tauto.
  - intros rs Hlen. rewrite np_std_exact by exact Hlen.
    rewrite minus_INR by lia. reflexivity.
  - apply np_std_identical.
  - vm_compute. reflexivity.
Qed.

(** ** NaN in the rank correlation *)






(** ** Maximum capacity of an all-missing partition (C10) *)



(** ** Rank correlation (C2) *)

Lemma spearman_corr_unfold {F : Type} `{Float64 F} (x y : list F) :
  spearman_corr x y
  = if (length x <? 3)%nat then Ok nan
    else if feq (denominator x y) zero then Ok nan
    else xy <- multiply (centred_ranks x) (centred_ranks y) ;;
         Ok (fdiv (np_sum xy) (denominator x y)).
Proof. unfold spearman_corr. rewrite rank_average_length. reflexivity. Qed.

Lemma half_consecutive (d : Z) : (2 * (d * (d + 1) / 2) = d * (d + 1))%Z.
Proof.
  assert (Z.even (d * (d + 1)) = true) as Hev.
  { rewrite Z.even_mul, Z.add_1_r, Z.even_succ. apply Z.orb_even_odd. }
  apply Z.even_spec in Hev. destruct Hev as [m Hm]. rewrite Hm.
  rewrite (Z.mul_comm 2 m), Z.div_mul by lia. lia.
Qed.

Lemma count_lt_Fin (v : R) (xs : list R) :
  count_lt (Fin v) (map Fin xs) = count_ltR v xs.
Proof.
  unfold count_lt, count_ltR. induction xs as [|w xs IH]; [reflexivity|].
  simpl in *. destruct (Rlt_dec w v); simpl; rewrite IH; reflexivity.
Qed.

Lemma count_eq_Fin (v : R) (xs : list R) :
  count_eq (Fin v) (map Fin xs) = count_eqR v xs.
Proof.
  unfold count_eq, count_eqR. induction xs as [|w xs IH]; [reflexivity|].
  simpl in *. destruct (Req_dec_T w v); simpl; rewrite IH; reflexivity.
Qed.

Lemma count_eqR_pos (v : R) (xs : list R) : In v xs -> (1 <= count_eqR v xs)%nat.
Proof.
  unfold count_eqR. induction xs as [|w xs IH]; simpl; [contradiction|].
  intros [->|Hin].
  - destruct (Req_dec_T v v); [simpl; lia | congruence].
  - destruct (Req_dec_T w v); simpl; [lia | apply IH; exact Hin].
Qed.

Lemma rank_of_Fin (xs : list R) (v : R) :
  In v xs -> rank_of (map Fin xs) (Fin v) = Fin (rankR xs v).
Proof.
  intros Hin. unfold rank_of. cbn [isnan exact_arith xisnan].
  rewrite count_lt_Fin, count_eq_Fin.
  pose proof (count_eqR_pos v xs Hin) as Hpos.
  set (l := count_ltR v xs) in *. set (d := count_eqR v xs) in *.
  cbn [fdiv of_Z exact_arith]. unfold xdiv.
  assert (0 < IZR (Z.of_nat d))%R as Hd by (apply IZR_lt; lia).
  destruct (Req_dec_T (IZR (Z.of_nat d)) 0) as [E|_]; [lra|].
  f_equal. unfold rankR. fold l. fold d. rewrite !INR_IZR_INZ.
  assert (2 * IZR (Z.of_nat d * Z.of_nat l + Z.of_nat d * (Z.of_nat d + 1) / 2)
          = 2 * IZR (Z.of_nat d) * IZR (Z.of_nat l)
            + IZR (Z.of_nat d) * (IZR (Z.of_nat d) + 1))%R as Hsum.
  { rewrite <- (mult_IZR 2), Z.mul_add_distr_l, half_consecutive.
    rewrite plus_IZR, !mult_IZR, plus_IZR. lra. }
  assert (IZR (Z.of_nat d * Z.of_nat l + Z.of_nat d * (Z.of_nat d + 1) / 2)
          = IZR (Z.of_nat d) * (IZR (Z.of_nat l) + (IZR (Z.of_nat d) + 1) / 2))%R as ->
    by lra.
  field. lra.
Qed.

Lemma rank_average_Fin (xs : list R) :
  rank_average (map Fin xs) = map Fin (map (rankR xs) xs).
Proof.
  unfold rank_average. rewrite !map_map. apply map_ext_in.
  intros v Hin. apply rank_of_Fin. exact Hin.
Qed.

Lemma centred_ranks_Fin (xs : list R) :
  xs <> [] -> centred_ranks (map Fin xs) = map Fin (cranksR xs).
Proof.
  intros Hne. unfold centred_ranks, cranksR, centreR.
  rewrite rank_average_Fin.
  rewrite np_mean_Fin by (destruct xs; [congruence | discriminate]).
  rewrite !map_map. reflexivity.
Qed.

Lemma sum_squares_Fin (rs : list R) : sum_squares (map Fin rs) = Fin (dotR rs rs).
Proof.
  unfold sum_squares, dotR. rewrite map_map. cbn [fmul exact_arith xlift2].
  rewrite <- (map_map (fun r => r * r)%R Fin), np_sum_Fin. f_equal. f_equal.
  induction rs as [|r rs IH]; simpl; congruence.
Qed.

Lemma dotR_self_nonneg (rs : list R) : (0 <= dotR rs rs)%R.
Proof.
  unfold dotR. induction rs as [|r rs IH]; simpl; [lra|].
  pose proof (Rle_0_sqr r) as Hsq. unfold Rsqr in Hsq. lra.
Qed.





Lemma products_Fin (a b : list R) :
  map (fun p => fmul (fst p) (snd p)) (combine (map Fin a) (map Fin b))
  = map Fin (map (fun p => fst p * snd p)%R (combine a b)).
Proof.
  revert b. induction a as [|x a IH]; intros [|y b]; simpl; try reflexivity.
  f_equal. apply IH.
Qed.

Lemma cranksR_length (xs : list R) : length (cranksR xs) = length xs.
Proof. unfold cranksR, centreR. rewrite !length_map. reflexivity. Qed.

(** The rank correlation of NaN-free arrays, over the reals. *)
Lemma spearman_corr_exact (xs ys : list R) :
  length xs = length ys -> (3 <= length xs)%nat ->
  denominator (map Fin xs) (map Fin ys) = Fin (R_sqrt.sqrt (rank_ss xs * rank_ss ys))
  /\ spearman_corr (map Fin xs) (map Fin ys)
     = if Req_dec_T (R_sqrt.sqrt (rank_ss xs * rank_ss ys)) 0 then Ok NaN
       else Ok (Fin (dotR (cranksR xs) (cranksR ys)
                     / R_sqrt.sqrt (rank_ss xs * rank_ss ys))).
Proof.
  intros Hl H3.
  assert (xs <> []) as Hx by (destruct xs; [simpl in H3; lia | discriminate]).
  assert (ys <> []) as Hy by (destruct ys; [simpl in Hl, H3; lia | discriminate]).
  assert (denominator (map Fin xs) (map Fin ys)
          = Fin (R_sqrt.sqrt (rank_ss xs * rank_ss ys))) as Hden.
  { unfold denominator. rewrite !centred_ranks_Fin by assumption.
    rewrite !sum_squares_Fin. fold (rank_ss xs). fold (rank_ss ys).
    cbn [fmul fsqrt exact_arith xlift2]. unfold xsqrt.
    destruct (Rlt_dec (rank_ss xs * rank_ss ys) 0) as [Hneg|_]; [|reflexivity].
    exfalso. apply (Rlt_not_le _ _ Hneg).
    apply Rmult_le_pos; apply dotR_self_nonneg. }
  split; [exact Hden|].
  rewrite spearman_corr_unfold, length_map, Hden.
  destruct (length xs <? 3)%nat eqn:E; [apply Nat.ltb_lt in E; lia|].
  unfold zero. cbn [feq of_Z exact_arith xeqb].
  destruct (Req_dec_T (R_sqrt.sqrt (rank_ss xs * rank_ss ys)) 0) as [Hz|Hnz];
    [reflexivity|].
  rewrite !centred_ranks_Fin by assumption.
  rewrite multiply_same_length by (rewrite !length_map, !cranksR_length; exact Hl).
  cbn [bind]. rewrite products_Fin, np_sum_Fin.
  cbn [fdiv exact_arith]. unfold xdiv.
  destruct (Req_dec_T (R_sqrt.sqrt (rank_ss xs * rank_ss ys)) 0); [contradiction|].
  reflexivity.
Qed.



(** *** Ranks of strictly monotone arrays *)









Lemma Rsum_affine (c : R) (l : list R) :
  Rsum (map (fun r => c - r)%R l) = (INR (length l) * c - Rsum l)%R.
Proof.
  induction l as [|r l IH]; [simpl; lra|].
  cbn [map Rsum fold_right length]. fold (Rsum (map (fun r => c - r)%R l)).
  fold (Rsum l). rewrite IH, S_INR. lra.
Qed.

Lemma centreR_reflect (c : R) (l : list R) :
  l <> [] -> centreR (map (fun r => c - r)%R l) = map Ropp (centreR l).
Proof.
  intros Hne. unfold centreR. rewrite Rsum_affine, length_map, !map_map.
  assert (0 < INR (length l))%R as Hpos
    by (apply lt_0_INR; destruct l; [congruence | simpl; lia]).
  apply map_ext. intros r. field. lra.
Qed.


Lemma dotR_opp_opp (a : list R) : dotR (map Ropp a) (map Ropp a) = dotR a a.
Proof.
  unfold dotR. induction a as [|x a IH]; simpl; [lra|].
  simpl in IH. rewrite IH. lra.
Qed.







(** * Further properties of the two scripts *)

(** ** The per-cycle table and the partitioning *)

Lemma mapM_Forall2 {A B : Type} (f : A -> result B) (l : list A) (bs : list B) :
  mapM f l = Ok bs -> Forall2 (fun a b => f a = Ok b) l bs.
Proof.
  revert bs. induction l as [|a l IH]; simpl; intros bs Hm.
  - inversion Hm. constructor.
  - destruct (f a) as [b|e] eqn:Ef; simpl in Hm; [|discriminate].
    destruct (mapM f l) as [bs0|e] eqn:Em; simpl in Hm; [|discriminate].
    inversion Hm; subst. constructor; [exact Ef | apply IH; reflexivity].
Qed.

Lemma indicator_sum_one {K : Type} (key_eqb : K -> K -> bool)
    (key_eqb_eq : forall a b, key_eqb a b = true <-> a = b) (k0 : K) (ks : list K) :
  NoDup ks -> In k0 ks ->
  list_sum (map (fun k => if key_eqb k0 k then 1 else 0) ks) = 1.
Proof.
  induction 1 as [|k ks Hnin Hnd IH]; simpl; [contradiction|].
  intros [->|Hin].
  - rewrite (proj2 (key_eqb_eq k0 k0) eq_refl).
    assert (list_sum (map (fun k => if key_eqb k0 k then 1 else 0) ks) = 0) as ->; [|reflexivity].
    clear IH Hnd. induction ks as [|k ks IH]; simpl; [reflexivity|].
    destruct (key_eqb k0 k) eqn:E.
    + apply key_eqb_eq in E. subst. exfalso. apply Hnin. left. reflexivity.
    + apply IH. intros Hin. apply Hnin. right. exact Hin.
  - destruct (key_eqb k0 k) eqn:E.
    + apply key_eqb_eq in E. subst. contradiction.
    + apply IH. exact Hin.
Qed.

Lemma list_sum_map_add {A : Type} (f g : A -> nat) (l : list A) :
  list_sum (map (fun a => f a + g a) l) = list_sum (map f l) + list_sum (map g l).
Proof. induction l as [|a l IH]; simpl; [reflexivity | rewrite IH; lia]. Qed.

(** The groups of a grouping share out the rows: their sizes add up to the
    number of rows. *)
Lemma group_sizes_sum {A K : Type} (key_eqb : K -> K -> bool) (key : A -> K)
    (key_eqb_eq : forall a b, key_eqb a b = true <-> a = b) (ks : list K) (df : list A) :
  NoDup ks -> (forall r, In r df -> In (key r) ks) ->
  list_sum (map (fun k => length (filter (fun r => key_eqb (key r) k) df)) ks)
  = length df.
Proof.
  intros Hnd. induction df as [|r df IH]; intros Hcov.
  - clear Hnd Hcov. induction ks as [|k ks IH]; simpl; [reflexivity | exact IH].
  - assert (forall k, length (filter (fun r0 => key_eqb (key r0) k) (r :: df))
                      = (if key_eqb (key r) k then 1 else 0)
                        + length (filter (fun r0 => key_eqb (key r0) k) df)) as Hstep.
    { intros k. simpl. destruct (key_eqb (key r) k); reflexivity. }
    rewrite (map_ext _ _ Hstep), list_sum_map_add.
    rewrite (indicator_sum_one key_eqb key_eqb_eq (key r) ks Hnd)
      by (apply Hcov; left; reflexivity).
    rewrite IH by (intros; apply Hcov; right; assumption). reflexivity.
Qed.

Lemma partitions_sizes_sum {F : Type} (meas_dis : list (Sample F)) :
  list_sum (map (fun g => length (snd g)) (partitions meas_dis)) = length meas_dis.
Proof.
  destruct (partitions_spec meas_dis) as [Hnd [_ [Hkeys _]]].
  unfold partitions, groupby in *. rewrite map_map in *. simpl in *.
  rewrite map_id in Hnd. 
  apply (group_sizes_sum cycle_key_eqb sample_key cycle_key_eqb_eq); [exact Hnd|].
  intros r Hr. specialize (Hkeys (sample_key r)). rewrite map_id in Hkeys.
  apply Hkeys. exists r. auto.
Qed.

Lemma stats_follow_partitions {F : Type} `{Float64 F}
    (meas_dis : list (Sample F)) (stats : list (CycleStats F)) :
  discharge_cycle_level_stats meas_dis = Ok stats ->
  Forall2 (fun g r => cs_cell_id r = fst (fst g) /\ cs_cycle_index r = snd (fst g)
                      /\ n_samples r = length (snd g))
          (partitions meas_dis) stats.
Proof.
  intros Hs. apply mapM_Forall2 in Hs.
  eapply Forall2_impl; [|exact Hs]. intros g r Hrow. simpl in Hrow.
  apply cycle_stats_row_inv in Hrow. tauto.
Qed.

Lemma stats_keys {F : Type} `{Float64 F}
    (meas_dis : list (Sample F)) (stats : list (CycleStats F)) :
  discharge_cycle_level_stats meas_dis = Ok stats ->
  map stats_key stats = map fst (partitions meas_dis).
Proof.
  intros Hs. pose proof (stats_follow_partitions meas_dis stats Hs) as Hf.
  clear Hs. induction Hf as [|g r gs rs [H1 [H2 _]] _ IH]; simpl; [reflexivity|].
  rewrite IH. f_equal. unfold stats_key. rewrite H1, H2. destruct g as [[c k] g]. reflexivity.
Qed.

Lemma stats_sizes_sum {F : Type} `{Float64 F}
    (meas_dis : list (Sample F)) (stats : list (CycleStats F)) :
  discharge_cycle_level_stats meas_dis = Ok stats ->
  list_sum (map n_samples stats) = length meas_dis
  /\ length stats = length (partitions meas_dis).
Proof.
  intros Hs. pose proof (stats_follow_partitions meas_dis stats Hs) as Hf.
  split.
  - rewrite <- (partitions_sizes_sum meas_dis).
    clear Hs. induction Hf as [|g r gs rs [_ [_ H3]] _ IH]; simpl; [reflexivity|].
    rewrite IH, H3. reflexivity.
  - symmetry. eapply Forall2_length. exact Hf.
Qed.

(** X1. The per-cycle table always exists and has exactly one record per
    distinct (entity, cycle) pair of the discharge samples, in ascending key
    order; the sample count of a record is the number of samples of its
    pair (at least 1), and the sample counts add up to the number of
    discharge samples: no sample is lost or counted twice. *)
Theorem X1_cycle_stats_share_out_samples :
  forall (F : Type) (FL : Float64 F) (meas_dis : list (Sample F)),
  exists stats,
    discharge_cycle_level_stats meas_dis = Ok stats
    /\ NoDup (map stats_key stats)
    /\ StronglySorted (fun a b => cycle_key_ltb a b = true) (map stats_key stats)
    /\ (forall k, In k (map stats_key stats) <->
                  exists s, In s meas_dis /\ sample_key s = k)
    /\ (forall r, In r stats ->
          n_samples r
          = length (filter (fun s => cycle_key_eqb (sample_key s) (stats_key r)) meas_dis)
          /\ (1 <= n_samples r)%nat)
    /\ list_sum (map n_samples stats) = length meas_dis.
Proof.
  intros F FL meas_dis.
  destruct (discharge_cycle_level_stats_total meas_dis) as [stats Hs].
  exists stats. split; [exact Hs|].
  pose proof (stats_follow_partitions meas_dis stats Hs) as Hf.
  destruct (partitions_spec meas_dis) as [Hnd [Hsorted [Hkeys Hgroups]]].
  pose proof (stats_keys meas_dis stats Hs) as Hk.
  rewrite Hk. split; [exact Hnd|]. split; [exact Hsorted|]. split; [exact Hkeys|].
  split.
  - intros r Hr.
    assert (exists g, In g (partitions meas_dis) /\ fst g = stats_key r
                      /\ n_samples r = length (snd g)) as [g [Hg [Hgk Hn]]].
    { clear -Hf Hr. induction Hf as [|g r0 gs rs [H1 [H2 H3]] _ IH]; [contradiction|].
      destruct Hr as [->|Hr].
      - exists g. split; [left; reflexivity|]. split; [|exact H3].
        unfold stats_key. rewrite H1, H2. destruct g as [[c k] g]. reflexivity.
      - destruct (IH Hr) as [g' [Hg' Hrest]]. exists g'. split; [right; exact Hg' | exact Hrest]. }
    destruct g as [k g]. simpl in Hgk, Hn. subst k.
    pose proof (partitions_nonempty _ _ _ Hg) as Hne.
    apply groupby_In in Hg; [|apply cycle_key_eqb_eq]. destruct Hg as [Hgeq _].
    rewrite Hn. split; [rewrite Hgeq; reflexivity|].
    destruct g; [congruence | simpl; lia].
  - apply (stats_sizes_sum meas_dis stats Hs).
Qed.

Lemma stats_row_of_partition {F : Type} `{Float64 F}
    (meas_dis : list (Sample F)) (stats : list (CycleStats F)) (r : CycleStats F) :
  discharge_cycle_level_stats meas_dis = Ok stats -> In r stats ->
  cycle_stats_row (stats_key r, partition_of meas_dis (stats_key r)) = Ok r
  /\ partition_of meas_dis (stats_key r) <> [].
Proof.
  intros Hs Hr. unfold discharge_cycle_level_stats in Hs.
  destruct (mapM_In _ _ _ _ Hs Hr) as [[k g] [Hg Hrow]].
  pose proof (partitions_nonempty _ _ _ Hg) as Hne.
  apply groupby_In in Hg; [|apply cycle_key_eqb_eq]. destruct Hg as [Hgeq _].
  pose proof (cycle_stats_row_inv _ _ Hrow) as [H1 [H2 _]]. simpl in H1, H2.
  assert (stats_key r = k) as Hk
    by (unfold stats_key; rewrite H1, H2; destruct k; reflexivity).
  rewrite Hk. unfold partition_of. rewrite <- Hgeq. split; assumption.
Qed.

Lemma cycle_stats_row_reductions {F : Type} `{Float64 F}
    (g : cycle_key * list (Sample F)) (row : CycleStats F) :
  cycle_stats_row g = Ok row ->
  np_min (map Temperature_measured (sort_values t_index (snd g))) = Ok (t_min_C row)
  /\ np_max (map Temperature_measured (sort_values t_index (snd g))) = Ok (t_max_C row)
  /\ np_nanmax (map Capacity (sort_values t_index (snd g))) = Ok (cap_max_Ah row).
Proof.
  unfold cycle_stats_row. intros Hrow.
  destruct (np_min _) as [a|e]; simpl in Hrow; [|discriminate].
  destruct (np_max _) as [b|e]; simpl in Hrow; [|discriminate].
  destruct (np_nanmax _) as [c|e]; simpl in Hrow; [|discriminate].
  inversion Hrow; subst; simpl. repeat split.
Qed.

(** ** Temperature range and maximum capacity of a cycle, in exact arithmetic *)

Lemma minimum_exact (a b : xreal) :
  minimum a b = match a, b with
                | Fin x, Fin y => Fin (Rmin x y)
                | _, _ => NaN
                end.
Proof.
  destruct a as [|x], b as [|y]; unfold minimum; simpl; try reflexivity.
  unfold Rmin. destruct (Rle_dec x y); reflexivity.
Qed.

Lemma maximum_exact (a b : xreal) :
  maximum a b = match a, b with
                | Fin x, Fin y => Fin (Rmax x y)
                | _, _ => NaN
                end.
Proof.
  destruct a as [|x], b as [|y]; unfold maximum; simpl; try reflexivity.
  unfold Rmax. destruct (Rle_dec y x) as [H1|H1], (Rle_dec x y) as [H2|H2];
    try reflexivity; f_equal; lra.
Qed.

Lemma fmax_exact (a b : xreal) :
  fmax a b = match a, b with
             | Fin x, Fin y => Fin (Rmax x y)
             | NaN, _ => b
             | _, NaN => a
             end.
Proof.
  destruct a as [|x], b as [|y]; unfold fmax; simpl; try reflexivity.
  unfold Rmax. destruct (Rle_dec y x) as [H1|H1], (Rle_dec x y) as [H2|H2];
    try reflexivity; f_equal; lra.
Qed.

Lemma fold_NaN_absorbs (op : xreal -> xreal -> xreal) (l : list xreal) :
  (forall b, op NaN b = NaN) -> fold_left op l NaN = NaN.
Proof.
  intros Hop. induction l as [|b l IH]; simpl; [reflexivity|]. rewrite Hop. exact IH.
Qed.

Lemma fold_NaN_member (op : xreal -> xreal -> xreal) (l : list xreal) (a : xreal) :
  (forall b, op NaN b = NaN) -> (forall c, op c NaN = NaN) ->
  In NaN (a :: l) -> fold_left op l a = NaN.
Proof.
  intros Hl Hr. revert a. induction l as [|b l IH]; simpl; intros a Hin.
  - destruct Hin as [->|[]]. reflexivity.
  - destruct Hin as [->|[->|Hin]].
    + rewrite Hl. apply fold_NaN_absorbs. exact Hl.
    + rewrite Hr. apply fold_NaN_absorbs. exact Hl.
    + apply IH. right. exact Hin.
Qed.

(** A fold of a selection (min or max) over numbers returns one of them
    that bounds all of them. *)
Lemma fold_select (sel : R -> R -> R) (le : R -> R -> Prop) (l : list R) (a : R) :
  (forall x y, sel x y = x \/ sel x y = y) ->
  (forall x y, le (sel x y) x /\ le (sel x y) y) ->
  (forall x, le x x) -> (forall x y z, le x y -> le y z -> le x z) ->
  In (fold_left sel l a) (a :: l)
  /\ forall t, In t (a :: l) -> le (fold_left sel l a) t.
Proof.
  intros Hsel Hle Hrefl Htrans. revert a.
  induction l as [|b l IH]; simpl; intros a.
  - split; [left; reflexivity | intros t [<-|[]]; apply Hrefl].
  - destruct (IH (sel a b)) as [Hin Hall]. split.
    + destruct Hin as [Heq|Hin]; [|right; right; exact Hin].
      destruct (Hsel a b) as [E|E]; rewrite E in *; auto.
    + intros t [<-|[<-|Ht]].
      * eapply Htrans; [apply Hall; left; reflexivity | apply Hle].
      * eapply Htrans; [apply Hall; left; reflexivity | apply Hle].
      * apply Hall. right. exact Ht.
Qed.

Lemma fold_Fin (op : xreal -> xreal -> xreal) (sel : R -> R -> R) (l : list R) (a : R) :
  (forall x y, op (Fin x) (Fin y) = Fin (sel x y)) ->
  fold_left op (map Fin l) (Fin a) = Fin (fold_left sel l a).
Proof.
  intros Hop. revert a. induction l as [|b l IH]; simpl; intros a; [reflexivity|].
  rewrite Hop. apply IH.
Qed.

Lemma nan_free_Fin (a : list xreal) : ~ In NaN a -> a = map Fin (finite_values a).
Proof.
  induction a as [|[|r] a IH]; simpl; intros Hn.
  - reflexivity.
  - exfalso. apply Hn. left. reflexivity.
  - f_equal. apply IH. intros Hin. apply Hn. right. exact Hin.
Qed.

Lemma np_min_max_exact (T : list xreal) :
  T <> [] ->
  (In NaN T -> np_min T = Ok NaN /\ np_max T = Ok NaN)
  /\ (~ In NaN T ->
      exists lo hi : R,
        np_min T = Ok (Fin lo) /\ np_max T = Ok (Fin hi)
        /\ In (Fin lo) T /\ In (Fin hi) T
        /\ forall t, In (Fin t) T -> (lo <= t <= hi)%R).
Proof.
  intros Hne. split.
  - intros Hin. destruct T as [|a l]; [congruence|].
    unfold np_min, np_max, reduce. split; f_equal; apply fold_NaN_member;
      try exact Hin; intros; rewrite ?minimum_exact, ?maximum_exact;
      try reflexivity; destruct c; reflexivity.
  - intros Hfree. rewrite (nan_free_Fin T Hfree) in *.
    destruct (finite_values T) as [|a l]; [simpl in Hne; congruence|].
    clear Hfree Hne. simpl map. unfold np_min, np_max, reduce.
    rewrite (fold_Fin minimum Rmin), (fold_Fin maximum Rmax)
      by (intros; rewrite ?minimum_exact, ?maximum_exact; reflexivity).
    destruct (fold_select Rmin Rle l a) as [Hmin_in Hmin_le].
    { intros x y. unfold Rmin. destruct (Rle_dec x y); auto. }
    { intros x y. split; [apply Rmin_l | apply Rmin_r]. }
    { intros x. lra. } { intros x y z. lra. }
    destruct (fold_select Rmax Rge l a) as [Hmax_in Hmax_ge].
    { intros x y. unfold Rmax. destruct (Rle_dec x y); auto. }
    { intros x y. split; apply Rle_ge; [apply Rmax_l | apply Rmax_r]. }
    { intros x. lra. } { intros x y z. lra. }
    exists (fold_left Rmin l a), (fold_left Rmax l a).
    split; [reflexivity|]. split; [reflexivity|].
    change (Fin a :: map Fin l) with (map Fin (a :: l)).
    split; [apply in_map; exact Hmin_in|]. split; [apply in_map; exact Hmax_in|].
    intros t Ht. apply in_map_iff in Ht. destruct Ht as [t' [Et Ht]].
    inversion Et; subst t'. split; [apply Hmin_le; exact Ht|].
    apply Rge_le. apply Hmax_ge. exact Ht.
Qed.

(** X2. In every record of the per-cycle table the temperature minimum and
    maximum are NaN as soon as one temperature of the cycle is NaN;
    otherwise they are temperatures of the cycle that bound all its
    temperatures (so min <= max). *)
Theorem X2_temperature_range :
  forall (meas_dis : list (Sample xreal)),
  exists stats,
    discharge_cycle_level_stats meas_dis = Ok stats
    /\ forall r, In r stats ->
         (In NaN (map Temperature_measured (partition_of meas_dis (stats_key r))) ->
          t_min_C r = NaN /\ t_max_C r = NaN)
         /\ (~ In NaN (map Temperature_measured (partition_of meas_dis (stats_key r))) ->
             exists lo hi : R,
               t_min_C r = Fin lo /\ t_max_C r = Fin hi /\ (lo <= hi)%R
               /\ In (Fin lo) (map Temperature_measured (partition_of meas_dis (stats_key r)))
               /\ In (Fin hi) (map Temperature_measured (partition_of meas_dis (stats_key r)))
               /\ forall s, In s (partition_of meas_dis (stats_key r)) ->
                    forall t, Temperature_measured s = Fin t -> (lo <= t <= hi)%R).
Proof.
  intros meas_dis.
  destruct (discharge_cycle_level_stats_total meas_dis) as [stats Hs].
  exists stats. split; [exact Hs|]. intros r Hr.
  destruct (stats_row_of_partition meas_dis stats r Hs Hr) as [Hrow Hne].
  apply cycle_stats_row_reductions in Hrow. simpl in Hrow.
  destruct Hrow as [Hmin [Hmax _]].
  set (part := partition_of meas_dis (stats_key r)) in *.
  assert (Permutation (map Temperature_measured part)
                      (map Temperature_measured (sort_values t_index part))) as Hp
    by (apply Permutation_map, sort_values_perm).
  assert (map Temperature_measured (sort_values t_index part) <> []) as Hne'.
  { intros Hnil. rewrite Hnil in Hp. apply Permutation_sym, Permutation_nil in Hp.
    apply map_eq_nil in Hp. contradiction. }
  destruct (np_min_max_exact _ Hne') as [Hnan Hfin]. split.
  - intros Hin. destruct Hnan as [E1 E2]; [eapply Permutation_in; eassumption|].
    rewrite E1 in Hmin. rewrite E2 in Hmax. inversion Hmin. inversion Hmax. auto.
  - intros Hfree. destruct Hfin as [lo [hi [E1 [E2 [Hlo [Hhi Hb]]]]]].
    { intros Hin. apply Hfree. eapply Permutation_in; [symmetry|]; eassumption. }
    rewrite E1 in Hmin. rewrite E2 in Hmax. inversion Hmin. inversion Hmax.
    exists lo, hi. split; [reflexivity|]. split; [reflexivity|].
    split; [apply (Hb lo Hlo)|].
    split; [eapply Permutation_in; [symmetry|]; eassumption|].
    split; [eapply Permutation_in; [symmetry|]; eassumption|].
    intros s Hs' t Ht. apply Hb. eapply Permutation_in; [exact Hp|].
    rewrite <- Ht. apply in_map. exact Hs'.
Qed.

Lemma fmax_fold_spec (l : list xreal) (acc : xreal) :
  match fold_left fmax l acc with
  | NaN => forall c, In c (acc :: l) -> c = NaN
  | Fin m => In (Fin m) (acc :: l)
             /\ forall t, In (Fin t) (acc :: l) -> (t <= m)%R
  end.
Proof.
  revert acc. induction l as [|b l IH]; intros acc.
  - simpl. destruct acc as [|m].
    + intros c [<-|[]]. reflexivity.
    + split; [left; reflexivity|]. intros t [E|[]]. inversion E. lra.
  - cbn [fold_left]. specialize (IH (fmax acc b)).
    destruct (fold_left fmax l (fmax acc b)) as [|m].
    + assert (fmax acc b = NaN) as Hf by (apply IH; left; reflexivity).
      rewrite fmax_exact in Hf.
      intros c [<-|[<-|Hc]].
      * destruct acc, b; try reflexivity; discriminate.
      * destruct acc, b; try reflexivity; discriminate.
      * apply IH. right. exact Hc.
    + destruct IH as [Hin Hb]. rewrite fmax_exact in Hin, Hb. split.
      * destruct Hin as [E|Hin]; [|right; right; exact Hin].
        destruct acc as [|x], b as [|y]; try discriminate; simpl; auto.
        inversion E. unfold Rmax. destruct (Rle_dec x y); auto.
      * intros t [E|[E|Ht]].
        -- subst acc. destruct b as [|y].
           ++ apply Hb. left. reflexivity.
           ++ assert (Rmax t y <= m)%R by (apply Hb; left; reflexivity).
              pose proof (Rmax_l t y). lra.
        -- subst b. destruct acc as [|x].
           ++ apply Hb. left. reflexivity.
           ++ assert (Rmax x t <= m)%R by (apply Hb; left; reflexivity).
              pose proof (Rmax_r x t). lra.
        -- apply Hb. right. exact Ht.
Qed.

Lemma np_nanmax_exact (cap : list xreal) (v : xreal) :
  np_nanmax cap = Ok v ->
  match v with
  | NaN => forall c, In c cap -> c = NaN
  | Fin m => In (Fin m) cap /\ forall t, In (Fin t) cap -> (t <= m)%R
  end.
Proof.
  destruct cap as [|a l]; [discriminate|].
  unfold np_nanmax, reduce. intros Hv. inversion Hv; subst v.
  apply fmax_fold_spec.
Qed.

(** X3. The maximum capacity of a record is the greatest non-missing
    capacity of its cycle: missing (NaN) values are skipped, and the result
    is NaN only when every capacity of the cycle is missing. *)
Theorem X3_max_capacity_skips_missing :
  forall (meas_dis : list (Sample xreal)),
  exists stats,
    discharge_cycle_level_stats meas_dis = Ok stats
    /\ forall r, In r stats ->
         (cap_max_Ah r = NaN <->
          forall s, In s (partition_of meas_dis (stats_key r)) -> Capacity s = NaN)
         /\ (forall m, cap_max_Ah r = Fin m ->
               (exists s, In s (partition_of meas_dis (stats_key r)) /\ Capacity s = Fin m)
               /\ forall s t, In s (partition_of meas_dis (stats_key r)) ->
                              Capacity s = Fin t -> (t <= m)%R).
Proof.
  intros meas_dis.
  destruct (discharge_cycle_level_stats_total meas_dis) as [stats Hs].
  exists stats. split; [exact Hs|]. intros r Hr.
  destruct (stats_row_of_partition meas_dis stats r Hs Hr) as [Hrow Hne].
  apply cycle_stats_row_reductions in Hrow. simpl in Hrow.
  destruct Hrow as [_ [_ Hmax]].
  set (part := partition_of meas_dis (stats_key r)) in *.
  assert (forall c, In c (map Capacity (sort_values t_index part)) <->
                    exists s, In s part /\ Capacity s = c) as Hmem.
  { intros c. rewrite in_map_iff. split; intros [s [E Hin]]; exists s; split; auto.
    - eapply Permutation_in; [symmetry; apply sort_values_perm | exact Hin].
    - eapply Permutation_in; [apply sort_values_perm | exact E]. }
  pose proof (np_nanmax_exact _ _ Hmax) as Hspec.
  destruct (cap_max_Ah r) as [|m0] eqn:Ecap.
  - split.
    + split; [|reflexivity]. intros _ s Hin. apply Hspec. apply Hmem. exists s. auto.
    + intros m Hm. discriminate.
  - destruct Hspec as [Hin Hb]. split.
    + split; [discriminate|]. intros Hall. exfalso.
      apply Hmem in Hin. destruct Hin as [s [Hin E]]. rewrite (Hall s Hin) in E. discriminate.
    + intros m Hm. inversion Hm; subst m0. split.
      * apply Hmem. exact Hin.
      * intros s t Hin' Ht. apply Hb. apply Hmem. exists s. auto.
Qed.

(** ** Per-cycle current mean: a NaN sample is not skipped *)

Lemma np_sum_char (a : list xreal) :
  np_sum a = if existsb isnan a then NaN else Fin (Rsum (finite_values a)).
Proof.
  destruct (existsb isnan a) eqn:E.
  - apply np_sum_NaN. apply existsb_exists in E. destruct E as [v [Hin Hv]].
    destruct v; [exact Hin | discriminate].
  - assert (~ In NaN a) as Hfree.
    { intros Hin. assert (existsb isnan a = true) as Ht
        by (apply existsb_exists; exists NaN; auto).
      congruence. }
    rewrite (nan_free_Fin a Hfree) at 1. apply np_sum_Fin.
Qed.

Lemma finite_values_perm (a b : list xreal) :
  Permutation a b -> Permutation (finite_values a) (finite_values b).
Proof.
  induction 1 as [|x a b Hp IH|x y a|a b c H1 IH1 H2 IH2]; simpl.
  - constructor.
  - destruct x; [exact IH | constructor; exact IH].
  - destruct x, y; try reflexivity. apply perm_swap.
  - etransitivity; eassumption.
Qed.

Lemma Rsum_perm (a b : list R) : Permutation a b -> Rsum a = Rsum b.
Proof.
  induction 1 as [|x a b Hp IH|x y a|a b c H1 IH1 H2 IH2]; simpl in *; lra.
Qed.

Lemma existsb_perm {A : Type} (f : A -> bool) (a b : list A) :
  Permutation a b -> existsb f a = existsb f b.
Proof.
  intros Hp. destruct (existsb f a) eqn:Ea, (existsb f b) eqn:Eb; try reflexivity.
  - apply existsb_exists in Ea. destruct Ea as [v [Hin Hv]].
    assert (existsb f b = true) as Ht
      by (apply existsb_exists; exists v; split; [eapply Permutation_in; eassumption | exact Hv]).
    congruence.
  - apply existsb_exists in Eb. destruct Eb as [v [Hin Hv]].
    assert (existsb f a = true) as Ht
      by (apply existsb_exists; exists v; split;
          [eapply Permutation_in; [symmetry|]; eassumption | exact Hv]).
    congruence.
Qed.

(** In exact arithmetic the sum and the mean of an array do not depend on
    the order of its elements. *)
Lemma np_sum_perm (a b : list xreal) : Permutation a b -> np_sum a = np_sum b.
Proof.
  intros Hp. rewrite !np_sum_char, (existsb_perm _ a b Hp).
  rewrite (Rsum_perm _ _ (finite_values_perm a b Hp)). reflexivity.
Qed.

Lemma np_mean_perm (a b : list xreal) : Permutation a b -> np_mean a = np_mean b.
Proof.
  intros Hp. unfold np_mean.
  rewrite (np_sum_perm a b Hp), (Permutation_length Hp). reflexivity.
Qed.

Lemma np_std_NaN (ddof : nat) (a : list xreal) : In NaN a -> np_std ddof a = NaN.
Proof.
  intros Hin. unfold np_std. rewrite (np_mean_NaN a Hin).
  rewrite np_sum_NaN; [reflexivity|].
  apply in_map_iff. exists NaN. split; [reflexivity|].
  apply in_map_iff. destruct (in_split _ _ Hin) as [l1 [l2 ->]].
  exists NaN. split; [reflexivity | apply in_or_app; right; left; reflexivity].
Qed.

(** X4. The per-cycle current mean is the plain mean of the currents of the
    cycle (in exact arithmetic whatever their order): unlike the means of the
    summary table it does not skip a NaN, so one NaN current makes the mean
    and the standard deviation of that cycle NaN; without a NaN the mean is
    the sum over the count. *)
Theorem X4_cycle_mean_not_nan_skipping :
  forall (meas_dis : list (Sample xreal)),
  exists stats,
    discharge_cycle_level_stats meas_dis = Ok stats
    /\ forall r, In r stats ->
         i_mean_A r = np_mean (map Current_measured (partition_of meas_dis (stats_key r)))
         /\ (In NaN (map Current_measured (partition_of meas_dis (stats_key r))) ->
             i_mean_A r = NaN /\ i_std_A r = NaN)
         /\ (~ In NaN (map Current_measured (partition_of meas_dis (stats_key r))) ->
             i_mean_A r
             = Fin (Rsum (finite_values
                            (map Current_measured (partition_of meas_dis (stats_key r))))
                    / INR (n_samples r))).
Proof.
  intros meas_dis.
  destruct (discharge_cycle_level_stats_total meas_dis) as [stats Hs].
  exists stats. split; [exact Hs|]. intros r Hr.
  destruct (stats_row_of_partition meas_dis stats r Hs Hr) as [Hrow Hne].
  apply cycle_stats_row_inv in Hrow. simpl in Hrow.
  destruct Hrow as [_ [_ [Hn [Hmean [Hstd _]]]]].
  set (part := partition_of meas_dis (stats_key r)) in *.
  assert (Permutation (map Current_measured part)
                      (map Current_measured (sort_values t_index part))) as Hp
    by (apply Permutation_map, sort_values_perm).
  assert (i_mean_A r = np_mean (map Current_measured part)) as Hm
    by (rewrite Hmean; symmetry; apply np_mean_perm; exact Hp).
  split; [exact Hm|]. split.
  - intros Hin. split; [rewrite Hm; apply np_mean_NaN; exact Hin|].
    rewrite Hstd. destruct (length part <? 2)%nat; [reflexivity|].
    apply np_std_NaN. eapply Permutation_in; eassumption.
  - intros Hfree. rewrite Hm, Hn.
    rewrite (nan_free_Fin _ Hfree) at 1.
    pose proof (f_equal (@length xreal) (nan_free_Fin _ Hfree)) as Hlen.
    rewrite !length_map in Hlen.
    rewrite Hlen. apply np_mean_Fin.
    intros Hnil. rewrite Hnil in Hlen. simpl in Hlen.
    apply length_zero_iff_nil in Hlen. contradiction.
Qed.

(** ** Extremes of the voltage monotonic fraction *)

Lemma drops_le {F : Type} `{Float64 F} (v : list F) : (drops v <= length v - 1)%nat.
Proof.
  induction v as [|a [|b v] IH]; simpl; try lia.
  simpl in IH. destruct (flt b a); lia.
Qed.

Lemma drops_all {F : Type} `{Float64 F} (v : list F) :
  (1 <= length v)%nat ->
  drops v = (length v - 1)%nat <-> Sorted (fun a b => flt b a = true) v.
Proof.
  induction v as [|a [|b v] IH]; intros Hlen.
  - simpl in Hlen. lia.
  - simpl. split; [intros _; repeat constructor | reflexivity].
  - change (drops (a :: b :: v))
      with ((if flt b a then 1 else 0) + drops (b :: v))%nat.
    pose proof (drops_le (b :: v)) as Hle.
    specialize (IH ltac:(simpl; lia)). simpl length in *.
    split.
    + intros Hd. destruct (flt b a) eqn:E; [|lia].
      constructor; [apply IH; lia | constructor; exact E].
    + intros Hs. inversion Hs as [|? ? Hs' Hhd]; subst. inversion Hhd; subst.
      match goal with Hba : flt b a = true |- _ => rewrite Hba end.
      apply IH in Hs'. lia.
Qed.

Lemma drops_none {F : Type} `{Float64 F} (v : list F) :
  drops v = 0%nat <-> Sorted (fun a b => flt b a = false) v.
Proof.
  induction v as [|a [|b v] IH].
  - simpl. split; [intros _; constructor | reflexivity].
  - simpl. split; [intros _; repeat constructor | reflexivity].
  - change (drops (a :: b :: v))
      with ((if flt b a then 1 else 0) + drops (b :: v))%nat.
    split.
    + intros Hd. destruct (flt b a) eqn:E; [lia|].
      constructor; [apply IH; lia | constructor; exact E].
    + intros Hs. inversion Hs as [|? ? Hs' Hhd]; subst. inversion Hhd; subst.
      match goal with Hba : flt b a = false |- _ => rewrite Hba end.
      apply IH in Hs'. lia.
Qed.

(** X5. For 2 or more voltages the fraction is 1 exactly when every value
    is strictly below its predecessor, and 0 exactly when no value is
    strictly below its predecessor (a NaN voltage breaks the steps it takes
    part in, so a trace with a NaN never reaches 1). *)
Theorem X5_fraction_extremes :
  forall v : list xreal,
    (2 <= length v)%nat ->
    (voltage_monotonic_fraction v = Fin 1
     <-> Sorted (fun a b => flt b a = true) v)
    /\ (voltage_monotonic_fraction v = Fin 0
        <-> Sorted (fun a b => flt b a = false) v)
    /\ (In NaN v -> voltage_monotonic_fraction v <> Fin 1).
Proof.
  intros v Hlen.
  rewrite (voltage_monotonic_fraction_exact v Hlen), negative_steps_drops.
  pose proof (drops_le v) as Hle.
  assert (0 < INR (length v - 1))%R as Hpos by (apply lt_0_INR; lia).
  assert (Fin (INR (drops v) / INR (length v - 1)) = Fin 1
          <-> drops v = (length v - 1)%nat) as H1.
  { split.
    - intros E. inversion E as [E']. apply INR_eq.
      apply (Rmult_eq_compat_r (INR (length v - 1))) in E'.
      unfold Rdiv in E'. rewrite Rmult_assoc, Rinv_l in E' by lra. lra.
    - intros ->. f_equal. field. lra. }
  assert (Fin (INR (drops v) / INR (length v - 1)) = Fin 0
          <-> drops v = 0%nat) as H0.
  { split.
    - intros E. inversion E as [E']. apply INR_eq.
      apply (Rmult_eq_compat_r (INR (length v - 1))) in E'.
      unfold Rdiv in E'. rewrite Rmult_assoc, Rinv_l in E' by lra. simpl. lra.
    - intros ->. f_equal. simpl. field. lra. }
  split; [|split].
  - rewrite H1. apply drops_all. lia.
  - rewrite H0. apply drops_none.
  - intros Hin Hone. apply H1 in Hone. apply drops_all in Hone; [|lia].
    clear -Hin Hone Hlen.
    induction Hone as [|a l Hs IH Hhd]; [contradiction|].
    destruct Hin as [->|Hin].
    + inversion Hhd as [|b l' Hba]; subst; [simpl in Hlen; lia|].
      destruct b; discriminate.
    + destruct l as [|b l]; [contradiction|].
      inversion Hhd as [|b' l' Hba]; subst.
      destruct Hin as [->|Hin]; [discriminate|].
      destruct l as [|c l]; [contradiction|].
      apply IH; [simpl; lia | right; exact Hin].
Qed.

Lemma X5_fraction_extremes_witness :
  voltage_monotonic_fraction [Fin 4; Fin 3; Fin 2] = Fin 1
  /\ voltage_monotonic_fraction [Fin 2; Fin 2; Fin 3] = Fin 0
  /\ voltage_monotonic_fraction [Fin 4; NaN; Fin 2] <> Fin 1.
Proof.
  split; [|split].
  - apply (proj1 (X5_fraction_extremes [Fin 4; Fin 3; Fin 2] ltac:(simpl; lia))).
    repeat constructor; simpl; xcmp; reflexivity.
  - apply (proj1 (proj2 (X5_fraction_extremes [Fin 2; Fin 2; Fin 3] ltac:(simpl; lia)))).
    repeat constructor; simpl; xcmp; reflexivity.
  - apply (proj2 (proj2 (X5_fraction_extremes [Fin 4; NaN; Fin 2] ltac:(simpl; lia)))).
    simpl. auto.
Defined.

(** ** Impedance counters *)

(** X6. Over the exact reals every impedance row falls in exactly one of
    three classes for Re (and likewise for Rct): non-positive, strictly
    positive, or missing (NaN).  Only the first is counted, so a counter of 0
    means "no non-positive value", not "all values positive"; each counter
    is at most the number of rows. *)
Theorem X6_impedance_trichotomy :
  forall imp : list (ImpedanceRow xreal),
    (re_nonpos_count (impedance_positivity imp)
     + length (filter (fun r => flt zero (Re r)) imp)
     + length (filter (fun r => isnan (Re r)) imp)
     = impedance_rows (impedance_positivity imp))%nat
    /\ (rct_nonpos_count (impedance_positivity imp)
        + length (filter (fun r => flt zero (Rct r)) imp)
        + length (filter (fun r => isnan (Rct r)) imp)
        = impedance_rows (impedance_positivity imp))%nat
    /\ (re_nonpos_count (impedance_positivity imp) = 0%nat
        <-> forall r, In r imp -> Re r = NaN \/ exists x, Re r = Fin x /\ (0 < x)%R)
    /\ (rct_nonpos_count (impedance_positivity imp) = 0%nat
        <-> forall r, In r imp -> Rct r = NaN \/ exists x, Rct r = Fin x /\ (0 < x)%R).
Proof.
  intros imp.
  assert (forall col : ImpedanceRow xreal -> xreal,
            (length (filter (fun r => fle (col r) zero) imp)
             + length (filter (fun r => flt zero (col r)) imp)
             + length (filter (fun r => isnan (col r)) imp) = length imp)%nat
            /\ (length (filter (fun r => fle (col r) zero) imp) = 0%nat
                <-> forall r, In r imp ->
                      col r = NaN \/ exists x, col r = Fin x /\ (0 < x)%R)) as Hcol.
  { intros col. induction imp as [|r imp [IH1 IH2]].
    - simpl. split; [reflexivity|]. split; [intros _ r [] | reflexivity].
    - cbn [filter]. unfold zero in *. simpl in IH1, IH2 |- *.
      destruct (col r) as [|x] eqn:E; simpl.
      + split; [lia|]. rewrite IH2. split.
        * intros Hall r' [<-|Hr']; [left; exact E | apply Hall; exact Hr'].
        * intros Hall r' Hr'. apply Hall. right. exact Hr'.
      + destruct (Rle_dec x 0) as [Hle|Hgt], (Rlt_dec 0 x) as [Hlt|Hnlt];
          try lra; simpl.
        * split; [lia|]. split; [discriminate|].
          intros Hall. destruct (Hall r (or_introl eq_refl)) as [En|[x' [Ex Hx]]];
            rewrite E in *; [discriminate | inversion Ex; lra].
        * split; [lia|]. rewrite IH2. split.
          -- intros Hall r' [<-|Hr']; [right; exists x; split; [exact E | lra] | apply Hall; exact Hr'].
          -- intros Hall r' Hr'. apply Hall. right. exact Hr'. }
  unfold impedance_positivity. simpl.
  destruct (Hcol Re) as [A1 A2], (Hcol Rct) as [B1 B2].
  repeat split; try assumption; try (apply A2); try (apply B2).
Qed.

(** ** The rank correlation depends on its inputs through their order *)

Lemma xmul_comm (a b : xreal) : fmul a b = fmul b a.
Proof. destruct a, b; simpl; try reflexivity. f_equal. lra. Qed.

Lemma products_comm (a b : list xreal) :
  map (fun p => fmul (fst p) (snd p)) (combine a b)
  = map (fun p => fmul (fst p) (snd p)) (combine b a).
Proof.
  revert b. induction a as [|x a IH]; intros [|y b]; simpl; try reflexivity.
  rewrite IH. f_equal. change (xlift2 Rmult x y) with (fmul x y). apply xmul_comm.
Qed.

(** X7. On arrays of equal length the estimator is symmetric in its two
    arguments (exact arithmetic, NaN inputs included). *)
Theorem X7_spearman_symmetric :
  forall x y : list xreal,
    length x = length y -> spearman_corr x y = spearman_corr y x.
Proof.
  intros x y Hl. rewrite !spearman_corr_unfold, Hl.
  assert (denominator x y = denominator y x) as ->
    by (unfold denominator; rewrite xmul_comm; reflexivity).
  assert (length (centred_ranks x) = length (centred_ranks y)) as Hc
    by (unfold centred_ranks, rank_average; rewrite !length_map; exact Hl).
  rewrite (multiply_same_length _ _ Hc), (multiply_same_length _ _ (eq_sym Hc)).
  rewrite products_comm. reflexivity.
Qed.

Lemma X7_spearman_symmetric_witness :
  spearman_corr [Fin 1; Fin 2; Fin 3] [Fin 5; NaN; Fin 4]
  = spearman_corr [Fin 5; NaN; Fin 4] [Fin 1; Fin 2; Fin 3].
Proof. apply X7_spearman_symmetric. reflexivity. Defined.

Lemma spearman_corr_via_ranks {F : Type} `{Float64 F} (x y y' : list F) :
  centred_ranks y = centred_ranks y' -> spearman_corr x y = spearman_corr x y'.
Proof.
  intros Hc. rewrite !spearman_corr_unfold. unfold denominator. rewrite Hc. reflexivity.
Qed.

Lemma filter_length_map {A B : Type} (f : A -> B) (p : B -> bool) (q : A -> bool) (l : list A) :
  (forall a, In a l -> p (f a) = q a) ->
  length (filter p (map f l)) = length (filter q l).
Proof.
  induction l as [|a l IH]; simpl; intros Hpq; [reflexivity|].
  rewrite (Hpq a (or_introl eq_refl)).
  destruct (q a); simpl; rewrite IH; auto.
Qed.

Lemma rankR_increasing_map (f : R -> R) (ys : list R) (v : R) :
  (forall a b, (a < b)%R -> (f a < f b)%R) ->
  rankR (map f ys) (f v) = rankR ys v.
Proof.
  intros Hf.
  assert (forall a b, (f a < f b)%R -> (a < b)%R) as Hinv.
  { intros a b Hab. destruct (Rlt_dec a b) as [|Hn]; [assumption|].
    destruct (Req_dec_T a b) as [->|Hne]; [lra|].
    assert (b < a)%R as Hba by lra. apply Hf in Hba. lra. }
  unfold rankR, count_ltR, count_eqR.
  rewrite (filter_length_map f _ (fun w => if Rlt_dec w v then true else false)).
  rewrite (filter_length_map f _ (fun w => if Req_dec_T w v then true else false)).
  - reflexivity.
  - intros a _. destruct (Req_dec_T (f a) (f v)) as [E|E], (Req_dec_T a v) as [E'|E'];
      try reflexivity.
    + exfalso. destruct (Rlt_dec a v) as [L|L].
      * apply Hf in L. lra.
      * assert (v < a)%R as L' by lra. apply Hf in L'. lra.
    + subst. congruence.
  - intros a _. destruct (Rlt_dec (f a) (f v)) as [L|L], (Rlt_dec a v) as [L'|L'];
      try reflexivity.
    + apply Hinv in L. contradiction.
    + apply Hf in L'. contradiction.
Qed.

Lemma count_trichotomy (v : R) (xs : list R) :
  (count_ltR v xs + count_eqR v xs + count_gtR v xs = length xs)%nat.
Proof.
  unfold count_ltR, count_eqR, count_gtR.
  induction xs as [|w xs IH]; simpl; [reflexivity|].
  destruct (Rlt_dec w v), (Req_dec_T w v), (Rlt_dec v w); simpl; try lra; lia.
Qed.

Lemma rankR_decreasing_map (f : R -> R) (ys : list R) (v : R) :
  (forall a b, (a < b)%R -> (f b < f a)%R) ->
  rankR (map f ys) (f v) = (INR (length ys) + 1 - rankR ys v)%R.
Proof.
  intros Hf.
  assert (forall a b, (f a < f b)%R -> (b < a)%R) as Hinv.
  { intros a b Hab. destruct (Rlt_dec b a) as [|Hn]; [assumption|].
    destruct (Req_dec_T a b) as [->|Hne]; [lra|].
    assert (a < b)%R as Hba by lra. apply Hf in Hba. lra. }
  pose proof (count_trichotomy v ys) as Htri.
  unfold rankR. unfold count_ltR at 1. unfold count_eqR at 1.
  rewrite (filter_length_map f _ (fun w => if Rlt_dec v w then true else false)).
  rewrite (filter_length_map f _ (fun w => if Req_dec_T w v then true else false)).
  - fold (count_gtR v ys). fold (count_eqR v ys).
    rewrite <- Htri, !plus_INR. lra.
  - intros a _. destruct (Req_dec_T (f a) (f v)) as [E|E], (Req_dec_T a v) as [E'|E'];
      try reflexivity.
    + exfalso. destruct (Rlt_dec a v) as [L|L].
      * apply Hf in L. lra.
      * assert (v < a)%R as L' by lra. apply Hf in L'. lra.
    + subst. congruence.
  - intros a _. destruct (Rlt_dec (f a) (f v)) as [L|L], (Rlt_dec v a) as [L'|L'];
      try reflexivity.
    + apply Hinv in L. contradiction.
    + apply Hf in L'. contradiction.
Qed.

Lemma cranksR_increasing_map (f : R -> R) (ys : list R) :
  (forall a b, (a < b)%R -> (f a < f b)%R) ->
  cranksR (map f ys) = cranksR ys.
Proof.
  intros Hf. unfold cranksR. f_equal. rewrite map_map.
  apply map_ext. intros v. apply rankR_increasing_map. exact Hf.
Qed.

Lemma cranksR_decreasing_map (f : R -> R) (ys : list R) :
  (forall a b, (a < b)%R -> (f b < f a)%R) ->
  cranksR (map f ys) = map Ropp (cranksR ys).
Proof.
  intros Hf. destruct ys as [|y ys]; [reflexivity|].
  unfold cranksR. rewrite map_map.
  rewrite (map_ext _ (fun v => INR (length (y :: ys)) + 1 - rankR (y :: ys) v)%R)
    by (intros v; apply rankR_decreasing_map; exact Hf).
  rewrite <- (map_map (rankR (y :: ys)) (fun r => INR (length (y :: ys)) + 1 - r)%R).
  apply centreR_reflect. discriminate.
Qed.

(** X8. The indicator sees the capacities only through their order: applying
    any strictly increasing function to one argument (a change of unit, an
    offset, a logarithm) leaves the result unchanged. *)
Theorem X8_spearman_monotone_invariant :
  forall (f : R -> R) (x : list xreal) (ys : list R),
    (forall a b, (a < b)%R -> (f a < f b)%R) ->
    spearman_corr x (map Fin (map f ys)) = spearman_corr x (map Fin ys).
Proof.
  intros f x ys Hf. apply spearman_corr_via_ranks.
  destruct ys as [|y ys]; [reflexivity|].
  rewrite !centred_ranks_Fin by discriminate.
  f_equal. apply (cranksR_increasing_map f (y :: ys) Hf).
Qed.

Lemma X8_spearman_monotone_invariant_witness :
  spearman_corr [Fin 1; Fin 2; Fin 3; NaN]
                (map Fin (map (fun c => 1000 * c + 5)%R [2; 1; 3; 4]%R))
  = spearman_corr [Fin 1; Fin 2; Fin 3; NaN] (map Fin [2; 1; 3; 4]%R).
Proof.
  apply (X8_spearman_monotone_invariant (fun c => 1000 * c + 5)%R).
  intros a b Hab. lra.
Defined.

(** X9. Applying a strictly decreasing function to one argument of NaN-free
    arrays of equal length flips the sign of the result (and keeps a NaN
    result NaN). *)
Theorem X9_spearman_antitone_flips_sign :
  forall (f : R -> R) (xs ys : list R),
    length xs = length ys ->
    (forall a b, (a < b)%R -> (f b < f a)%R) ->
    spearman_corr (map Fin xs) (map Fin (map f ys))
    = (v <- spearman_corr (map Fin xs) (map Fin ys) ;; Ok (xopp v)).
Proof.
  intros f xs ys Hl Hf.
  destruct (Nat.lt_ge_cases (length xs) 3) as [Hlt|Hge].
  - rewrite !spearman_corr_unfold, !length_map.
    apply Nat.ltb_lt in Hlt. rewrite Hlt. reflexivity.
  - destruct (spearman_corr_exact xs (map f ys)) as [_ ->];
      [rewrite length_map; exact Hl | exact Hge |].
    destruct (spearman_corr_exact xs ys Hl Hge) as [_ ->].
    assert (rank_ss (map f ys) = rank_ss ys) as ->
      by (unfold rank_ss; rewrite (cranksR_decreasing_map f ys Hf); apply dotR_opp_opp).
    rewrite (cranksR_decreasing_map f ys Hf).
    assert (forall a b, length a = length b -> dotR a (map Ropp b) = (- dotR a b)%R) as Hopp.
    { clear. unfold dotR. induction a as [|x a IH]; intros [|y b] Hl; simpl in *;
        try discriminate; [lra|].
      rewrite IH by lia. lra. }
    rewrite Hopp by (rewrite !cranksR_length; exact Hl).
    destruct (Req_dec_T _ 0); [reflexivity|].
    simpl. do 2 f_equal. field. assumption.
Qed.

Lemma X9_spearman_antitone_witness :
  spearman_corr (map Fin [1; 2; 3]%R) (map Fin (map Ropp [5; 7; 6]%R))
  = (v <- spearman_corr (map Fin [1; 2; 3]%R) (map Fin [5; 7; 6]%R) ;; Ok (xopp v)).
Proof.
  apply (X9_spearman_antitone_flips_sign Ropp); [reflexivity|].
  intros a b Hab. lra.
Defined.

(** ** Average ranks *)

Lemma count_lt_exact (v : R) (a : list xreal) :
  count_lt (Fin v) a = count_ltR v (finite_values a).
Proof.
  unfold count_lt, count_ltR. induction a as [|[|w] a IH]; [reflexivity | exact IH |].
  simpl in *. destruct (Rlt_dec w v); simpl; rewrite IH; reflexivity.
Qed.

Lemma count_eq_exact (v : R) (a : list xreal) :
  count_eq (Fin v) a = count_eqR v (finite_values a).
Proof.
  unfold count_eq, count_eqR. induction a as [|[|w] a IH]; [reflexivity | exact IH |].
  simpl in *. destruct (Req_dec_T w v); simpl; rewrite IH; reflexivity.
Qed.

Lemma finite_values_In (a : list xreal) (v : R) : In (Fin v) a <-> In v (finite_values a).
Proof.
  induction a as [|[|w] a IH]; simpl.
  - tauto.
  - rewrite <- IH. split; [intros [E|Hin]; [discriminate | exact Hin] | auto].
  - rewrite <- IH. split; intros [E|Hin]; auto; left; congruence.
Qed.

Lemma finite_values_Fin (rs : list R) : finite_values (map Fin rs) = rs.
Proof. induction rs as [|r rs IH]; simpl; congruence. Qed.

Lemma rank_of_exact (a : list xreal) (v : R) :
  In (Fin v) a -> rank_of a (Fin v) = Fin (rankR (finite_values a) v).
Proof.
  intros Hin. apply finite_values_In in Hin.
  rewrite <- (rank_of_Fin (finite_values a) v Hin).
  unfold rank_of. cbn [isnan exact_arith xisnan].
  rewrite !count_lt_exact, !count_eq_exact, finite_values_Fin.
  reflexivity.
Qed.

Lemma count_below (u v : R) (xs : list R) :
  (u < v)%R -> (count_ltR u xs + count_eqR u xs <= count_ltR v xs)%nat.
Proof.
  intros Huv. unfold count_ltR, count_eqR.
  induction xs as [|w xs IH]; simpl; [lia|].
  destruct (Rlt_dec w u), (Req_dec_T w u), (Rlt_dec w v); simpl; try lra; lia.
Qed.

Lemma double_count {A B : Type} (f : A -> B -> bool) (l1 : list A) (l2 : list B) :
  list_sum (map (fun b => length (filter (fun a => f a b) l1)) l2)
  = list_sum (map (fun a => length (filter (fun b => f a b) l2)) l1).
Proof.
  induction l1 as [|a l1 IH]; simpl.
  - induction l2 as [|b l2 IH2]; simpl; [reflexivity | exact IH2].
  - rewrite <- IH, (filter_length_sum (fun b => f a b) l2), <- list_sum_map_add.
    f_equal. apply map_ext. intros b. destruct (f a b); reflexivity.
Qed.

Lemma Rsum_INR (g : R -> nat) (xs : list R) :
  Rsum (map (fun v => INR (g v)) xs) = INR (list_sum (map g xs)).
Proof.
  induction xs as [|x xs IH]; simpl; [reflexivity|].
  fold (Rsum (map (fun v => INR (g v)) xs)). rewrite IH, plus_INR. reflexivity.
Qed.

Lemma Rsum_map_plus (f g : R -> R) (xs : list R) :
  Rsum (map (fun v => f v + g v)%R xs) = (Rsum (map f xs) + Rsum (map g xs))%R.
Proof. induction xs as [|x xs IH]; simpl in *; lra. Qed.

Lemma Rsum_map_scale (c : R) (f : R -> R) (xs : list R) :
  Rsum (map (fun v => c * f v)%R xs) = (c * Rsum (map f xs))%R.
Proof. induction xs as [|x xs IH]; simpl in *; lra. Qed.

Lemma Rsum_const (c : R) (xs : list R) :
  Rsum (map (fun _ => c) xs) = (INR (length xs) * c)%R.
Proof.
  induction xs as [|x xs IH]; [simpl; lra|].
  cbn [map Rsum fold_right length]. fold (Rsum (map (fun _ : R => c) xs)).
  rewrite IH, S_INR. lra.
Qed.

Lemma rank_sum (xs : list R) :
  Rsum (map (rankR xs) xs) = (INR (length xs) * (INR (length xs) + 1) / 2)%R.
Proof.
  set (n := length xs).
  assert (list_sum (map (fun v => count_ltR v xs) xs)
          = list_sum (map (fun v => count_gtR v xs) xs)) as Hswap.
  { unfold count_ltR, count_gtR.
    apply (double_count (fun w v => if Rlt_dec w v then true else false) xs xs). }
  assert (list_sum (map (fun v => count_ltR v xs) xs)
          + list_sum (map (fun v => count_eqR v xs) xs)
          + list_sum (map (fun v => count_gtR v xs) xs) = n * n)%nat as Htot.
  { rewrite <- !list_sum_map_add.
    rewrite (map_ext _ (fun _ => n)) by (intros v; apply count_trichotomy).
    assert (forall m, list_sum (map (fun _ : R => m) xs) = (length xs * m)%nat) as Hc
      by (intros m; clear; induction xs as [|x xs IH]; simpl; [reflexivity | rewrite IH; lia]).
    rewrite Hc. reflexivity. }
  rewrite (map_ext (rankR xs)
             (fun v => INR (count_ltR v xs)
                       + (/ 2 * INR (count_eqR v xs) + / 2))%R)
    by (intros v; unfold rankR; lra).
  rewrite Rsum_map_plus, (Rsum_map_plus (fun v => / 2 * INR (count_eqR v xs))%R).
  rewrite (Rsum_map_scale (/ 2) (fun v => INR (count_eqR v xs))).
  rewrite !Rsum_INR, Rsum_const. fold n.
  apply (f_equal INR) in Htot. rewrite !plus_INR, mult_INR in Htot.
  rewrite <- Hswap in Htot. lra.
Qed.

(** X10. Average ranking: a NaN keeps the rank NaN and is invisible to the
    ranks of the other values; among the n non-NaN values equal values
    receive equal ranks, a smaller value a strictly smaller rank, every rank
    lies between 1 and n, and the ranks always add up to n(n+1)/2 (ties
    share the positions they occupy). *)
Theorem X10_average_ranks :
  forall a : list xreal,
    rank_average a
    = map (fun v => match v with
                    | NaN => NaN
                    | Fin r => Fin (rankR (finite_values a) r)
                    end) a
    /\ (forall u v, In u (finite_values a) -> In v (finite_values a) -> (u < v)%R ->
          (rankR (finite_values a) u < rankR (finite_values a) v)%R)
    /\ (forall v, In v (finite_values a) ->
          (1 <= rankR (finite_values a) v <= INR (length (finite_values a)))%R)
    /\ Rsum (map (rankR (finite_values a)) (finite_values a))
       = (INR (length (finite_values a)) * (INR (length (finite_values a)) + 1) / 2)%R.
Proof.
  intros a. split; [|split; [|split]].
  - unfold rank_average. apply map_ext_in. intros [|r] Hin; [reflexivity|].
    apply rank_of_exact. exact Hin.
  - intros u v Hu Hv Huv. unfold rankR.
    pose proof (count_below u v (finite_values a) Huv) as Hb.
    pose proof (count_eqR_pos u _ Hu) as Hu1. pose proof (count_eqR_pos v _ Hv) as Hv1.
    apply le_INR in Hb, Hu1, Hv1. rewrite plus_INR in Hb. simpl in Hu1, Hv1. lra.
  - intros v Hv. unfold rankR.
    pose proof (count_trichotomy v (finite_values a)) as Htri.
    pose proof (count_eqR_pos v _ Hv) as Hv1.
    apply (f_equal INR) in Htri. rewrite !plus_INR in Htri.
    apply le_INR in Hv1. simpl in Hv1.
    pose proof (pos_INR (count_ltR v (finite_values a))).
    pose proof (pos_INR (count_gtR v (finite_values a))). lra.
  - apply rank_sum.
Qed.

(** ** The summary table on the per-cycle table *)

Lemma NoDup_cycles_of_cell {F : Type} (stats : list (CycleStats F)) (c : string) :
  NoDup (map stats_key stats) ->
  NoDup (map cs_cycle_index (filter (fun r => String.eqb (cs_cell_id r) c) stats)).
Proof.
  induction stats as [|r stats IH]; simpl; intros Hnd; [constructor|].
  inversion Hnd as [|? ? Hnin Hnd']; subst.
  destruct (String.eqb (cs_cell_id r) c) eqn:E; [|apply IH; exact Hnd'].
  simpl. constructor; [|apply IH; exact Hnd'].
  intros Hin. apply in_map_iff in Hin. destruct Hin as [r' [Hcyc Hr']].
  apply filter_In in Hr'. destruct Hr' as [Hr' E'].
  apply String.eqb_eq in E, E'. apply Hnin. apply in_map_iff.
  exists r'. split; [|exact Hr']. unfold stats_key. congruence.
Qed.

Lemma partitions_nil_iff {F : Type} (meas_dis : list (Sample F)) :
  partitions meas_dis = [] <-> meas_dis = [].
Proof.
  split.
  - intros Hnil. destruct meas_dis as [|s meas]; [reflexivity|]. exfalso.
    destruct (partitions_spec (s :: meas)) as [_ [_ [Hk _]]].
    assert (In (sample_key s) (map fst (partitions (s :: meas)))) as Hin
      by (apply Hk; exists s; split; [left; reflexivity | reflexivity]).
    rewrite Hnil in Hin. contradiction.
  - intros ->. reflexivity.
Qed.

Lemma stats_nil_iff {F : Type} `{Float64 F} (meas_dis : list (Sample F)) stats :
  discharge_cycle_level_stats meas_dis = Ok stats ->
  stats = [] <-> meas_dis = [].
Proof.
  intros Hs. destruct (stats_sizes_sum meas_dis stats Hs) as [_ Hlen].
  rewrite <- partitions_nil_iff. split; intros E.
  - rewrite E in Hlen. simpl in Hlen. symmetry in Hlen.
    apply length_zero_iff_nil in Hlen. exact Hlen.
  - rewrite E in Hlen. simpl in Hlen. apply length_zero_iff_nil in Hlen. exact Hlen.
Qed.

Lemma summary_rows_follow_groups {F : Type} `{Float64 F}
    (cycle_stats : list (CycleStats F)) meas_dis imp rows :
  build_cell_summary_table cycle_stats meas_dis imp = Done rows ->
  Forall2 (fun g r =>
             Cell r = fst g
             /\ N_discharge_cycles r
                = length (nodup Z.eq_dec
                            (map cs_cycle_index (sort_values cs_cycle_index (snd g))))
             /\ spearman_corr
                  (map (fun x => of_Z (cs_cycle_index x)) (sort_values cs_cycle_index (snd g)))
                  (map cap_max_Ah (sort_values cs_cycle_index (snd g)))
                = Ok (capacity_cycle_monotonicity_indicator r))
          (groupby String.eqb String.ltb cs_cell_id cycle_stats) rows.
Proof.
  intros Hrows. apply build_cell_summary_table_Done in Hrows.
  destruct Hrows as [_ Hrows]. apply mapM_Forall2 in Hrows.
  eapply Forall2_impl; [|exact Hrows]. intros g r Hrow. simpl in Hrow.
  unfold summary_row in Hrow.
  destruct (spearman_corr _ _) as [v|e] eqn:Ev; simpl in Hrow; [|discriminate].
  inversion Hrow; subst; simpl. auto.
Qed.

Lemma Forall2_map_eq {A B C : Type} (f : A -> C) (g : B -> C) (l1 : list A) (l2 : list B) :
  Forall2 (fun a b => g b = f a) l1 l2 -> map g l2 = map f l1.
Proof. induction 1; simpl; congruence. Qed.

Lemma Forall2_In_r {A B : Type} (P : A -> B -> Prop) (l1 : list A) (l2 : list B) (b : B) :
  Forall2 P l1 l2 -> In b l2 -> exists a, In a l1 /\ P a b.
Proof.
  induction 1 as [|a0 b0 l1 l2 Hab _ IH]; simpl; [contradiction|].
  intros [<-|Hin]; [exists a0; auto|].
  destruct (IH Hin) as [a [Ha Hp]]. exists a. auto.
Qed.

Lemma summary_on_stats {F : Type} `{Float64 F} (meas_dis : list (Sample F))
    (imp : list (ImpedanceRow F)) (stats : list (CycleStats F))
    (rows : list (CellSummary F)) :
  discharge_cycle_level_stats meas_dis = Ok stats ->
  build_cell_summary_table stats meas_dis imp = Done rows ->
  NoDup (map Cell rows)
    /\ StronglySorted (fun a b => String.ltb a b = true) (map Cell rows)
    /\ (forall c, In c (map Cell rows) <-> exists s, In s meas_dis /\ cell_id s = c)
    /\ (forall r, In r rows ->
          N_discharge_cycles r
          = length (filter (fun x => String.eqb (cs_cell_id x) (Cell r)) stats)
          /\ (1 <= N_discharge_cycles r)%nat
          /\ ((N_discharge_cycles r < 3)%nat ->
              capacity_cycle_monotonicity_indicator r = nan))
    /\ list_sum (map N_discharge_cycles rows) = length stats.
Proof.
  intros Hs Hrows.
  destruct (partitions_spec meas_dis) as [Hnd [_ [Hkeys _]]].
  rewrite <- (stats_keys meas_dis stats Hs) in Hnd, Hkeys.
  pose proof (summary_rows_follow_groups _ _ _ _ Hrows) as Hf.
  set (groups := groupby String.eqb String.ltb cs_cell_id stats) in *.
  assert (map Cell rows = group_keys String.eqb String.ltb cs_cell_id stats) as Hcells.
  { rewrite <- (groupby_keys String.eqb String.ltb cs_cell_id stats).
    apply Forall2_map_eq. eapply Forall2_impl; [|exact Hf]. simpl. tauto. }
  assert (forall (g : string * list (CycleStats F)) (r : CellSummary F), In g groups ->
            Cell r = fst g ->
            N_discharge_cycles r
            = length (nodup Z.eq_dec
                        (map cs_cycle_index (sort_values cs_cycle_index (snd g)))) ->
            N_discharge_cycles r
            = length (filter (fun x => String.eqb (cs_cell_id x) (Cell r)) stats)
            /\ N_discharge_cycles r = length (snd g)
            /\ (1 <= N_discharge_cycles r)%nat) as Hcount.
  { intros [c g] r Hg Hc Hn. simpl in Hc, Hn. subst c.
    pose proof (groupby_nonempty String.eqb String.ltb cs_cell_id String.eqb_eq _ _ _ Hg) as Hne.
    apply groupby_In in Hg; [|apply String.eqb_eq]. destruct Hg as [Hgeq _].
    rewrite nodup_fixed_point in Hn.
    - rewrite length_map, sort_values_length in Hn. simpl. rewrite Hn, <- Hgeq.
      split; [reflexivity|]. split; [reflexivity|].
      destruct g; [congruence | simpl; lia].
    - eapply Permutation_NoDup;
        [apply Permutation_map, sort_values_perm|].
      rewrite Hgeq. apply NoDup_cycles_of_cell. exact Hnd. }
  rewrite Hcells.
  split; [apply group_keys_NoDup;
          [apply String.eqb_eq | apply string_ltb_irrefl
           | apply string_ltb_trans | apply string_ltb_total]|].
  split; [apply group_keys_ascending;
          [apply String.eqb_eq | apply string_ltb_trans | apply string_ltb_total]|].
  split; [|split].
  - intros c. rewrite group_keys_In by apply String.eqb_eq. rewrite in_map_iff. split.
    + intros [r [Hc Hr]].
      assert (In (stats_key r) (map stats_key stats)) as Hk by (apply in_map; exact Hr).
      apply Hkeys in Hk. destruct Hk as [s [Hin Hsk]]. exists s. split; [exact Hin|].
      unfold sample_key, stats_key in Hsk. inversion Hsk. congruence.
    + intros [s [Hin Hc]].
      assert (In (sample_key s) (map stats_key stats)) as Hk
        by (apply Hkeys; exists s; auto).
      apply in_map_iff in Hk. destruct Hk as [r [Hrk Hr]]. exists r. split; [|exact Hr].
      unfold sample_key, stats_key in Hrk. inversion Hrk. congruence.
  - intros r Hr. destruct (Forall2_In_r _ _ _ _ Hf Hr) as [g [Hg [Hc [Hn Hcorr]]]].
    destruct (Hcount g r Hg Hc Hn) as [H1 [H2 H3]].
    split; [exact H1|]. split; [exact H3|].
    intros Hlt. rewrite spearman_corr_unfold in Hcorr.
    rewrite length_map, sort_values_length, <- H2 in Hcorr.
    apply Nat.ltb_lt in Hlt. rewrite Hlt in Hcorr. inversion Hcorr. reflexivity.
  - rewrite <- (group_sizes_sum String.eqb cs_cell_id String.eqb_eq
                  (group_keys String.eqb String.ltb cs_cell_id stats) stats).
    + rewrite <- Hcells, map_map.
      f_equal. apply map_ext_in. intros r Hr.
      destruct (Forall2_In_r _ _ _ _ Hf Hr) as [g [Hg [Hc [Hn _]]]].
      destruct (Hcount g r Hg Hc Hn) as [H1 _]. exact H1.
    + apply group_keys_NoDup;
        [apply String.eqb_eq | apply string_ltb_irrefl
         | apply string_ltb_trans | apply string_ltb_total].
    + intros r Hr. apply group_keys_In; [apply String.eqb_eq|]. apply in_map. exact Hr.
Qed.

(** X11. Run on the per-cycle table of a discharge dataset: with no
    discharge sample that table is empty and the summary raises the KeyError
    of grouping it by "cell_id"; with one or more the summary table is
    produced and has exactly one row per entity that has a discharge sample,
    in ascending entity order; a row's number of discharge cycles is the
    number of per-cycle records of its entity, these numbers add up to the
    number of records, and an entity with fewer than 3 cycles gets the NaN
    indicator. *)
Theorem X11_summary_rows_per_entity :
  forall (F : Type) (FL : Float64 F) (meas_dis : list (Sample F))
         (imp : list (ImpedanceRow F)),
  exists stats,
    discharge_cycle_level_stats meas_dis = Ok stats
    /\ (meas_dis = [] ->
        stats = []
        /\ build_cell_summary_table stats meas_dis imp = Failed (KeyError "cell_id"))
    /\ (meas_dis <> [] ->
        exists rows,
          build_cell_summary_table stats meas_dis imp = Done rows
          /\ NoDup (map Cell rows)
          /\ StronglySorted (fun a b => String.ltb a b = true) (map Cell rows)
          /\ (forall c, In c (map Cell rows) <-> exists s, In s meas_dis /\ cell_id s = c)
          /\ (forall r, In r rows ->
                N_discharge_cycles r
                = length (filter (fun x => String.eqb (cs_cell_id x) (Cell r)) stats)
                /\ (1 <= N_discharge_cycles r)%nat
                /\ ((N_discharge_cycles r < 3)%nat ->
                    capacity_cycle_monotonicity_indicator r = nan))
          /\ list_sum (map N_discharge_cycles rows) = length stats).
Proof.
  intros F FL meas_dis imp.
  destruct (discharge_cycle_level_stats_total meas_dis) as [stats Hs].
  exists stats. split; [exact Hs|].
  pose proof (stats_nil_iff meas_dis stats Hs) as Hnil.
  split.
  - intros E. apply Hnil in E. subst stats. split; reflexivity.
  - intros Hne.
    destruct (build_cell_summary_table_total stats meas_dis imp) as [rows Hrows].
    { intros E. apply Hne. apply Hnil. exact E. }
    exists rows. split; [exact Hrows|].
    apply (summary_on_stats meas_dis imp stats rows Hs Hrows).
Qed.

(** ** The representative cycle is a partition of the per-cycle table *)

Lemma groupby_In_key {A K : Type} (key_eqb key_ltb : K -> K -> bool) (key : A -> K)
    (df : list A) (k : K) :
  In k (group_keys key_eqb key_ltb key df) ->
  In (k, filter (fun r => key_eqb (key r) k) df) (groupby key_eqb key_ltb key df).
Proof.
  intros Hin. unfold groupby.
  apply (in_map (fun k => (k, filter (fun r => key_eqb (key r) k) df))). exact Hin.
Qed.

Lemma Forall2_In_l {A B : Type} (P : A -> B -> Prop) (l1 : list A) (l2 : list B) (a : A) :
  Forall2 P l1 l2 -> In a l1 -> exists b, In b l2 /\ P a b.
Proof.
  induction 1 as [|a0 b0 l1 l2 Hab _ IH]; simpl; [contradiction|].
  intros [<-|Hin]; [exists b0; auto|].
  destruct (IH Hin) as [b [Hb Hp]]. exists b. auto.
Qed.

Lemma pick_is_partition {F : Type} `{Float64 F} (meas_dis : list (Sample F))
    (cell : string) (idx : Z) (cyc : list (Sample F)) :
    pick_representative_discharge_cycle meas_dis cell = Ok (idx, cyc) ->
    cyc = sort_values t_index (partition_of meas_dis (cell, idx))
    /\ In ((cell, idx), partition_of meas_dis (cell, idx)) (partitions meas_dis)
    /\ cyc <> []
    /\ exists stats r,
         discharge_cycle_level_stats meas_dis = Ok stats
         /\ In r stats /\ stats_key r = (cell, idx)
         /\ n_samples r = length cyc
         /\ forall r', In r' stats -> cs_cell_id r' = cell ->
                       (idx <= cs_cycle_index r')%Z.
Proof.
  intros Hpick.
  unfold pick_representative_discharge_cycle in Hpick.
  destruct (filter (fun s => String.eqb (cell_id s) cell) meas_dis) as [|s0 rest] eqn:Esub;
    [discriminate|].
  injection Hpick as Hidx Hcyc.
  assert (forall s, In s (s0 :: rest) <-> In s meas_dis /\ cell_id s = cell) as Hsub.
  { intros s. rewrite <- Esub, filter_In, String.eqb_eq. tauto. }
  assert (cyc = sort_values t_index (partition_of meas_dis (cell, idx))) as Hc.
  { rewrite <- Hcyc, Hidx.
    change (sort_values t_index
              (filter (fun r : Sample F => (cycle_index r =? idx)%Z) (s0 :: rest))
            = sort_values t_index (partition_of meas_dis (cell, idx))).
    rewrite <- Esub, filter_filter_andb. reflexivity. }
  assert (exists s, In s meas_dis /\ sample_key s = (cell, idx)) as [s1 [Hs1 Hk1]].
  { pose proof (min_of_In (cycle_index s0) (map cycle_index rest)) as Hin.
    rewrite Hidx in Hin.
    change (cycle_index s0 :: map cycle_index rest)
      with (map cycle_index (s0 :: rest)) in Hin.
    apply in_map_iff in Hin. destruct Hin as [s [Hs Hin]].
    apply Hsub in Hin. destruct Hin as [Hin Hcell].
    exists s. split; [exact Hin|]. unfold sample_key. congruence. }
  assert (forall s, In s meas_dis -> cell_id s = cell -> (idx <= cycle_index s)%Z) as Hmin.
  { intros s Hin Hcell.
    assert (In s (s0 :: rest)) as Hin' by (apply Hsub; auto).
    destruct (min_of_le (cycle_index s0) (map cycle_index rest)) as [H0 Hall].
    rewrite Hidx in H0, Hall. destruct Hin' as [->|Hin']; [exact H0|].
    rewrite Forall_forall in Hall. apply Hall. apply in_map. exact Hin'. }
  destruct (partitions_spec meas_dis) as [_ [_ [Hkeys _]]].
  assert (In ((cell, idx), partition_of meas_dis (cell, idx)) (partitions meas_dis)) as Hpart.
  { apply groupby_In_key. rewrite <- groupby_keys. apply Hkeys. exists s1. auto. }
  assert (partition_of meas_dis (cell, idx) <> []) as Hne
    by (eapply partitions_nonempty; exact Hpart).
  split; [exact Hc|]. split; [exact Hpart|]. split.
  { rewrite Hc. intros Hnil. apply (f_equal (@length (Sample F))) in Hnil.
    rewrite sort_values_length in Hnil. apply length_zero_iff_nil in Hnil. contradiction. }
  destruct (discharge_cycle_level_stats_total meas_dis) as [stats Hs].
  pose proof (stats_follow_partitions meas_dis stats Hs) as Hf.
  destruct (Forall2_In_l _ _ _ _ Hf Hpart) as [r [Hr [H1 [H2 H3]]]]. simpl in H1, H2, H3.
  exists stats, r. split; [exact Hs|]. split; [exact Hr|].
  split; [unfold stats_key; congruence|].
  split; [rewrite H3, Hc, sort_values_length; reflexivity|].
  intros r' Hr' Hcell.
  assert (In (stats_key r') (map fst (partitions meas_dis))) as Hk
    by (rewrite <- (stats_keys meas_dis stats Hs); apply in_map; exact Hr').
  apply Hkeys in Hk. destruct Hk as [s [Hin Hsk]].
  unfold sample_key, stats_key in Hsk. injection Hsk as Hc1 Hc2.
  rewrite <- Hc2. apply Hmin; [exact Hin | congruence].
Qed.

(** X12. When the selector succeeds, the cycle it returns is one of the
    partitions of the dataset, sorted by time index: the partition of the
    requested entity and the returned cycle index.  The per-cycle table has a
    record for it whose sample count is the length of the returned cycle,
    and no record of that entity has a smaller cycle index. *)
Theorem X12_representative_is_a_partition :
  forall (F : Type) (FL : Float64 F) (meas_dis : list (Sample F))
         (cell : string) (idx : Z) (cyc : list (Sample F)),
    pick_representative_discharge_cycle meas_dis cell = Ok (idx, cyc) ->
    cyc = sort_values t_index (partition_of meas_dis (cell, idx))
    /\ In ((cell, idx), partition_of meas_dis (cell, idx)) (partitions meas_dis)
    /\ cyc <> []
    /\ exists stats r,
         discharge_cycle_level_stats meas_dis = Ok stats
         /\ In r stats /\ stats_key r = (cell, idx)
         /\ n_samples r = length cyc
         /\ forall r', In r' stats -> cs_cell_id r' = cell ->
                       (idx <= cs_cycle_index r')%Z.
Proof.
  intros F FL meas_dis cell idx cyc Hpick. apply pick_is_partition. exact Hpick.
Qed.

(** ** The violation count does not depend on the row order of the dataset *)

Lemma ascending_unique {K : Type} (lt : K -> K -> Prop) (l1 l2 : list K) :
  (forall a, ~ lt a a) -> (forall a b c, lt a b -> lt b c -> lt a c) ->
  StronglySorted lt l1 -> StronglySorted lt l2 ->
  (forall k, In k l1 <-> In k l2) -> l1 = l2.
Proof.
  intros Hirr Htr Hs1. revert l2.
  induction Hs1 as [|a l1 Hs1 IH Ha]; intros l2 Hs2 Hmem.
  - destruct l2 as [|b l2]; [reflexivity|].
    exfalso. apply (proj2 (Hmem b)). left. reflexivity.
  - destruct Hs2 as [|b l2 Hs2 Hb].
    + exfalso. apply (proj1 (Hmem a)). left. reflexivity.
    + rewrite Forall_forall in Ha, Hb.
      assert (a = b) as ->.
      { destruct (proj1 (Hmem a) (or_introl eq_refl)) as [E|Hin]; [congruence|].
        destruct (proj2 (Hmem b) (or_introl eq_refl)) as [E|Hin']; [congruence|].
        exfalso. apply (Hirr a). eapply Htr; [apply Ha; exact Hin' | apply Hb; exact Hin]. }
      f_equal. apply IH; [exact Hs2|].
      intros k. split; intros Hin.
      * destruct (proj1 (Hmem k) (or_intror Hin)) as [E|Hin']; [|exact Hin'].
        subst k. exfalso. apply (Hirr b). apply Ha. exact Hin.
      * destruct (proj2 (Hmem k) (or_intror Hin)) as [E|Hin']; [|exact Hin'].
        subst k. exfalso. apply (Hirr b). apply Hb. exact Hin.
Qed.

Lemma filter_perm {A : Type} (f : A -> bool) (l l' : list A) :
  Permutation l l' -> Permutation (filter f l) (filter f l').
Proof.
  induction 1 as [|x l l' Hp IH|x y l|l l' l'' H1 IH1 H2 IH2]; simpl.
  - constructor.
  - destruct (f x); [constructor|]; exact IH.
  - destruct (f x), (f y); try reflexivity. apply perm_swap.
  - etransitivity; eassumption.
Qed.

Lemma partitions_keys_perm {F : Type} (meas meas' : list (Sample F)) :
  Permutation meas meas' ->
  map fst (partitions meas') = map fst (partitions meas).
Proof.
  intros Hp.
  destruct (partitions_spec meas) as [_ [Hs [Hk _]]].
  destruct (partitions_spec meas') as [_ [Hs' [Hk' _]]].
  apply (ascending_unique (fun a b => cycle_key_ltb a b = true)); try assumption.
  - intros a. rewrite cycle_key_ltb_irrefl. discriminate.
  - apply cycle_key_ltb_trans.
  - intros k. rewrite Hk, Hk'. split; intros [s [Hin E]]; exists s; split; auto.
    + eapply Permutation_in; [symmetry|]; eassumption.
    + eapply Permutation_in; eassumption.
Qed.

(** X13. The time-violation count depends on the dataset only as a bag of
    samples: reordering the rows of the measurements changes neither the
    partitions' keys nor the count. *)
Theorem X13_violations_row_order_irrelevant :
  forall (F : Type) (meas meas' : list (Sample F)),
    Permutation meas meas' ->
    map fst (partitions meas') = map fst (partitions meas)
    /\ time_monotonicity_violations meas' = time_monotonicity_violations meas.
Proof.
  intros F meas meas' Hp. pose proof (partitions_keys_perm meas meas' Hp) as Hk.
  split; [exact Hk|].
  rewrite !violations_by_key, Hk. f_equal. apply map_ext. intros k.
  rewrite (has_time_violation_perm (partition_of meas k) (partition_of meas' k));
    [reflexivity|].
  apply filter_perm. exact Hp.
Qed.

(** ** Unique cycles, capacity-fade curves and the evidence export *)

Lemma drop_duplicates_In {K : Type} (key_eqb : K -> K -> bool)
    (key_eqb_eq : forall a b, key_eqb a b = true <-> a = b) (ks : list K) (k : K) :
  In k (drop_duplicates key_eqb ks) <-> In k ks.
Proof.
  induction ks as [|k0 ks IH]; simpl; [tauto|].
  rewrite filter_In, IH, negb_true_iff. split.
  - intros [E|[Hin _]]; auto.
  - intros [E|Hin]; [left; exact E|].
    destruct (key_eqb k k0) eqn:Ek.
    + left. symmetry. apply key_eqb_eq. exact Ek.
    + right. auto.
Qed.

Lemma drop_duplicates_NoDup {K : Type} (key_eqb : K -> K -> bool)
    (key_eqb_eq : forall a b, key_eqb a b = true <-> a = b) (ks : list K) :
  NoDup (drop_duplicates key_eqb ks).
Proof.
  induction ks as [|k0 ks IH]; simpl; constructor.
  - rewrite filter_In, negb_true_iff. intros [_ E].
    rewrite (proj2 (key_eqb_eq k0 k0) eq_refl) in E. discriminate.
  - apply NoDup_filter. exact IH.
Qed.

Lemma count_unique_cycles_partitions {F : Type} (meas_dis : list (Sample F)) :
  count_unique_cycles meas_dis = length (partitions meas_dis).
Proof.
  unfold count_unique_cycles.
  rewrite <- (length_map fst (partitions meas_dis)).
  apply Permutation_length. apply NoDup_Permutation.
  - apply drop_duplicates_NoDup, cycle_key_eqb_eq.
  - apply partitions_spec.
  - intros k. rewrite (drop_duplicates_In _ cycle_key_eqb_eq).
    destruct (partitions_spec meas_dis) as [_ [_ [Hk _]]]. rewrite Hk, in_map_iff.
    split; intros [s [H1 H2]]; exists s; tauto.
Qed.

(** X14. The "unique discharge cycles" figure (rows left after dropping
    duplicate (entity, cycle) pairs) is the number of partitions of the
    grouping, hence the number of rows of the per-cycle table; the pairs kept
    are distinct and are exactly the pairs that occur. *)
Theorem X14_unique_cycles_is_table_size :
  forall (F : Type) (FL : Float64 F) (meas_dis : list (Sample F)),
    NoDup (drop_duplicates cycle_key_eqb (map sample_key meas_dis))
    /\ (forall k, In k (drop_duplicates cycle_key_eqb (map sample_key meas_dis))
                  <-> exists s, In s meas_dis /\ sample_key s = k)
    /\ count_unique_cycles meas_dis = length (partitions meas_dis)
    /\ exists stats,
         discharge_cycle_level_stats meas_dis = Ok stats
         /\ length stats = count_unique_cycles meas_dis.
Proof.
  intros F FL meas_dis.
  split; [apply drop_duplicates_NoDup, cycle_key_eqb_eq|].
  split.
  { intros k. rewrite (drop_duplicates_In _ cycle_key_eqb_eq), in_map_iff.
    split; intros [s [H1 H2]]; exists s; tauto. }
  split; [apply count_unique_cycles_partitions|].
  destruct (discharge_cycle_level_stats_total meas_dis) as [stats Hs].
  exists stats. split; [exact Hs|].
  rewrite count_unique_cycles_partitions. apply (stats_sizes_sum meas_dis stats Hs).
Qed.

Lemma pick_cases {F : Type} `{Float64 F} (meas_dis : list (Sample F)) (cell : string) :
  ((forall s, In s meas_dis -> cell_id s <> cell)
   /\ pick_representative_discharge_cycle meas_dis cell
      = Raise (ValueError ("No discharge samples for cell " ++ cell)%string))
  \/ ((exists s, In s meas_dis /\ cell_id s = cell)
      /\ exists idx cyc, pick_representative_discharge_cycle meas_dis cell = Ok (idx, cyc)).
Proof.
  unfold pick_representative_discharge_cycle.
  destruct (filter (fun s => String.eqb (cell_id s) cell) meas_dis) as [|s0 rest] eqn:E.
  - left. split; [|reflexivity]. intros s Hin Hc.
    assert (In s (filter (fun s => String.eqb (cell_id s) cell) meas_dis)) as Hf
      by (apply filter_In; split; [exact Hin | apply String.eqb_eq; exact Hc]).
    rewrite E in Hf. contradiction.
  - right. split; [|do 2 eexists; reflexivity].
    assert (In s0 (filter (fun s => String.eqb (cell_id s) cell) meas_dis)) as Hf
      by (rewrite E; left; reflexivity).
    apply filter_In in Hf. destruct Hf as [Hin Hc]. apply String.eqb_eq in Hc.
    exists s0. auto.
Qed.

(** X15. The export of the evidence script ends in exactly one of three
    ways: with no discharge sample at all it stops at the first figure with
    the KeyError of grouping an empty, column-less table by "cell_id"; with
    discharge samples but none of the representative entity it stops with
    the selector's ValueError naming that entity; otherwise it produces the
    summary table and the evidence record. *)
Theorem X15_export_outcomes :
  forall (F : Type) (FL : Float64 F) (meas : list (Sample F))
         (imp : list (ImpedanceRow F)) (rep : string),
    (select_discharge meas = []
     /\ evidence_export meas imp rep = Failed (KeyError "cell_id"))
    \/ (select_discharge meas <> []
        /\ (forall s, In s (select_discharge meas) -> cell_id s <> rep)
        /\ evidence_export meas imp rep
           = Failed (EngineError
                       (ValueError ("No discharge samples for cell " ++ rep)%string)))
    \/ ((exists s, In s meas /\ operation_type s = "discharge"%string /\ cell_id s = rep)
        /\ exists table ev, evidence_export meas imp rep = Done (table, ev)).
Proof.
  intros F FL meas imp rep. unfold evidence_export.
  destruct (discharge_cycle_level_stats_total (select_discharge meas)) as [stats Hs].
  rewrite Hs. cbn [engine and_then].
  pose proof (stats_nil_iff _ _ Hs) as Hnil.
  destruct stats as [|r0 stats'].
  - left. split; [apply Hnil; reflexivity | reflexivity].
  - assert (select_discharge meas <> []) as Hne
      by (intros E; apply Hnil in E; discriminate).
    cbn [capacity_fade_curves and_then]. right.
    destruct (pick_cases (select_discharge meas) rep) as [[Hnone ->]|[[s [Hin Hc]] [idx [cyc ->]]]].
    + left. split; [exact Hne|]. split; [exact Hnone | reflexivity].
    + right. split.
      * unfold select_discharge in Hin. apply filter_In in Hin.
        destruct Hin as [Hin Hop]. apply String.eqb_eq in Hop. exists s. auto.
      * cbn [engine and_then].
        destruct (build_cell_summary_table_total (r0 :: stats') (select_discharge meas) imp)
          as [rows ->]; [discriminate|].
        cbn [and_then]. do 2 eexists. reflexivity.
Qed.

(** X16. When the export succeeds its outputs agree with one another: the
    sample and cycle totals of the evidence record are the totals of the
    per-cycle table (sample counts summed; number of records), the cycle
    total is also the sum of the per-entity cycle counts of the summary
    table, every row of the summary table repeats the record's dataset-wide
    counters, the representative entity has a row, and its representative
    cycle is a record of the per-cycle table with the reported sample count
    (at least 1). *)
Theorem X16_export_consistent :
  forall (F : Type) (FL : Float64 F) (meas : list (Sample F))
         (imp : list (ImpedanceRow F)) (rep : string)
         (table : list (CellSummary F)) (ev : GlobalEvidence),
    evidence_export meas imp rep = Done (table, ev) ->
    exists stats,
      discharge_cycle_level_stats (select_discharge meas) = Ok stats
      /\ discharge_samples ev = list_sum (map n_samples stats)
      /\ unique_discharge_cycles ev = length stats
      /\ unique_discharge_cycles ev = list_sum (map N_discharge_cycles table)
      /\ (forall row, In row table ->
            TimeMonotonicityViolations_allCells row = time_monotonicity_violations_allCells ev
            /\ Re_nonpos_allRows row = re_nonpos_count (impedance ev)
            /\ Rct_nonpos_allRows row = rct_nonpos_count (impedance ev)
            /\ Impedance_rows row = impedance_rows (impedance ev))
      /\ rep_cell ev = rep
      /\ In rep (map Cell table)
      /\ (1 <= rep_cycle_samples ev)%nat
      /\ exists r, In r stats
                   /\ stats_key r = (rep, rep_cycle_index ev)
                   /\ n_samples r = rep_cycle_samples ev.
Proof.
  intros F FL meas imp rep table ev Hrun. unfold evidence_export in Hrun.
  destruct (discharge_cycle_level_stats (select_discharge meas)) as [stats|e] eqn:Hs;
    cbn [engine and_then] in Hrun; [|discriminate].
  destruct (capacity_fade_curves stats) as [curves|f]; cbn [and_then] in Hrun; [|discriminate].
  destruct (pick_representative_discharge_cycle (select_discharge meas) rep)
    as [[idx cyc]|e] eqn:Hpick; cbn [engine and_then] in Hrun; [|discriminate].
  destruct (build_cell_summary_table stats (select_discharge meas) imp)
    as [rows|f] eqn:Hrows; cbn [and_then] in Hrun; [|discriminate].
  injection Hrun as Htable Hev. subst table ev. cbn.
  exists stats. split; [reflexivity|].
  destruct (stats_sizes_sum _ _ Hs) as [Hsum Hlen].
  destruct (summary_on_stats _ _ _ _ Hs Hrows) as [_ [_ [Hcells [_ Hcycles]]]].
  destruct (pick_is_partition _ _ _ _ Hpick)
    as [Hcyc [Hpart [Hne [stats' [r [Hs' [Hr [Hkey [Hn _]]]]]]]]].
  rewrite Hs in Hs'. injection Hs' as Hs'. subst stats'.
  split; [symmetry; exact Hsum|].
  split; [rewrite count_unique_cycles_partitions; symmetry; exact Hlen|].
  split; [rewrite count_unique_cycles_partitions, Hcycles; symmetry; exact Hlen|].
  split.
  { intros row Hin. apply build_cell_summary_table_Done in Hrows.
    destruct Hrows as [_ Hrows].
    destruct (mapM_In _ _ _ _ Hrows Hin) as [g [_ Hg]].
    apply summary_row_inv in Hg. simpl in Hg. tauto. }
  split; [reflexivity|]. split.
  { apply Hcells. apply partitions_spec in Hpart. destruct Hpart as [Hne' Hmem].
    destruct (partition_of (select_discharge meas) (rep, idx)) as [|s part] eqn:Ep;
      [congruence|].
    assert (In s (s :: part)) as Hin by (left; reflexivity).
    apply Hmem in Hin. destruct Hin as [Hin Hk]. exists s. split; [exact Hin|].
    unfold sample_key in Hk. congruence. }
  split.
  { destruct cyc; [congruence | simpl; lia]. }
  exists r. auto.
Qed.

(** X17. The capacity-fade figure cannot be drawn from an empty per-cycle
    table (KeyError); otherwise it has one curve per entity of the table, in
    ascending entity order, each curve holds exactly the (cycle index,
    maximum capacity) points of its entity in ascending cycle order, and the
    curves together hold as many points as the table has records. *)
Theorem X17_capacity_fade_curves :
  forall (F : Type) (cycle_stats : list (CycleStats F)),
    (cycle_stats = [] /\ capacity_fade_curves cycle_stats = Failed (KeyError "cell_id"))
    \/ (cycle_stats <> []
        /\ exists curves,
             capacity_fade_curves cycle_stats = Done curves
             /\ NoDup (map fst curves)
             /\ StronglySorted (fun a b => String.ltb a b = true) (map fst curves)
             /\ (forall c, In c (map fst curves) <-> In c (map cs_cell_id cycle_stats))
             /\ (forall c pts, In (c, pts) curves ->
                   pts <> []
                   /\ StronglySorted Z.le (map fst pts)
                   /\ Permutation pts
                        (map (fun r => (cs_cycle_index r, cap_max_Ah r))
                             (filter (fun r => String.eqb (cs_cell_id r) c) cycle_stats)))
             /\ list_sum (map (fun c => length (snd c)) curves) = length cycle_stats).
Proof.
  intros F cycle_stats. destruct cycle_stats as [|r0 rest].
  - left. split; reflexivity.
  - right. split; [discriminate|].
    assert (capacity_fade_curves (r0 :: rest)
            = Done (map (fun g =>
                           (fst g,
                            map (fun r => (cs_cycle_index r, cap_max_Ah r))
                                (sort_values cs_cycle_index (snd g))))
                        (groupby String.eqb String.ltb cs_cell_id (r0 :: rest)))) as Hc
      by reflexivity.
    revert Hc. generalize (r0 :: rest) as cycle_stats. intros cycle_stats Hc.
    eexists. split; [exact Hc|]. clear Hc r0 rest.
    rewrite !map_map. cbn [fst snd].
    change (map (fun x : string * list (CycleStats F) => fst x)
                (groupby String.eqb String.ltb cs_cell_id cycle_stats))
      with (map fst (groupby String.eqb String.ltb cs_cell_id cycle_stats)).
    rewrite groupby_keys.
    split; [apply group_keys_NoDup;
            [apply String.eqb_eq | apply string_ltb_irrefl
             | apply string_ltb_trans | apply string_ltb_total]|].
    split; [apply group_keys_ascending;
            [apply String.eqb_eq | apply string_ltb_trans | apply string_ltb_total]|].
    split; [intros c; apply group_keys_In, String.eqb_eq|].
    split.
    + intros c pts Hin. apply in_map_iff in Hin. destruct Hin as [[c' g] [E Hg]].
      simpl in E. injection E as Ec Ep. subst c' pts.
      pose proof (groupby_nonempty String.eqb String.ltb cs_cell_id String.eqb_eq _ _ _ Hg) as Hne.
      apply groupby_In in Hg; [|apply String.eqb_eq]. destruct Hg as [Hgeq _].
      split; [|split].
      * intros Hnil. apply (f_equal (@length (Z * F))) in Hnil.
        rewrite length_map, sort_values_length in Hnil.
        apply length_zero_iff_nil in Hnil. contradiction.
      * rewrite map_map. cbn [fst].
        apply (sorted_map_col cs_cycle_index), sort_values_sorted.
      * rewrite <- Hgeq. apply Permutation_map. symmetry. apply sort_values_perm.
    + rewrite <- (group_sizes_sum String.eqb cs_cell_id String.eqb_eq
                    (group_keys String.eqb String.ltb cs_cell_id cycle_stats) cycle_stats).
      * unfold groupby. rewrite map_map. f_equal. apply map_ext. intros k. cbn [snd].
        rewrite length_map, sort_values_length. reflexivity.
      * apply group_keys_NoDup;
          [apply String.eqb_eq | apply string_ltb_irrefl
           | apply string_ltb_trans | apply string_ltb_total].
      * intros r Hr. apply group_keys_In; [apply String.eqb_eq|]. apply in_map. exact Hr.
Qed.

(** ** The checks of the sanity script against the evidence script *)

Lemma diffZ_length (t : list Z) : length (diffZ t) = (length t - 1)%nat.
Proof.
  induction t as [|a [|b t] IH]; try reflexivity.
  change (diffZ (a :: b :: t)) with (int64_wrap (b - a) :: diffZ (b :: t)).
  simpl length in *. rewrite IH. lia.
Qed.

Lemma flat_map_length {A B : Type} (f : A -> list B) (l : list A) :
  length (flat_map f l) = list_sum (map (fun a => length (f a)) l).
Proof.
  induction l as [|a l IH]; simpl; [reflexivity|]. rewrite length_app, IH. reflexivity.
Qed.

(** The entry CHECK 2 makes for one partition. *)
Lemma check_time_entry (df : list (Sample xreal)) :
  let idx := sorted_t_index df in
  let frac := np_mean (map (fun d => of_bool (d <=? 0)%Z) (diffZ idx)) in
  ((1 <? length idx)%nat && flt zero frac = has_time_violation df)
  /\ (has_time_violation df = true -> exists q, frac = Fin q /\ (0 < q <= 1)%R).
Proof.
  intros idx frac. unfold has_time_violation. fold idx.
  pose proof (diffZ_length idx) as Hlen.
  destruct (diffZ idx) as [|d ds] eqn:Ed.
  - simpl existsb. split; [|discriminate].
    simpl in Hlen. destruct (1 <? length idx)%nat eqn:E; [|reflexivity].
    apply Nat.ltb_lt in E. lia.
  - assert ((1 <? length idx)%nat = true) as -> by (apply Nat.ltb_lt; simpl in Hlen; lia).
    set (bs := map (fun x => (x <=? 0)%Z) (d :: ds)).
    assert (frac = Fin (INR (length (filter (fun b => b) bs)) / INR (length bs))) as Hfrac.
    { unfold frac.
      rewrite <- (map_map (fun x => (x <=? 0)%Z) (fun b : bool => of_bool b)).
      apply indicator_mean. discriminate. }
    assert (existsb (fun x => (x <=? 0)%Z) (d :: ds) = true
            <-> (0 < length (filter (fun b => b) bs))%nat) as Hex.
    { unfold bs. clear. induction (d :: ds) as [|x l IH]; simpl; [split; [discriminate | lia]|].
      destruct (x <=? 0)%Z; simpl; [split; [lia | reflexivity] | exact IH]. }
    assert (0 < INR (length bs))%R as Hn by (apply lt_0_INR; unfold bs; simpl; lia).
    assert (length (filter (fun b => b) bs) <= length bs)%nat as Hle
      by apply filter_length_le.
    apply le_INR in Hle.
    split.
    + rewrite Hfrac. cbn [andb]. unfold zero. cbn [flt of_Z exact_arith xltb].
      destruct (existsb (fun x => (x <=? 0)%Z) (d :: ds)) eqn:E.
      * pose proof (proj1 Hex eq_refl) as Hk. apply lt_INR in Hk. simpl in Hk.
        destruct (Rlt_dec 0 _) as [_|Hn0]; [reflexivity|]. exfalso. apply Hn0.
        apply Rdiv_lt_0_compat; assumption.
      * destruct (Rlt_dec 0 _) as [Hpos|_]; [|reflexivity]. exfalso.
        assert (0 < length (filter (fun b => b) bs))%nat as Hk.
        { destruct (length (filter (fun b => b) bs)) eqn:Ek; [|lia].
          simpl in Hpos. unfold Rdiv in Hpos. rewrite Rmult_0_l in Hpos. lra. }
        apply Hex in Hk. discriminate.
    + intros Hv. apply Hex in Hv. apply lt_INR in Hv. simpl in Hv.
      eexists. split; [exact Hfrac|]. split.
      * apply Rdiv_lt_0_compat; assumption.
      * apply Rmult_le_reg_r with (r := INR (length bs)); [exact Hn|].
        unfold Rdiv. rewrite Rmult_assoc, Rinv_l by lra. lra.
Qed.

(** X18. CHECK 2 of the sanity script and the counter of the evidence
    script agree: the sanity script lists exactly the partitions the
    evidence script counts, so the length of its list is the violation
    count; the fraction it reports for a listed partition is a number in
    (0, 1]. *)
Theorem X18_sanity_time_check_agrees :
  forall dis : list (Sample xreal),
    length (check_time_monotonicity dis) = time_monotonicity_violations dis
    /\ forall c k frac, In (c, k, frac) (check_time_monotonicity dis) ->
         In (c, k) (map fst (partitions dis))
         /\ has_time_violation (partition_of dis (c, k)) = true
         /\ exists q, frac = Fin q /\ (0 < q <= 1)%R.
Proof.
  intros dis. split.
  - unfold check_time_monotonicity, time_monotonicity_violations.
    rewrite flat_map_length, violations_fold, filter_length_sum, Nat.add_0_l.
    f_equal. apply map_ext. intros g. cbv beta zeta.
    destruct (check_time_entry (snd g)) as [Hentry _]. cbv zeta in Hentry.
    rewrite <- Hentry. unfold cycle_key in *.
    destruct (1 <? length (sorted_t_index (snd g)))%nat; [|reflexivity].
    cbn [andb]. destruct (flt zero _); reflexivity.
  - intros c k frac Hin. unfold check_time_monotonicity in Hin.
    apply in_flat_map in Hin. destruct Hin as [[[c' k'] g] [Hg Hin]].
    cbv beta zeta in Hin. cbn [fst snd] in Hin.
    destruct (check_time_entry g) as [Hentry Hfrac]. cbv zeta in Hentry, Hfrac.
    destruct (1 <? length (sorted_t_index g))%nat; [|contradiction].
    cbn [andb] in Hentry.
    destruct (flt zero _) eqn:Epos; [|contradiction].
    destruct Hin as [E|[]]. injection E as Ec Ek Ef. subst c' k'.
    split; [apply in_map_iff; exists (c, k, g); auto|].
    pose proof Hg as Hg'. apply groupby_In in Hg'; [|apply cycle_key_eqb_eq].
    destruct Hg' as [Hgeq _]. unfold partition_of. rewrite <- Hgeq.
    split; [symmetry; exact Hentry|].
    rewrite <- Ef. apply Hfrac. symmetry. exact Hentry.
Qed.

Lemma np_std_exact_ddof (ddof : nat) (rs : list R) :
  (ddof < length rs)%nat ->
  np_std ddof (map Fin rs)
  = Fin (R_sqrt.sqrt (sum_sq_dev rs / INR (length rs - ddof))).
Proof.
  intros Hlen. unfold np_std, sum_sq_dev.
  rewrite np_mean_Fin by (destruct rs; [simpl in Hlen; lia | discriminate]).
  rewrite !map_map. cbn [fsub fmul exact_arith xlift2].
  rewrite <- (map_map (fun r => (r - Rsum rs / INR (length rs))
                                * (r - Rsum rs / INR (length rs)))%R Fin).
  rewrite np_sum_Fin, length_map, Nat.max_0_r, of_nat_exact.
  assert (0 < INR (length rs - ddof))%R as Hpos by (apply lt_0_INR; lia).
  pose proof (Rsum_sq_nonneg (fun r => r - Rsum rs / INR (length rs))%R rs) as Hsum.
  cbn [fdiv fsqrt exact_arith]. unfold xdiv.
  destruct (Req_dec_T (INR (length rs - ddof)) 0) as [E|_]; [lra|].
  unfold xsqrt. destruct (Rlt_dec _ 0) as [Hneg|_]; [|reflexivity].
  exfalso. apply (Rlt_not_le _ _ Hneg).
  apply Rmult_le_pos; [exact Hsum | left; apply Rinv_0_lt_compat; exact Hpos].
Qed.

Lemma sum_sq_dev_perm (rs rs' : list R) :
  Permutation rs rs' -> sum_sq_dev rs = sum_sq_dev rs'.
Proof.
  intros Hp. unfold sum_sq_dev.
  rewrite (Rsum_perm rs rs' Hp), (Permutation_length Hp).
  apply Rsum_perm. apply Permutation_map. exact Hp.
Qed.

Lemma sum_sq_dev_nonneg (rs : list R) : (0 <= sum_sq_dev rs)%R.
Proof. apply (Rsum_sq_nonneg (fun r => r - Rsum rs / INR (length rs))%R). Qed.

Lemma nan_dec (a : list xreal) : In NaN a \/ ~ In NaN a.
Proof.
  induction a as [|v a IH]; simpl; [right; intros []|].
  destruct v as [|r]; [left; left; reflexivity|].
  destruct IH as [IH|IH]; [left; right; exact IH|].
  right. intros [E|Hin]; [discriminate | contradiction].
Qed.

(** Population and sample standard deviation of the same values. *)
Lemma std_population_vs_sample (cur cur' : list xreal) :
  Permutation cur cur' -> (2 <= length cur)%nat ->
  (np_std 0 cur = NaN /\ np_std 1 cur' = NaN)
  \/ exists s0 s1 : R,
       np_std 0 cur = Fin s0 /\ np_std 1 cur' = Fin s1
       /\ (0 <= s0 <= s1)%R
       /\ (INR (length cur) * (s0 * s0) = (INR (length cur) - 1) * (s1 * s1))%R.
Proof.
  intros Hp Hlen.
  destruct (nan_dec cur) as [Hnan|Hfree].
  - left. split; apply np_std_NaN; [exact Hnan | eapply Permutation_in; eassumption].
  - right.
    assert (~ In NaN cur') as Hfree'
      by (intros Hin; apply Hfree; eapply Permutation_in; [symmetry|]; eassumption).
    pose proof (finite_values_perm _ _ Hp) as Hpf.
    pose proof (f_equal (@length xreal) (nan_free_Fin _ Hfree)) as Hl.
    rewrite length_map in Hl.
    rewrite (nan_free_Fin _ Hfree), (nan_free_Fin _ Hfree').
    rewrite !np_std_exact_ddof
      by (rewrite <- ?(Permutation_length Hpf), <- Hl; lia).
    rewrite <- (sum_sq_dev_perm _ _ Hpf), <- (Permutation_length Hpf), length_map.
    set (rs := finite_values cur) in *. set (n := length rs) in *.
    rewrite Nat.sub_0_r.
    pose proof (sum_sq_dev_nonneg rs) as HS.
    assert (0 < INR n)%R as Hn by (apply lt_0_INR; lia).
    assert (0 < INR (n - 1))%R as Hn1 by (apply lt_0_INR; lia).
    assert (INR (n - 1) = INR n - 1)%R as En by (rewrite minus_INR by lia; reflexivity).
    assert (0 <= sum_sq_dev rs / INR n)%R as H0
      by (apply Rmult_le_pos; [exact HS | left; apply Rinv_0_lt_compat; exact Hn]).
    assert (0 <= sum_sq_dev rs / INR (n - 1))%R as H1
      by (apply Rmult_le_pos; [exact HS | left; apply Rinv_0_lt_compat; exact Hn1]).
    do 2 eexists. split; [reflexivity|]. split; [reflexivity|]. split; [split|].
    + apply sqrt_pos.
    + apply sqrt_le_1; try assumption.
      unfold Rdiv. apply Rmult_le_compat_l; [exact HS|].
      apply Rinv_le_contravar; [exact Hn1 | rewrite En; lra].
    + rewrite !sqrt_sqrt by assumption. rewrite <- En. field. split; lra.
Qed.

(** X19. CHECK 3 of the sanity script lists exactly the cycles of 20 samples
    or more.  For a listed cycle its mean current is the mean of the
    per-cycle table ([i_mean_A]), although it reads the samples in stored
    rather than time order; its standard deviation is the population one, so
    it is at most the table's sample standard deviation and
    n std_A^2 = (n - 1) i_std_A^2 (both are NaN when a current is NaN). *)
Theorem X19_sanity_current_check :
  forall dis : list (Sample xreal),
  exists stats,
    discharge_cycle_level_stats dis = Ok stats
    /\ (forall c k m s, In (c, k, m, s) (check_current_stability dis) ->
          exists r, In r stats /\ stats_key r = (c, k)
                    /\ (20 <= n_samples r)%nat
                    /\ m = i_mean_A r
                    /\ ((s = NaN /\ i_std_A r = NaN)
                        \/ exists s0 s1 : R,
                             s = Fin s0 /\ i_std_A r = Fin s1
                             /\ (0 <= s0 <= s1)%R
                             /\ (INR (n_samples r) * (s0 * s0)
                                 = (INR (n_samples r) - 1) * (s1 * s1))%R))
    /\ (forall r, In r stats -> (20 <= n_samples r)%nat ->
          exists m s, In (cs_cell_id r, cs_cycle_index r, m, s)
                         (check_current_stability dis)).
Proof.
  intros dis.
  destruct (discharge_cycle_level_stats_total dis) as [stats Hs].
  exists stats. split; [exact Hs|].
  pose proof Hs as Hf. unfold discharge_cycle_level_stats in Hf.
  apply mapM_Forall2 in Hf.
  split.
  - intros c k m s Hin. unfold check_current_stability in Hin.
    apply in_flat_map in Hin. destruct Hin as [[[c' k'] g] [Hg Hin]].
    cbv beta zeta in Hin. cbn [fst snd] in Hin. rewrite length_map in Hin.
    destruct (20 <=? length g)%nat eqn:E20; [|contradiction].
    apply Nat.leb_le in E20.
    destruct Hin as [E|[]]. injection E as Ec Ek Em Es. subst c' k'.
    destruct (Forall2_In_l _ _ _ _ Hf Hg) as [r [Hr Hrow]].
    apply cycle_stats_row_inv in Hrow. cbn [fst snd] in Hrow.
    destruct Hrow as [H1 [H2 [H3 [H4 [H5 _]]]]].
    exists r. split; [exact Hr|]. split; [unfold stats_key; congruence|].
    split; [lia|].
    assert (Permutation (map Current_measured g)
                        (map Current_measured (sort_values t_index g))) as Hp
      by (apply Permutation_map, sort_values_perm).
    split; [rewrite <- Em, H4; apply np_mean_perm; exact Hp|].
    assert ((length g <? 2)%nat = false) as Hlt by (apply Nat.ltb_ge; lia).
    rewrite Hlt in H5. rewrite H5, H3, <- Es.
    destruct (std_population_vs_sample _ _ Hp) as [Hnan|Hfin];
      [rewrite length_map; lia | left; exact Hnan | right].
    rewrite length_map in Hfin. exact Hfin.
  - intros r Hr H20.
    destruct (Forall2_In_r _ _ _ _ Hf Hr) as [[[c k] g] [Hg Hrow]].
    apply cycle_stats_row_inv in Hrow. cbn [fst snd] in Hrow.
    destruct Hrow as [H1 [H2 [H3 _]]].
    exists (np_mean (map Current_measured g)), (np_std 0 (map Current_measured g)).
    unfold check_current_stability. apply in_flat_map.
    exists (c, k, g). split; [exact Hg|].
    cbv beta zeta. cbn [fst snd]. rewrite length_map.
    assert ((20 <=? length g)%nat = true) as -> by (apply Nat.leb_le; lia).
    left. congruence.
Qed.

Lemma flat_map_along {A B C : Type} (P : A -> B -> Prop) (fg : A -> list C)
    (p : B -> bool) (h : B -> C) (l1 : list A) (l2 : list B) :
  (forall a b, P a b -> fg a = if p b then [h b] else []) ->
  Forall2 P l1 l2 ->
  flat_map fg l1 = map h (filter p l2).
Proof.
  intros Hfg. induction 1 as [|a b l1 l2 Hab _ IH]; simpl; [reflexivity|].
  rewrite (Hfg a b Hab), IH. destruct (p b); reflexivity.
Qed.

(** X20. CHECK 4 of the sanity script is a view of the per-cycle table: row
    for row it lists the cycles of more than 2 samples with the table's
    voltage monotonic fraction.  A cycle of exactly 2 samples has a fraction
    in the table but is absent from CHECK 4. *)
Theorem X20_sanity_voltage_check :
  forall (F : Type) (FL : Float64 F) (dis : list (Sample F)),
  exists stats,
    discharge_cycle_level_stats dis = Ok stats
    /\ check_voltage_monotonicity dis
       = map (fun r => (cs_cell_id r, cs_cycle_index r, v_mono_frac r))
             (filter (fun r => (2 <? n_samples r)%nat) stats).
Proof.
  intros F FL dis.
  destruct (discharge_cycle_level_stats_total dis) as [stats Hs].
  exists stats. split; [exact Hs|].
  unfold discharge_cycle_level_stats in Hs. apply mapM_Forall2 in Hs.
  unfold check_voltage_monotonicity.
  apply (flat_map_along (fun g r => cycle_stats_row g = Ok r)); [|exact Hs].
  intros g r Hrow. apply cycle_stats_row_inv in Hrow.
  destruct Hrow as [H1 [H2 [H3 [_ [_ [H6 _]]]]]].
  cbv beta zeta. rewrite length_map, sort_values_length, H3. unfold cycle_key in *.
  destruct (2 <? length (snd g))%nat eqn:E; [|reflexivity].
  apply Nat.ltb_lt in E.
  rewrite H1, H2, H6. unfold voltage_monotonic_fraction.
  rewrite np_diff_length, length_map, sort_values_length.
  destruct (length (snd g) - 1 =? 0)%nat eqn:E0; [apply Nat.eqb_eq in E0; lia|].
  reflexivity.
Qed.

Lemma mapM_of_Forall2 {A B : Type} (f : A -> result B) (l : list A) (bs : list B) :
  Forall2 (fun a b => f a = Ok b) l bs -> mapM f l = Ok bs.
Proof.
  induction 1 as [|a b l bs Hab _ IH]; simpl; [reflexivity|].
  rewrite Hab, IH. reflexivity.
Qed.

Lemma np_min_max_perm (T T' : list xreal) :
  Permutation T T' -> np_min T = np_min T' /\ np_max T = np_max T'.
Proof.
  intros Hp. destruct T as [|t T0] eqn:ET.
  - apply Permutation_nil in Hp. subst T'. split; reflexivity.
  - rewrite <- ET in *.
    assert (T <> []) as Hne by (rewrite ET; discriminate).
    assert (T' <> []) as Hne'
      by (intros E; rewrite E in Hp; apply Permutation_sym, Permutation_nil in Hp; contradiction).
    destruct (np_min_max_exact T Hne) as [Hnan Hfin].
    destruct (np_min_max_exact T' Hne') as [Hnan' Hfin'].
    destruct (nan_dec T) as [Hin|Hfree].
    + destruct (Hnan Hin) as [-> ->].
      destruct (Hnan' (Permutation_in _ Hp Hin)) as [-> ->]. split; reflexivity.
    + destruct (Hfin Hfree) as [lo [hi [-> [-> [Hlo [Hhi Hb]]]]]].
      destruct Hfin' as [lo' [hi' [-> [-> [Hlo' [Hhi' Hb']]]]]].
      { intros Hin. apply Hfree. eapply Permutation_in; [symmetry|]; eassumption. }
      assert (lo = lo') as ->.
      { pose proof (Hb lo' (Permutation_in _ (Permutation_sym Hp) Hlo')).
        pose proof (Hb' lo (Permutation_in _ Hp Hlo)). lra. }
      assert (hi = hi') as ->.
      { pose proof (Hb hi' (Permutation_in _ (Permutation_sym Hp) Hhi')).
        pose proof (Hb' hi (Permutation_in _ Hp Hhi)). lra. }
      split; reflexivity.
Qed.

(** X21. CHECK 5 of the sanity script never fails and is, row for row, the
    temperature columns of the per-cycle table: reading the samples in
    stored rather than time order does not change the minimum and maximum
    (exact arithmetic; both are NaN when a temperature is NaN). *)
Theorem X21_sanity_temperature_check :
  forall dis : list (Sample xreal),
  exists stats,
    discharge_cycle_level_stats dis = Ok stats
    /\ check_temperature_range dis
       = Ok (map (fun r => (cs_cell_id r, cs_cycle_index r, t_min_C r, t_max_C r)) stats).
Proof.
  intros dis.
  destruct (discharge_cycle_level_stats_total dis) as [stats Hs].
  exists stats. split; [exact Hs|].
  unfold discharge_cycle_level_stats in Hs. apply mapM_Forall2 in Hs.
  unfold check_temperature_range.
  rewrite (mapM_of_Forall2 _ _
             (map (fun r => [(cs_cell_id r, cs_cycle_index r, t_min_C r, t_max_C r)]) stats)).
  - cbn [bind]. f_equal. clear. induction stats as [|r stats IH]; simpl; [reflexivity|].
    rewrite IH. reflexivity.
  - assert (forall g, In g (partitions dis) -> snd g <> []) as Hne
      by (intros [k g] Hg; simpl; eapply partitions_nonempty; exact Hg).
    revert Hne. induction Hs as [|g r gs rs Hrow _ IH]; intros Hne; simpl; constructor.
    + pose proof (cycle_stats_row_inv _ _ Hrow) as [H1 [H2 _]].
      apply cycle_stats_row_reductions in Hrow. destruct Hrow as [Hmin [Hmax _]].
      assert (Permutation (map Temperature_measured (snd g))
                          (map Temperature_measured (sort_values t_index (snd g)))) as Hp
        by (apply Permutation_map, sort_values_perm).
      destruct (np_min_max_perm _ _ Hp) as [Emin Emax].
      assert ((0 <? length (snd g))%nat = true) as Hpos.
      { apply Nat.ltb_lt. pose proof (Hne g (or_introl eq_refl)) as Hg.
        destruct (snd g); [congruence | simpl; lia]. }
      cbv beta zeta. unfold cycle_key in *.
      rewrite length_map, Hpos, Emin, Emax, Hmin, Hmax. cbn [bind].
      rewrite H1, H2. reflexivity.
    + apply IH. intros g' Hg'. apply Hne. right. exact Hg'.
Qed.

(** ** Reproducibility: what does not depend on the stored row order *)

Lemma sorted_strict {A : Type} (col : A -> Z) (l : list A) :
  StronglySorted (ordered_by col) l -> NoDup (map col l) ->
  StronglySorted (fun a b => (col a < col b)%Z) l.
Proof.
  induction 1 as [|a l Hs IH Hall]; simpl; intros Hnd; constructor.
  - apply IH. inversion Hnd; assumption.
  - inversion Hnd as [|? ? Hnin _]; subst.
    rewrite Forall_forall in *. intros b Hb. specialize (Hall b Hb).
    unfold ordered_by in Hall.
    assert (col a <> col b) by (intros E; apply Hnin; rewrite E; apply in_map; exact Hb).
    lia.
Qed.

(** Sorting rows with pairwise distinct keys gives one result whatever the
    stored order. *)
Lemma sort_values_canonical {A : Type} (col : A -> Z) (l l' : list A) :
  Permutation l l' -> NoDup (map col l) ->
  sort_values col l' = sort_values col l.
Proof.
  intros Hp Hnd.
  apply (ascending_unique (fun a b => (col a < col b)%Z)).
  - intros a. lia.
  - intros a b c. lia.
  - apply sorted_strict; [apply sort_values_sorted|].
    eapply Permutation_NoDup; [|exact Hnd].
    apply Permutation_map.
    eapply Permutation_trans; [exact Hp | apply sort_values_perm].
  - apply sorted_strict; [apply sort_values_sorted|].
    eapply Permutation_NoDup; [|exact Hnd].
    apply Permutation_map. apply sort_values_perm.
  - intros a. split; intros Hin.
    + eapply Permutation_in; [apply sort_values_perm|].
      eapply Permutation_in; [symmetry; exact Hp|].
      eapply Permutation_in; [symmetry; apply sort_values_perm | exact Hin].
    + eapply Permutation_in; [apply sort_values_perm|].
      eapply Permutation_in; [exact Hp|].
      eapply Permutation_in; [symmetry; apply sort_values_perm | exact Hin].
Qed.

Lemma partitions_by_key {F : Type} (meas : list (Sample F)) :
  partitions meas
  = map (fun k => (k, partition_of meas k)) (map fst (partitions meas)).
Proof. unfold partitions, groupby. rewrite !map_map. reflexivity. Qed.

Lemma mapM_ext_in {A B : Type} (f g : A -> result B) (l : list A) :
  (forall a, In a l -> f a = g a) -> mapM f l = mapM g l.
Proof.
  induction l as [|a l IH]; simpl; intros Hfg; [reflexivity|].
  rewrite (Hfg a (or_introl eq_refl)), IH; [reflexivity|].
  intros; apply Hfg; right; assumption.
Qed.

Lemma mapM_map {A B C : Type} (h : A -> B) (f : B -> result C) (l : list A) :
  mapM f (map h l) = mapM (fun a => f (h a)) l.
Proof. induction l as [|a l IH]; simpl; [reflexivity | rewrite IH; reflexivity]. Qed.

Lemma cycle_stats_row_sorted {F : Type} `{Float64 F} (k : cycle_key) (g g' : list (Sample F)) :
  sort_values t_index g' = sort_values t_index g ->
  cycle_stats_row (k, g') = cycle_stats_row (k, g).
Proof. intros E. unfold cycle_stats_row. cbn [fst snd]. rewrite E. reflexivity. Qed.

Lemma no_violation_partitions {F : Type} (meas : list (Sample F)) :
  time_monotonicity_violations meas = 0%nat ->
  forall k, In k (map fst (partitions meas)) -> NoDup (map t_index (partition_of meas k)).
Proof.
  rewrite violations_by_key. intros Hz k Hk.
  apply has_time_violation_NoDup.
  induction (map fst (partitions meas)) as [|k0 ks IH]; [contradiction|].
  simpl in Hz. destruct Hk as [->|Hk].
  - destruct (has_time_violation (partition_of meas k)); [discriminate | reflexivity].
  - apply IH; [|exact Hk]. destruct (has_time_violation (partition_of meas k0)); [discriminate|].
    exact Hz.
Qed.

Lemma cycle_stats_by_key {F : Type} `{Float64 F} (meas : list (Sample F)) :
  discharge_cycle_level_stats meas
  = mapM (fun k => cycle_stats_row (k, partition_of meas k)) (map fst (partitions meas)).
Proof.
  unfold discharge_cycle_level_stats.
  rewrite (partitions_by_key meas) at 1.
  apply (mapM_map (fun k => (k, partition_of meas k))).
Qed.

(** X22. A dataset without time violations has a per-cycle table that does
    not depend on the stored order of its rows: any reordering of the
    measurements gives the same table, field for field (in binary64 as in
    exact arithmetic).  With a repeated time index the order of the tied
    rows is the stored one, and the table can depend on it. *)
Theorem X22_cycle_stats_row_order_irrelevant :
  forall (F : Type) (FL : Float64 F) (meas meas' : list (Sample F)),
    Permutation meas meas' ->
    time_monotonicity_violations meas = 0%nat ->
    discharge_cycle_level_stats meas' = discharge_cycle_level_stats meas.
Proof.
  intros F FL meas meas' Hp Hz.
  rewrite !cycle_stats_by_key, (partitions_keys_perm meas meas' Hp).
  apply mapM_ext_in. intros k Hk. apply cycle_stats_row_sorted.
  apply sort_values_canonical.
  - apply filter_perm. exact Hp.
  - apply no_violation_partitions; assumption.
Qed.






Lemma insert_sorted_exact (r : R) (s : list R) :
  StronglySorted Rle s ->
  exists s', insert_sorted (Fin r) (map Fin s) = map Fin s'
             /\ Permutation (r :: s) s' /\ StronglySorted Rle s'.
Proof.
  induction 1 as [|w s Hs IH Hall].
  - exists [r]. repeat split; auto. constructor; constructor.
  - simpl. destruct (Rle_dec r w) as [Hle|Hgt].
    + exists (r :: w :: s). split; [reflexivity|]. split; [reflexivity|].
      constructor; [constructor; assumption|].
      constructor; [exact Hle|].
      rewrite Forall_forall in *. intros x Hx. specialize (Hall x Hx). lra.
    + destruct IH as [s' [E [Hp Hs']]].
      exists (w :: s'). split; [rewrite E; reflexivity|].
      split; [rewrite perm_swap; apply perm_skip; exact Hp|].
      constructor; [exact Hs'|].
      rewrite Forall_forall in *. intros x Hx.
      apply (Permutation_in _ (Permutation_sym Hp)) in Hx.
      destruct Hx as [<-|Hx]; [lra | apply Hall; exact Hx].
Qed.

Lemma np_sort_exact (rs : list R) :
  exists s, np_sort (map Fin rs) = map Fin s
            /\ Permutation rs s /\ StronglySorted Rle s.
Proof.
  induction rs as [|r rs [s [E [Hp Hs]]]].
  - exists []. repeat split; constructor.
  - destruct (insert_sorted_exact r s Hs) as [s' [E' [Hp' Hs']]].
    exists s'. split; [|split; [|exact Hs']].
    + change (np_sort (map Fin (r :: rs)))
        with (insert_sorted (Fin r) (np_sort (map Fin rs))).
      rewrite E. exact E'.
    + rewrite <- Hp'. apply perm_skip. exact Hp.
Qed.

Lemma sorted_count_le (s : list R) :
  StronglySorted Rle s ->
  forall i x, (i < length s)%nat -> (nth i s 0 <= x)%R -> (i + 1 <= count_leR x s)%nat.
Proof.
  unfold count_leR. induction 1 as [|a s Hs IH Hall]; intros i x Hi Hx;
    [simpl in Hi; lia|].
  destruct i as [|j]; simpl in *.
  - destruct (Rle_dec a x); [simpl; lia | contradiction].
  - assert (j < length s)%nat as Hj by lia.
    rewrite Forall_forall in Hall.
    pose proof (Hall _ (nth_In s 0%R Hj)) as Ha.
    specialize (IH j x Hj Hx).
    destruct (Rle_dec a x); [simpl; lia | lra].
Qed.

Lemma sorted_count_ge (s : list R) :
  StronglySorted Rle s ->
  forall i x, (i < length s)%nat -> (x <= nth i s 0)%R ->
              (length s - i <= count_geR x s)%nat.
Proof.
  unfold count_geR. induction 1 as [|a s Hs IH Hall]; intros i x Hi Hx;
    [simpl in Hi; lia|].
  destruct i as [|j]; simpl in *.
  - destruct (Rle_dec x a); [|contradiction]. simpl.
    destruct s as [|b s]; [simpl; lia|].
    assert (x <= b)%R as Hb.
    { rewrite Forall_forall in Hall. specialize (Hall b (or_introl eq_refl)). lra. }
    specialize (IH 0%nat x ltac:(simpl; lia) Hb). simpl in IH. simpl. lia.
  - assert (j < length s)%nat as Hj by lia.
    specialize (IH j x Hj Hx).
    destruct (Rle_dec x a); simpl; lia.
Qed.

Lemma nth_map_Fin (s : list R) (i : nat) :
  (i < length s)%nat -> nth i (map Fin s) NaN = Fin (nth i s 0%R).
Proof.
  revert i. induction s as [|a s IH]; intros [|i] Hi; simpl in *;
    try lia; [reflexivity | apply IH; lia].
Qed.

Lemma existsb_isnan_Fin (rs : list R) : existsb isnan (map Fin rs) = false.
Proof. induction rs as [|r rs IH]; simpl; auto. Qed.

(** The median the code computes for a NaN-free array, on its sorted
    arrangement. *)
Lemma np_median_sorted (rs : list R) :
  rs <> [] ->
  exists s, Permutation rs s /\ StronglySorted Rle s
            /\ np_median (map Fin rs) = Fin (middle_value s).
Proof.
  intros Hne. destruct (np_sort_exact rs) as [s [E [Hp Hs]]].
  exists s. split; [exact Hp|]. split; [exact Hs|].
  unfold np_median, middle_value. rewrite existsb_isnan_Fin, length_map, E.
  assert (length rs <> 0)%nat as Hlen by (destruct rs; simpl; congruence).
  destruct (length rs =? 0)%nat eqn:E0; [apply Nat.eqb_eq in E0; contradiction|].
  pose proof (Permutation_length Hp) as Hl. rewrite <- Hl.
  assert (length rs / 2 < length rs)%nat as Hhalf by (apply Nat.div_lt; lia).
  change (@nan xreal exact_arith) with NaN.
  destruct (Nat.odd (length rs)).
  - apply nth_map_Fin. lia.
  - rewrite !nth_map_Fin by lia.
    change [Fin (nth (length rs / 2 - 1) s 0%R); Fin (nth (length rs / 2) s 0%R)]
      with (map Fin [nth (length rs / 2 - 1) s 0%R; nth (length rs / 2) s 0%R]).
    rewrite np_mean_Fin by discriminate. simpl. f_equal. lra.
Qed.

Lemma count_leR_perm (x : R) (l l' : list R) :
  Permutation l l' -> count_leR x l = count_leR x l'.
Proof. intros Hp. unfold count_leR. apply Permutation_length, filter_perm, Hp. Qed.

Lemma count_geR_perm (x : R) (l l' : list R) :
  Permutation l l' -> count_geR x l = count_geR x l'.
Proof. intros Hp. unfold count_geR. apply Permutation_length, filter_perm, Hp. Qed.

Lemma sorted_adjacent (l : list R) :
  StronglySorted Rle l ->
  forall p, (S p < length l)%nat -> (nth p l 0 <= nth (S p) l 0)%R.
Proof.
  induction 1 as [|b l Hl' IHl Hb]; intros p Hp'; [simpl in Hp'; lia|].
  destruct p as [|p].
  - rewrite Forall_forall in Hb. simpl. apply Hb.
    destruct l; [simpl in Hp'; lia | left; reflexivity].
  - simpl. apply IHl. simpl in Hp'. lia.
Qed.

(** The middle value of an ascending sequence is a median of it: half of
    the members or more are at most it, half or more are at least it, and
    it lies between two members. *)
Lemma middle_value_counts (s : list R) :
  StronglySorted Rle s -> s <> [] ->
  (length s <= 2 * count_leR (middle_value s) s)%nat
  /\ (length s <= 2 * count_geR (middle_value s) s)%nat
  /\ exists lo hi, In lo s /\ In hi s /\ (lo <= middle_value s <= hi)%R.
Proof.
  intros Hs Hne. unfold middle_value.
  assert (length s <> 0)%nat as Hlen by (destruct s; simpl; congruence).
  assert (length s / 2 < length s)%nat as Hhalf by (apply Nat.div_lt; lia).
  pose proof (Nat.div_mod_eq (length s) 2) as Hdm.
  destruct (Nat.odd (length s)) eqn:Eo.
  - assert (length s mod 2 = 1)%nat as Hm.
    { rewrite <- Nat.bit0_mod, Nat.bit0_odd, Eo. reflexivity. }
    pose proof (sorted_count_le s Hs (length s / 2) _ ltac:(lia) (Rle_refl _)) as H1.
    pose proof (sorted_count_ge s Hs (length s / 2) _ ltac:(lia) (Rle_refl _)) as H2.
    split; [lia|]. split; [lia|].
    exists (nth (length s / 2) s 0%R), (nth (length s / 2) s 0%R).
    split; [apply nth_In; lia|]. split; [apply nth_In; lia | lra].
  - assert (length s mod 2 = 0)%nat as Hm.
    { rewrite <- Nat.bit0_mod, Nat.bit0_odd, Eo. reflexivity. }
    assert (1 <= length s / 2)%nat as Hk by lia.
    set (i := (length s / 2 - 1)%nat) in *. set (j := (length s / 2)%nat) in *.
    assert (nth i s 0 <= nth j s 0)%R as Hij.
    { replace j with (S i) by (unfold i, j; lia). apply sorted_adjacent; [exact Hs|].
      unfold i. lia. }
    pose proof (sorted_count_le s Hs i ((nth i s 0 + nth j s 0) / 2)%R
                  ltac:(unfold i; lia) ltac:(lra)) as H1.
    pose proof (sorted_count_ge s Hs j ((nth i s 0 + nth j s 0) / 2)%R
                  ltac:(unfold j; lia) ltac:(lra)) as H2.
    split; [unfold i, j in *; lia|]. split; [unfold i, j in *; lia|].
    exists (nth i s 0%R), (nth j s 0%R).
    split; [apply nth_In; unfold i; lia|]. split; [apply nth_In; unfold j; lia | lra].
Qed.

(** X24. The median current spread of an entity is a median of the defined
    per-cycle values only: with no defined value the result is NaN;
    otherwise it is a number m such that at least half of the defined
    values are at most m and at least half are at least m, and m lies
    between the smallest and the largest of them, NaN entries (cycles with a
    single sample) playing no part. *)
Theorem X24_median_of_defined_values :
  forall a : list xreal,
    (finite_values a = [] -> np_nanmedian a = NaN)
    /\ (finite_values a <> [] ->
        exists m, np_nanmedian a = Fin m
                  /\ (length (finite_values a) <= 2 * count_leR m (finite_values a))%nat
                  /\ (length (finite_values a) <= 2 * count_geR m (finite_values a))%nat
                  /\ (exists lo hi, In lo (finite_values a) /\ In hi (finite_values a)
                                    /\ (lo <= m <= hi)%R)).
Proof.
  intros a. rewrite np_nanmedian_spec, filter_notnan_exact.
  generalize (finite_values a) as rs. intros rs. split.
  - intros ->. reflexivity.
  - intros Hne. destruct (np_median_sorted rs Hne) as [s [Hp [Hs E]]].
    assert (s <> []) as Hsne.
    { intros ->. apply Permutation_sym, Permutation_nil in Hp. contradiction. }
    destruct (middle_value_counts s Hs Hsne) as [H1 [H2 [lo [hi [Hlo [Hhi Hb]]]]]].
    exists (middle_value s). split; [exact E|].
    rewrite (count_leR_perm _ rs s Hp), (count_geR_perm _ rs s Hp),
      (Permutation_length Hp).
    split; [exact H1|]. split; [exact H2|].
    exists lo, hi. split; [|split; [|exact Hb]].
    + eapply Permutation_in; [symmetry; exact Hp | exact Hlo].
    + eapply Permutation_in; [symmetry; exact Hp | exact Hhi].
Qed.

(** * The aggregation and the time order, on the stored data *)

(** ** NaN sentinels in the summary aggregation (C1) *)




(** ** The fraction is taken over the time-ordered voltages (C5) *)



End AnyOrder.

(** * The stable order, and the statements at concrete inputs *)

Lemma insert_index_perm (keys : list Z) (i : nat) (indexer : list nat) :
  Permutation (i :: indexer) (insert_index keys i indexer).
Proof.
  induction indexer as [|j indexer IH]; simpl; [reflexivity|].
  destruct (nth i keys 0 <=? nth j keys 0)%Z; [reflexivity|].
  rewrite perm_swap. apply perm_skip. exact IH.
Qed.

Lemma insert_index_sorted (keys : list Z) (i : nat) (indexer : list nat) :
  StronglySorted Z.le (map (fun i => nth i keys 0%Z) indexer) ->
  StronglySorted Z.le (map (fun i => nth i keys 0%Z) (insert_index keys i indexer)).
Proof.
  induction indexer as [|j indexer IH]; simpl; intros Hs.
  - repeat constructor.
  - inversion Hs as [|? ? Hs' Hall]; subst.
    destruct (nth i keys 0 <=? nth j keys 0)%Z eqn:E.
    + apply Z.leb_le in E. simpl. constructor; [exact Hs|].
      constructor; [exact E|].
      eapply Forall_impl; [|exact Hall]. intros; lia.
    + apply Z.leb_gt in E. simpl. constructor; [apply IH; exact Hs'|].
      rewrite Forall_map. eapply Permutation_Forall; [apply insert_index_perm|].
      constructor; [lia|]. rewrite <- Forall_map. exact Hall.
Qed.

Lemma stable_argsort_perm (keys : list Z) :
  Permutation (stable_argsort keys) (seq 0 (length keys)).
Proof.
  unfold stable_argsort. induction (seq 0 (length keys)) as [|i l IH]; simpl;
    [constructor|].
  rewrite <- insert_index_perm. apply perm_skip. exact IH.
Qed.

Lemma stable_argsort_sorted (keys : list Z) :
  StronglySorted Z.le (map (fun i => nth i keys 0%Z) (stable_argsort keys)).
Proof.
  unfold stable_argsort. induction (seq 0 (length keys)) as [|i l IH]; simpl;
    [constructor|].
  apply insert_index_sorted. exact IH.
Qed.

#[global] Instance stable_order : SortOrder := {|
  argsort := stable_argsort;
  argsort_perm := stable_argsort_perm;
  argsort_sorted := stable_argsort_sorted
|}.

(** ** The statements at concrete inputs *)



(** C4 as stated fails in binary64: three samples of one partition with the
    same current 0.1 A have the computed mean 0.10000000000000002, and the
    standard deviation comes out strictly positive (about 1.7e-17). *)
Lemma C4_identical_values_residue :
  exists row : CycleStats PrimFloat.float,
    cycle_stats_row
      (("B0029"%string, 1%Z),
       [mkSample "B0029" 1 0 "discharge" (decimal 1 1) (decimal 42 1) (of_Z 24) nan;
        mkSample "B0029" 1 1 "discharge" (decimal 1 1) (decimal 41 1) (of_Z 24) nan;
        mkSample "B0029" 1 2 "discharge" (decimal 1 1) (decimal 40 1) (of_Z 24) (decimal 18 1)])
    = Ok row
    /\ isnan (i_std_A row) = false
    /\ feq (i_std_A row) zero = false
    /\ flt zero (i_std_A row) = true
    /\ flt (i_std_A row) (fdiv (of_Z 1) (of_Z (10 ^ 16))) = true.
Proof.
  eexists. split; [vm_compute; reflexivity|].
  vm_compute. repeat split.
Qed.

(** C4 at three samples of 0.1 A in exact arithmetic, and at a partition of
    one sample. *)
Lemma C4_current_std_witness :
  np_std 1 (repeat (Fin (1 / 10)) 3) = Fin 0
  /\ exists row : CycleStats xreal,
       cycle_stats_row
         (("B0029"%string, 1%Z),
          [mkSample "B0029" 1 0 "discharge" (Fin (-2)) (Fin 4) (Fin 24) NaN])
       = Ok row
       /\ i_std_A row = NaN.
Proof.
  destruct C4_current_std_sample as [Hrow [_ [Hsame _]]].
  split.
  - apply Hsame. lia.
  - destruct (Hrow xreal exact_arith
                (("B0029"%string, 1%Z),
                 [mkSample "B0029" 1 0 "discharge" (Fin (-2)) (Fin 4) (Fin 24) NaN]))
      as [row [Hok Hstd]]; [discriminate|].
    exists row. split; [exact Hok | exact Hstd].
Defined.


(** C7 at a table of two entities (binary64), and at the empty table. *)
Lemma C7_global_counters_witness :
  (exists r1 r2 : CellSummary PrimFloat.float,
    build_cell_summary_table
      [mkCycleStats "B0029" 1 2 (of_Z (-2)) (of_Z 0) (of_Z 1) (of_Z 24) (of_Z 25) (of_Z 2);
       mkCycleStats "B0030" 1 2 (of_Z (-2)) (of_Z 0) (of_Z 1) (of_Z 24) (of_Z 25) (of_Z 2)]
      [mkSample "B0029" 1 0 "discharge" (of_Z (-2)) (of_Z 4) (of_Z 24) nan;
       mkSample "B0029" 1 0 "discharge" (of_Z (-2)) (of_Z 4) (of_Z 25) (of_Z 2);
       mkSample "B0030" 1 0 "discharge" (of_Z (-2)) (of_Z 4) (of_Z 24) nan;
       mkSample "B0030" 1 1 "discharge" (of_Z (-2)) (of_Z 4) (of_Z 25) (of_Z 2)]
      [mkImpedanceRow "B0029" (of_Z 0) (of_Z 1); mkImpedanceRow "B0030" (of_Z 1) (of_Z (-1))]
    = Done [r1; r2]
    /\ Cell r1 = "B0029"%string /\ Cell r2 = "B0030"%string
    /\ TimeMonotonicityViolations_allCells r1 = 1%nat
    /\ TimeMonotonicityViolations_allCells r2 = 1%nat
    /\ Re_nonpos_allRows r1 = Re_nonpos_allRows r2
    /\ Rct_nonpos_allRows r1 = Rct_nonpos_allRows r2)
  /\ build_cell_summary_table (F := PrimFloat.float) [] [] []
     = Failed (KeyError "cell_id").
Proof.
  split.
  - destruct (C7_global_counters_broadcast PrimFloat.float binary64
      [mkCycleStats "B0029" 1 2 (of_Z (-2)) (of_Z 0) (of_Z 1) (of_Z 24) (of_Z 25) (of_Z 2);
       mkCycleStats "B0030" 1 2 (of_Z (-2)) (of_Z 0) (of_Z 1) (of_Z 24) (of_Z 25) (of_Z 2)]
      [mkSample "B0029" 1 0 "discharge" (of_Z (-2)) (of_Z 4) (of_Z 24) nan;
       mkSample "B0029" 1 0 "discharge" (of_Z (-2)) (of_Z 4) (of_Z 25) (of_Z 2);
       mkSample "B0030" 1 0 "discharge" (of_Z (-2)) (of_Z 4) (of_Z 24) nan;
       mkSample "B0030" 1 1 "discharge" (of_Z (-2)) (of_Z 4) (of_Z 25) (of_Z 2)]
      [mkImpedanceRow "B0029" (of_Z 0) (of_Z 1); mkImpedanceRow "B0030" (of_Z 1) (of_Z (-1))])
      as [[Hnil _]|[_ [rows [Hrows [_ [_ [Hglobal Hpair]]]]]]]; [discriminate|].
    pose proof Hrows as Hrows'. vm_compute in Hrows'.
    injection Hrows' as Hrows'. subst rows.
    do 2 eexists. split; [vm_compute; reflexivity|].
    split; [reflexivity|]. split; [reflexivity|].
    split; [apply (Hglobal _ (or_introl eq_refl))|].
    split; [apply (Hglobal _ (or_intror (or_introl eq_refl)))|].
    split; apply Hpair; simpl; auto.
  - destruct (C7_global_counters_broadcast PrimFloat.float binary64 [] [] [])
      as [[_ Hfail]|[Hne _]]; [exact Hfail | congruence].
Defined.

(** C3 as stated fails when time indices lie further apart than int64
    subtraction can tell: in the second partition of [int64_wide] the time
    indices are -2^63, 0 and 2^63 - 1, every consecutive difference of the
    sorted indices is positive (no step fails to increase), but the first
    one, 2^63, is computed as -2^63, and the partition contributes 1. *)
Lemma C3_increasing_indices_counted :
  map fst (partitions int64_wide) = [("B0029"%string, 1%Z); ("B0030"%string, 7%Z)]
  /\ map t_index (partition_of int64_wide ("B0029"%string, 1%Z)) = [0; 1; 2; 3]%Z
  /\ map t_index (partition_of int64_wide ("B0030"%string, 7%Z))
     = [- 2 ^ 63; 0; 2 ^ 63 - 1]%Z
  /\ nonincreasing_steps [0; 1; 2; 3]%Z = 0%nat
  /\ nonincreasing_steps [- 2 ^ 63; 0; 2 ^ 63 - 1]%Z = 0%nat
  /\ nonpositive_steps [- 2 ^ 63; 0; 2 ^ 63 - 1]%Z = 1%nat
  /\ time_monotonicity_violations int64_wide = 1%nat.
Proof. repeat split; vm_compute; reflexivity. Qed.

(** C9 at a partition stored in strictly decreasing time order (not
    counted) and at one with a repeated time index (counted). *)
Lemma C9_violation_witness :
  has_time_violation
    [mkSample "B0029" 1 3 "discharge" (Fin (-2)) (Fin 4) (Fin 24) NaN;
     mkSample "B0029" 1 2 "discharge" (Fin (-2)) (Fin 4) (Fin 24) NaN;
     mkSample "B0029" 1 1 "discharge" (Fin (-2)) (Fin 4) (Fin 24) NaN] = false
  /\ has_time_violation
       [mkSample "B0029" 1 3 "discharge" (Fin (-2)) (Fin 4) (Fin 24) NaN;
        mkSample "B0029" 1 2 "discharge" (Fin (-2)) (Fin 4) (Fin 24) NaN;
        mkSample "B0029" 1 3 "discharge" (Fin (-2)) (Fin 4) (Fin 24) NaN] = true.
Proof.
  split.
  - destruct (C9_violation_iff_duplicate_time_index xreal
                [mkSample "B0029" 1 3 "discharge" (Fin (-2)) (Fin 4) (Fin 24) NaN;
                 mkSample "B0029" 1 2 "discharge" (Fin (-2)) (Fin 4) (Fin 24) NaN;
                 mkSample "B0029" 1 1 "discharge" (Fin (-2)) (Fin 4) (Fin 24) NaN])
      as [_ [_ Hin_range]].
    destruct Hin_range as [_ [Hnodup _]].
    + intros s s' [<-|[<-|[<-|[]]]] [<-|[<-|[<-|[]]]]; reflexivity.
    + apply Hnodup. simpl. repeat constructor; simpl; intuition lia.
  - destruct (C9_violation_iff_duplicate_time_index xreal
                [mkSample "B0029" 1 3 "discharge" (Fin (-2)) (Fin 4) (Fin 24) NaN;
                 mkSample "B0029" 1 2 "discharge" (Fin (-2)) (Fin 4) (Fin 24) NaN;
                 mkSample "B0029" 1 3 "discharge" (Fin (-2)) (Fin 4) (Fin 24) NaN])
      as [_ [_ Hin_range]].
    destruct Hin_range as [Hdup _].
    + intros s s' [<-|[<-|[<-|[]]]] [<-|[<-|[<-|[]]]]; reflexivity.
    + apply Hdup. exists 0%nat, 2%nat. simpl. split; [lia | reflexivity].
Defined.

(** C9 as stated fails at the ends of the int64 range: the two time
    indices -2^63 and 2^63 - 1 are distinct (so every admissible order
    sorts them alike), their difference 2^64 - 1 wraps around to -1, and
    the partition is counted. *)
Lemma C9_distinct_indices_counted :
  NoDup (map t_index int64_extremes)
  /\ has_time_violation int64_extremes = true
  /\ time_monotonicity_violations int64_extremes = 1%nat.
Proof.
  split; [|split; vm_compute; reflexivity].
  repeat constructor; simpl; intuition discriminate.
Qed.


(** ** The worked examples of the specification, evaluated in binary64 *)

Example b0029_cycle_stats :
  discharge_cycle_level_stats b0029_cycle
  = Ok [mkCycleStats "B0029" 1 4 (of_Z (-2)) (of_Z 0) (of_Z 1)
                     (of_Z 24) (of_Z 25) (decimal 18 1)].
Proof. vm_compute. reflexivity. Qed.

Example b0029_no_time_violation : time_monotonicity_violations b0029_cycle = 0%nat.
Proof. vm_compute. reflexivity. Qed.

Example one_or_many_violating_steps :
  time_monotonicity_violations
    [mkSample "B0029" 1 0 "discharge" (of_Z (-2)) (of_Z 4) (of_Z 24) (nan : PrimFloat.float);
     mkSample "B0029" 1 0 "discharge" (of_Z (-2)) (of_Z 4) (of_Z 24) nan;
     mkSample "B0029" 1 1 "discharge" (of_Z (-2)) (of_Z 4) (of_Z 24) nan] = 1%nat
  /\ time_monotonicity_violations
       [mkSample "B0029" 1 0 "discharge" (of_Z (-2)) (of_Z 4) (of_Z 24) (nan : PrimFloat.float);
        mkSample "B0029" 1 0 "discharge" (of_Z (-2)) (of_Z 4) (of_Z 24) nan;
        mkSample "B0029" 1 0 "discharge" (of_Z (-2)) (of_Z 4) (of_Z 24) nan;
        mkSample "B0029" 1 0 "discharge" (of_Z (-2)) (of_Z 4) (of_Z 24) nan] = 1%nat.
Proof. split; vm_compute; reflexivity. Qed.

Example b0029_representative :
  pick_representative_discharge_cycle
    (mkSample "B0030" 0 0 "discharge" (of_Z (-2)) (of_Z 4) (of_Z 24) nan
     :: mkSample "B0029" 2 0 "discharge" (of_Z (-2)) (of_Z 4) (of_Z 24) nan
     :: rev b0029_cycle) "B0029"
  = Ok (1%Z, b0029_cycle)
  /\ pick_representative_discharge_cycle b0029_cycle "B0031"
     = Raise (ValueError "No discharge samples for cell B0031").
Proof. split; vm_compute; reflexivity. Qed.

Example two_cycles_indicator_is_nan :
  spearman_corr (F := PrimFloat.float) [of_Z 1; of_Z 2] [decimal 19 1; decimal 17 1]
  = Ok nan.
Proof. vm_compute. reflexivity. Qed.

(** ** The further properties at concrete inputs *)

Lemma X12_representative_witness :
  exists cyc : list (Sample PrimFloat.float),
    pick_representative_discharge_cycle (rev b0029_cycle) "B0029" = Ok (1%Z, cyc)
    /\ cyc = sort_values t_index (partition_of (rev b0029_cycle) ("B0029"%string, 1%Z))
    /\ cyc = b0029_cycle.
Proof.
  exists b0029_cycle.
  assert (pick_representative_discharge_cycle (rev b0029_cycle) "B0029"
          = Ok (1%Z, b0029_cycle)) as Hpick by (vm_compute; reflexivity).
  split; [exact Hpick|]. split; [|reflexivity].
  apply (X12_representative_is_a_partition _ _ _ _ _ _ Hpick).
Defined.

Lemma X13_violations_row_order_witness :
  time_monotonicity_violations (rev b0029_cycle) = time_monotonicity_violations b0029_cycle.
Proof.
  apply (X13_violations_row_order_irrelevant _ b0029_cycle (rev b0029_cycle)).
  apply Permutation_rev.
Defined.

Lemma X16_export_consistent_witness :
  exists (table : list (CellSummary PrimFloat.float)) (ev : GlobalEvidence),
    evidence_export
      (mkSample "B0030" 7 0 "discharge" (of_Z (-2)) (of_Z 4) (of_Z 24) nan
       :: mkSample "B0030" 7 0 "charge" (of_Z 1) (of_Z 4) (of_Z 24) nan
       :: b0029_cycle)
      [mkImpedanceRow "B0029" (of_Z 0) (of_Z 1)] "B0029"
    = Done (table, ev)
    /\ unique_discharge_cycles ev = 2%nat
    /\ unique_discharge_cycles ev = list_sum (map N_discharge_cycles table)
    /\ discharge_samples ev = 5%nat
    /\ rep_cycle_samples ev = 4%nat.
Proof.
  destruct (evidence_export
      (mkSample "B0030" 7 0 "discharge" (of_Z (-2)) (of_Z 4) (of_Z 24) nan
       :: mkSample "B0030" 7 0 "charge" (of_Z 1) (of_Z 4) (of_Z 24) nan
       :: b0029_cycle)
      [mkImpedanceRow "B0029" (of_Z 0) (of_Z 1)] "B0029") as [[table ev]|f] eqn:Hrun.
  - exists table, ev. split; [reflexivity|].
    destruct (X16_export_consistent _ _ _ _ _ _ _ Hrun)
      as [stats [_ [_ [_ [Hcycles _]]]]].
    vm_compute in Hrun. injection Hrun as Ht He. subst table ev.
    split; [reflexivity|]. split; [exact Hcycles|]. split; reflexivity.
  - vm_compute in Hrun. discriminate.
Defined.

Lemma X22_cycle_stats_row_order_witness :
  discharge_cycle_level_stats (rev b0029_cycle) = discharge_cycle_level_stats b0029_cycle
  /\ discharge_cycle_level_stats
       [mkSample "B0029" 1 0 "discharge" (of_Z (-2)) (of_Z 4) (of_Z 24) (nan : PrimFloat.float);
        mkSample "B0029" 1 0 "discharge" (of_Z (-2)) (of_Z 3) (of_Z 24) nan]
     <> discharge_cycle_level_stats
          [mkSample "B0029" 1 0 "discharge" (of_Z (-2)) (of_Z 3) (of_Z 24) (nan : PrimFloat.float);
           mkSample "B0029" 1 0 "discharge" (of_Z (-2)) (of_Z 4) (of_Z 24) nan].
Proof.
  split.
  - apply X22_cycle_stats_row_order_irrelevant;
      [apply Permutation_rev | vm_compute; reflexivity].
  - vm_compute. intros E. discriminate E.
Defined.

